(** * words-rain: the typing-rain game engine and its settings endpoint

    The repository is a browser typing game served by one Go binary.  The
    client script owns a single mutable [state] object and a handful of
    functions that mutate it (spawn, fall, targeting, solve, completion);
    the Go server exposes wordbooks and two settings endpoints.

    This file embeds both sides as pure functions with explicit state
    passing and proves the properties the specification states about them.

    Modelling conventions.
    - JavaScript numbers that only ever hold integers ([score], [combo],
      [nextWordId], [maxActiveWords]) are [Z]; pixel positions and timers are
      exact rationals [Q] standing for the finite doubles of the script.
    - Strings are [string]; the script only ever appends the letters a-z to
      [inputBuffer], [toLowerCase] and [trim] are given on the ASCII range.
    - [Math.random], the canvas size, [ctx.measureText] and [Math.pow] come
      from the host; they are inputs of the functions that read them.
    - [state.effects] and [state.lastFrameTime] only feed the renderer and
      the computation of [dt]; no engine decision reads them, they are left
      out of the record and [dt] is an input of the frame step. *)

From Stdlib Require Import ZArith QArith Qround Qminmax Lqa Lia Bool Ascii String.
From Stdlib Require Import Sorted.
From stdpp Require Import base tactics option list sorting.

Set Default Proof Using "Type".
#[local] Open Scope Z_scope.

(** ** Small numeric and string helpers *)

(** [a < b] on rationals as a boolean, for the script's [>] and [<]. *)
Definition Qlt_bool (a b : Q) : bool := negb (Qle_bool b a).

(** [String.prototype.startsWith]: [startsWith p t] is [t.startsWith(p)]. *)
Definition startsWith (p t : string) : bool := String.prefix p t.

Notation "s '|>' f" := (f s) (at level 45, left associativity, only parsing).

Module Game.

(** ** The data model of the script *)

Module Word.
(** An entry of [state.activeWords]. *)
Record t := mk {
  id : Z;
  text : string;
  x : Q;
  y : Q;
  width : Q;
}.
End Word.

(** The page elements the engine writes: the HUD counters, the status line,
    the final score and the visibility of the result box.  A number written
    through [String(n)] is kept as the number. *)
Record Page := mkPage {
  scoreEl : Z;
  comboEl : Z;
  statusEl : string;
  finalScoreEl : Z;
  resultBoxHidden : bool;
}.

(** The [state] object, with the page it reports to. *)
Record State := mkState {
  running : bool;
  frozen : bool;
  gameOver : bool;
  score : Z;
  combo : Z;
  inputBuffer : string;
  targetWordId : option Z;
  speedLevel : Q;
  pendingWords : list string;
  activeWords : list Word.t;
  missedWords : list string;
  spawnTimer : Q;
  nextWordId : Z;
  maxActiveWords : Z;
  accent : string;
  page : Page;
}.

(** Field assignments [state.f = v]. *)
Definition set_running (v : bool) (s : State) : State :=
  mkState v (frozen s) (gameOver s) (score s) (combo s) (inputBuffer s)
  (targetWordId s) (speedLevel s) (pendingWords s) (activeWords s)
  (missedWords s) (spawnTimer s) (nextWordId s) (maxActiveWords s) (accent s)
  (page s).
Definition set_frozen (v : bool) (s : State) : State :=
  mkState (running s) v (gameOver s) (score s) (combo s) (inputBuffer s)
  (targetWordId s) (speedLevel s) (pendingWords s) (activeWords s)
  (missedWords s) (spawnTimer s) (nextWordId s) (maxActiveWords s) (accent s)
  (page s).
Definition set_gameOver (v : bool) (s : State) : State :=
  mkState (running s) (frozen s) v (score s) (combo s) (inputBuffer s)
  (targetWordId s) (speedLevel s) (pendingWords s) (activeWords s)
  (missedWords s) (spawnTimer s) (nextWordId s) (maxActiveWords s) (accent s)
  (page s).
Definition set_score (v : Z) (s : State) : State :=
  mkState (running s) (frozen s) (gameOver s) v (combo s) (inputBuffer s)
  (targetWordId s) (speedLevel s) (pendingWords s) (activeWords s)
  (missedWords s) (spawnTimer s) (nextWordId s) (maxActiveWords s) (accent s)
  (page s).
Definition set_combo (v : Z) (s : State) : State :=
  mkState (running s) (frozen s) (gameOver s) (score s) v (inputBuffer s)
  (targetWordId s) (speedLevel s) (pendingWords s) (activeWords s)
  (missedWords s) (spawnTimer s) (nextWordId s) (maxActiveWords s) (accent s)
  (page s).
Definition set_inputBuffer (v : string) (s : State) : State :=
  mkState (running s) (frozen s) (gameOver s) (score s) (combo s) v
  (targetWordId s) (speedLevel s) (pendingWords s) (activeWords s)
  (missedWords s) (spawnTimer s) (nextWordId s) (maxActiveWords s) (accent s)
  (page s).
Definition set_targetWordId (v : option Z) (s : State) : State :=
  mkState (running s) (frozen s) (gameOver s) (score s) (combo s) (inputBuffer
  s) v (speedLevel s) (pendingWords s) (activeWords s) (missedWords s)
  (spawnTimer s) (nextWordId s) (maxActiveWords s) (accent s) (page s).
Definition set_speedLevel (v : Q) (s : State) : State :=
  mkState (running s) (frozen s) (gameOver s) (score s) (combo s) (inputBuffer
  s) (targetWordId s) v (pendingWords s) (activeWords s) (missedWords s)
  (spawnTimer s) (nextWordId s) (maxActiveWords s) (accent s) (page s).
Definition set_pendingWords (v : list string) (s : State) : State :=
  mkState (running s) (frozen s) (gameOver s) (score s) (combo s) (inputBuffer
  s) (targetWordId s) (speedLevel s) v (activeWords s) (missedWords s)
  (spawnTimer s) (nextWordId s) (maxActiveWords s) (accent s) (page s).
Definition set_activeWords (v : list Word.t) (s : State) : State :=
  mkState (running s) (frozen s) (gameOver s) (score s) (combo s) (inputBuffer
  s) (targetWordId s) (speedLevel s) (pendingWords s) v (missedWords s)
  (spawnTimer s) (nextWordId s) (maxActiveWords s) (accent s) (page s).
Definition set_missedWords (v : list string) (s : State) : State :=
  mkState (running s) (frozen s) (gameOver s) (score s) (combo s) (inputBuffer
  s) (targetWordId s) (speedLevel s) (pendingWords s) (activeWords s) v
  (spawnTimer s) (nextWordId s) (maxActiveWords s) (accent s) (page s).
Definition set_spawnTimer (v : Q) (s : State) : State :=
  mkState (running s) (frozen s) (gameOver s) (score s) (combo s) (inputBuffer
  s) (targetWordId s) (speedLevel s) (pendingWords s) (activeWords s)
  (missedWords s) v (nextWordId s) (maxActiveWords s) (accent s) (page s).
Definition set_nextWordId (v : Z) (s : State) : State :=
  mkState (running s) (frozen s) (gameOver s) (score s) (combo s) (inputBuffer
  s) (targetWordId s) (speedLevel s) (pendingWords s) (activeWords s)
  (missedWords s) (spawnTimer s) v (maxActiveWords s) (accent s) (page s).
Definition set_maxActiveWords (v : Z) (s : State) : State :=
  mkState (running s) (frozen s) (gameOver s) (score s) (combo s) (inputBuffer
  s) (targetWordId s) (speedLevel s) (pendingWords s) (activeWords s)
  (missedWords s) (spawnTimer s) (nextWordId s) v (accent s) (page s).
Definition set_accent (v : string) (s : State) : State :=
  mkState (running s) (frozen s) (gameOver s) (score s) (combo s) (inputBuffer
  s) (targetWordId s) (speedLevel s) (pendingWords s) (activeWords s)
  (missedWords s) (spawnTimer s) (nextWordId s) (maxActiveWords s) v (page s).
Definition set_page (v : Page) (s : State) : State :=
  mkState (running s) (frozen s) (gameOver s) (score s) (combo s) (inputBuffer
  s) (targetWordId s) (speedLevel s) (pendingWords s) (activeWords s)
  (missedWords s) (spawnTimer s) (nextWordId s) (maxActiveWords s) (accent s)
  v.

Definition set_scoreEl (v : Z) (s : State) : State :=
  set_page (mkPage v (comboEl (page s)) (statusEl (page s))
              (finalScoreEl (page s)) (resultBoxHidden (page s))) s.
Definition set_comboEl (v : Z) (s : State) : State :=
  set_page (mkPage (scoreEl (page s)) v (statusEl (page s))
              (finalScoreEl (page s)) (resultBoxHidden (page s))) s.
Definition set_statusEl (v : string) (s : State) : State :=
  set_page (mkPage (scoreEl (page s)) (comboEl (page s)) v
              (finalScoreEl (page s)) (resultBoxHidden (page s))) s.
Definition set_finalScoreEl (v : Z) (s : State) : State :=
  set_page (mkPage (scoreEl (page s)) (comboEl (page s)) (statusEl (page s))
              v (resultBoxHidden (page s))) s.
Definition set_resultBoxHidden (v : bool) (s : State) : State :=
  set_page (mkPage (scoreEl (page s)) (comboEl (page s)) (statusEl (page s))
              (finalScoreEl (page s)) v) s.

(** The literal the script starts from; the page is whatever the document
    holds at load time. *)
Definition initial (p : Page) : State :=
  mkState false false false 0 0 EmptyString None 1 [] [] [] 0 1 8 "en-US" p.

(** ** Targeting *)

(** One iteration of the loop of [chooseTarget]: skip a word that does not
    start with the prefix, otherwise keep the better of [best] and [w]. *)
Definition chooseTarget_step (prefix : string)
    (best : option Word.t) (w : Word.t) : option Word.t :=
  if negb (startsWith prefix (Word.text w)) then best
  else match best with
       | None => Some w
       | Some b => if Qlt_bool (Word.y b) (Word.y w) then Some w else best
       end.

Definition chooseTarget (prefix : string) (s : State) : option Word.t :=
  fold_left (chooseTarget_step prefix) (activeWords s) None.

Definition clearInputTracking (s : State) : State :=
  s |> set_inputBuffer EmptyString |> set_targetWordId None.

(** ** Scoring, misses and completion *)

Definition updateHUD (s : State) : State :=
  s |> set_scoreEl (score s) |> set_comboEl (combo s).

Definition onWordMissed (word : Word.t) (s : State) : State :=
  let s := s |> set_missedWords (missedWords s ++ [Word.text word]) in
  let s := s |> set_combo 0 in
  let s := updateHUD s in
  if bool_decide (targetWordId s = Some (Word.id word))
  then clearInputTracking s
  else s.

(** [findIndex] then [splice(index, 1)]: the first word carrying the id is
    taken out and returned; [None] stands for the script's [null]. *)
Definition removeActiveWordById (id : Z) (s : State)
    : option Word.t * State :=
  match list_find (λ w, Word.id w = id) (activeWords s) with
  | None => (None, s)
  | Some (index, removed) =>
      (Some removed, set_activeWords (delete index (activeWords s)) s)
  end.

Definition maybeFinishGame (s : State) : State :=
  if (length (pendingWords s) =? 0)%nat
     && (length (activeWords s) =? 0)%nat
     && (length (missedWords s) =? 0)%nat
  then
    let s := s |> set_running false in
    let s := s |> set_gameOver true in
    let s := s |> set_statusEl "Complete" in
    let s := s |> set_finalScoreEl (score s) in
    s |> set_resultBoxHidden false
  else s.

(** [onWordSolved] is an async function.  Everything up to its [await] runs
    inside the keystroke that solved the word; the two awaited promises
    (dissolve animation, speech) only touch the renderer and the speech
    engine. *)
Definition onWordSolved (word : Word.t) (s : State) : State :=
  let s := s |> set_combo (combo s + 1) in
  let points := combo s in
  let s := s |> set_score (score s + points) in
  let s := updateHUD s in
  let s := s |> set_frozen true in
  s |> set_statusEl "Speaking".

(** The rest of [onWordSolved], run when both promises have settled. *)
Definition onWordSolved_resume (s : State) : State :=
  let s := s |> set_frozen false in
  let s := s |> set_statusEl "Running" in
  maybeFinishGame s.

(** ** Keyboard input *)

Definition lowerAscii (c : ascii) : ascii :=
  let n := nat_of_ascii c in
  if ((65 <=? n) && (n <=? 90))%nat then ascii_of_nat (n + 32) else c.

Fixpoint toLowerCase (t : string) : string :=
  match t with
  | EmptyString => EmptyString
  | String c t' => String (lowerAscii c) (toLowerCase t')
  end.

Definition handleTypedCharacter (ch : string) (s : State) : State :=
  if negb (running s) || frozen s || gameOver s then s
  else
    let lower := toLowerCase ch in
    let hadInput := (0 <? String.length (inputBuffer s))%nat in
    let extended := (inputBuffer s ++ lower)%string in
    let first := chooseTarget extended s in
    let brokenChain :=
      match first with None => hadInput | Some _ => false end in
    let nextBuffer :=
      match first with None => lower | Some _ => extended end in
    let target :=
      match first with None => chooseTarget lower s | Some _ => first end in
    let s := if brokenChain then s |> set_combo 0 |> updateHUD else s in
    match target with
    | None => clearInputTracking s
    | Some target =>
        let s := s |> set_inputBuffer nextBuffer in
        let s := s |> set_targetWordId (Some (Word.id target)) in
        if String.eqb (inputBuffer s) (Word.text target) then
          let '(solved, s) := removeActiveWordById (Word.id target) s in
          let s := clearInputTracking s in
          match solved with
          | Some solved => onWordSolved solved s
          | None => s
          end
        else s
    end.

(** [t.slice(0, -1)] *)
Definition dropLast (t : string) : string :=
  String.substring 0 (String.length t - 1) t.

Definition handleControlKey (key : string) (s : State) : State :=
  if String.eqb key "Backspace" then
    if (String.length (inputBuffer s) =? 0)%nat then s
    else
      let s := s |> set_inputBuffer (dropLast (inputBuffer s)) in
      if (String.length (inputBuffer s) =? 0)%nat
      then s |> set_targetWordId None
      else
        let target := chooseTarget (inputBuffer s) s in
        s |> set_targetWordId
               (match target with Some t => Some (Word.id t) | None => None end)
  else if String.eqb key "Escape" then clearInputTracking s
  else s.

(** The test [/^[a-zA-Z]$/] on [event.key]. *)
Definition isLetterKey (key : string) : bool :=
  match key with
  | String c EmptyString =>
      let n := nat_of_ascii c in
      (((65 <=? n) && (n <=? 90)) || ((97 <=? n) && (n <=? 122)))%nat
  | _ => false
  end.

(** The [keydown] listener installed by [init]. *)
Definition keydown (key : string) (s : State) : State :=
  if negb (running s) then s
  else if isLetterKey key then handleTypedCharacter key s
  else if String.eqb key "Backspace" || String.eqb key "Escape"
  then handleControlKey key s
  else s.

(** ** Session lifecycle *)

Definition resetRuntimeState (s : State) : State :=
  let s := s |> set_running true in
  let s := s |> set_frozen false in
  let s := s |> set_gameOver false in
  let s := s |> set_score 0 in
  let s := s |> set_combo 0 in
  let s := s |> set_inputBuffer EmptyString in
  let s := s |> set_targetWordId None in
  let s := s |> set_spawnTimer 0 in
  let s := s |> set_activeWords [] in
  let s := s |> set_missedWords [] in
  let s := s |> set_nextWordId 1 in
  let s := updateHUD s in
  let s := s |> set_statusEl "Running" in
  s |> set_resultBoxHidden true.

Definition goToSetup (s : State) : State :=
  let s := s |> set_running false in
  let s := s |> set_frozen false in
  let s := s |> set_gameOver false in
  clearInputTracking s.

(** [t.trim()] on the ASCII white space (tab, line feed, vertical tab, form
    feed, carriage return, space). *)
Definition isSpaceAscii (c : ascii) : bool :=
  let n := nat_of_ascii c in (((9 <=? n) && (n <=? 13)) || (n =? 32))%nat.

Fixpoint trimStart (l : list ascii) : list ascii :=
  match l with
  | c :: l' => if isSpaceAscii c then trimStart l' else l
  | [] => []
  end.

Definition trim (t : string) : string :=
  string_of_list_ascii
    (rev (trimStart (rev (trimStart (list_ascii_of_string t))))).

(** ** Vocabulary of the statements about the engine *)

(** [w] is an active word that starts with the prefix. *)
Definition matching (prefix : string) (w : Word.t) : Prop :=
  startsWith prefix (Word.text w) = true.

(** [b] is the first word of [l] that matches and lies lowest: matching
    words before it are strictly higher up, matching words after it are not
    lower. *)
Definition first_lowest (prefix : string) (l : list Word.t) (b : Word.t)
    : Prop :=
  ∃ l1 l2, l = l1 ++ b :: l2 ∧ matching prefix b
    ∧ (∀ w, w ∈ l1 → matching prefix w → (Word.y w < Word.y b)%Q)
    ∧ (∀ w, w ∈ l2 → matching prefix w → (Word.y w <= Word.y b)%Q).

(** Some word of [l] carries the id [i]. *)
Definition has_id (i : Z) (l : list Word.t) : Prop :=
  ∃ w, w ∈ l ∧ Word.id w = i.

(** [running] and [gameOver] are never both set. *)
Definition phase_ok (s : State) : Prop :=
  running s = true → gameOver s = false.

(** While frozen nothing is being typed. *)
Definition frozen_ok (s : State) : Prop :=
  frozen s = true → inputBuffer s = EmptyString ∧ targetWordId s = None.

(** A non-null [targetWordId] names an active word that starts with
    [inputBuffer]. *)
Definition target_ok (s : State) : Prop :=
  ∀ i, targetWordId s = Some i →
    ∃ w, w ∈ activeWords s ∧ Word.id w = i ∧ matching (inputBuffer s) w.

(** The active words carry strictly increasing ids, all below
    [nextWordId]. *)
Definition ids_ok (s : State) : Prop :=
  StronglySorted Z.lt (map Word.id (activeWords s))
  ∧ Forall (λ w, Word.id w < nextWordId s) (activeWords s).

(** [s'] is [s] after some spawns: the words [news] were appended with
    the next free ids at the top line, and nothing the input, the phase or
    the score depend on has changed. *)
Definition spawned (s s' : State) (news : list Word.t) : Prop :=
  activeWords s' = activeWords s ++ news
  ∧ map Word.id news = seqZ (nextWordId s) (Z.of_nat (length news))
  ∧ nextWordId s' = nextWordId s + Z.of_nat (length news)
  ∧ running s' = running s ∧ frozen s' = frozen s
  ∧ gameOver s' = gameOver s ∧ score s' = score s ∧ combo s' = combo s
  ∧ inputBuffer s' = inputBuffer s ∧ targetWordId s' = targetWordId s
  ∧ speedLevel s' = speedLevel s ∧ maxActiveWords s' = maxActiveWords s.

(** From [s] to [s'] the targeted word is still active, or targeting has
    been cleared. *)
Definition tracking_kept (s s' : State) : Prop :=
  ∀ i, targetWordId s = Some i →
    has_id i (activeWords s')
    ∨ (targetWordId s' = None ∧ inputBuffer s' = EmptyString).

(** What every reachable state satisfies besides [target_ok]. *)
Definition well_formed (s : State) : Prop :=
  phase_ok s ∧ frozen_ok s ∧ ids_ok s ∧ 0 <= combo s.

(** The three pools are empty. *)
Definition pools_empty (s : State) : Prop :=
  pendingWords s = [] ∧ activeWords s = [] ∧ missedWords s = [].

(** Resolution of a keystroke: first the extended candidate, then the
    character alone; the result is the committed buffer and its target. *)
Definition resolve (c : string) (s : State) : option (string * Word.t) :=
  match chooseTarget (inputBuffer s ++ c) s with
  | Some t => Some ((inputBuffer s ++ c)%string, t)
  | None =>
      match chooseTarget c s with
      | Some t => Some (c, t)
      | None => None
      end
  end.

(** A chain break: something was typed before and no active word starts
    with the extended candidate. *)
Definition chain_break (c : string) (s : State) : bool :=
  negb (String.eqb (inputBuffer s) EmptyString)
  && negb (existsb (λ w, startsWith (inputBuffer s ++ c) (Word.text w))
                   (activeWords s)).

(** The events combo and score are derived from. *)
Inductive ScoreEvent := Solve | Miss | ChainBreak | Reset.

(** What one event does to the pair (combo, score). *)
Definition replay_step (cs : Z * Z) (e : ScoreEvent) : Z * Z :=
  let '(combo, score) := cs in
  match e with
  | Solve => (combo + 1, score + (combo + 1))
  | Miss | ChainBreak => (0, score)
  | Reset => (0, 0)
  end.

Definition replay (es : list ScoreEvent) (cs : Z * Z) : Z * Z :=
  fold_left replay_step es cs.

(** 1 + 2 + ... + k *)
Fixpoint triangle (k : nat) : Z :=
  match k with
  | O => 0
  | S k' => triangle k' + Z.of_nat k
  end.

(** The scoring events of a typed character the engine accepts. *)
Definition keystroke_events (ch : string) (s : State) : list ScoreEvent :=
  let c := toLowerCase ch in
  (if chain_break c s then [ChainBreak] else [])
  ++ match resolve c s with
     | Some (buffer, t) =>
         if String.eqb buffer (Word.text t) then [Solve] else []
     | None => []
     end.

(** ** Further vocabulary: pools, display, phases *)

(** The texts still to be solved: queued, on screen, or waiting to come
    back after a miss. *)
Definition pool_texts (s : State) : list string :=
  pendingWords s ++ map Word.text (activeWords s) ++ missedWords s.

(** The HUD shows the current score and combo. *)
Definition hud_ok (s : State) : Prop :=
  scoreEl (page s) = score s ∧ comboEl (page s) = combo s.

Definition isLowerLetter (c : ascii) : bool :=
  let n := nat_of_ascii c in ((97 <=? n) && (n <=? 122))%nat.

(** A text made of the letters a-z only. *)
Definition lowercase (t : string) : Prop :=
  Forall (λ c, isLowerLetter c = true) (list_ascii_of_string t).

(** What else holds of every state the engine reaches: a finished game has
    no word left and is not running, the freeze only exists in a running
    game, the active words respect the cap of 8, the score is at least
    1 + ... + combo, there is typed text exactly when there is a target, and
    the typed text is lowercase letters. *)
Definition session_ok (s : State) : Prop :=
  (gameOver s = true → running s = false ∧ pools_empty s)
  ∧ (frozen s = true → running s = true)
  ∧ maxActiveWords s = 8
  ∧ Z.of_nat (length (activeWords s)) <= maxActiveWords s
  ∧ (0 <= combo s ∧ triangle (Z.to_nat (combo s)) <= score s)
  ∧ (inputBuffer s = EmptyString ↔ targetWordId s = None)
  ∧ lowercase (inputBuffer s).

(** The text a typed character solves, if any. *)
Definition keystroke_solved (ch : string) (s : State) : list string :=
  match resolve (toLowerCase ch) s with
  | Some (buffer, t) =>
      if String.eqb buffer (Word.text t) then [Word.text t] else []
  | None => []
  end.

(** ** The host: random numbers, canvas, text metrics *)

(** The successive results of [Math.random()] an operation consumes.  A draw
    past the end of the list reads 0. *)
Definition Rand := list Q.

Definition random (rs : Rand) : Q * Rand :=
  match rs with
  | [] => (0%Q, [])
  | r :: rs' => (r, rs')
  end.


(** [[arr[i], arr[j]] = [arr[j], arr[i]]] for indices inside the array (the
    only ones [shuffle] produces from draws in [0, 1)). *)
Definition swap {A} (arr : list A) (i j : nat) : list A :=
  match arr !! i, arr !! j with
  | Some a, Some b => <[j:=a]> (<[i:=b]> arr)
  | _, _ => arr
  end.

(** The loop of [shuffle], counting [i] down to 1. *)
Fixpoint shuffle_from {A} (i : nat) (arr : list A) (rs : Rand)
    : list A * Rand :=
  match i with
  | O => (arr, rs)
  | S i' =>
      let '(r, rs) := random rs in
      let j := Z.to_nat (Qfloor (r * inject_Z (Z.of_nat i + 1))) in
      shuffle_from i' (swap arr i j) rs
  end.

Definition shuffle {A} (items : list A) (rs : Rand) : list A * Rand :=
  shuffle_from (length items - 1) items rs.

Section Host.

#[local] Open Scope Q_scope.

(** [canvas.width], [canvas.height], [ctx.measureText(text).width] under
    the game font, and [Math.pow]. *)
Variables canvas_width canvas_height : Q.
Variable measureText : string → Q.
Variable Math_pow : Q → Q → Q.

Definition topY : Q := 26.
Definition groundY : Q := canvas_height - 42.
Definition sidePadding : Q := 18.

Definition speedToFallSeconds (level : Q) : Q :=
  let minSeconds := 3 in
  let maxSeconds := 10 in
  let t := (level - 1) / 9 in
  let curved := Math_pow t (16 # 10) in
  maxSeconds - (maxSeconds - minSeconds) * curved.

Definition speedToPixelsPerSecond (level : Q) : Q :=
  let seconds := speedToFallSeconds level in
  let distance := groundY - topY in
  distance / seconds.

(** Returns [{ x, width }] and the draws left. *)
Definition chooseSpawnX (text : string) (rs : Rand) : (Q * Q) * Rand :=
  let width := Qmax 40 (measureText text + 16) in
  let minX := sidePadding in
  let maxX := canvas_width - sidePadding - width in
  let '(r, rs) := random rs in
  let x := minX + r * Qmax 1 (maxX - minX) in
  ((x, width), rs).

Definition spawnWord (s : State) (rs : Rand) : bool * State * Rand :=
  if (maxActiveWords s <=? Z.of_nat (length (activeWords s)))%Z
  then (false, s, rs)
  else
    let refill :=
      if (length (pendingWords s) =? 0)%nat then
        if (length (missedWords s) =? 0)%nat then None
        else
          let '(shuffled, rs) := shuffle (missedWords s) rs in
          Some (s |> set_pendingWords shuffled |> set_missedWords [], rs)
      else Some (s, rs) in
    match refill with
    | None => (false, s, rs)
    | Some (s', rs') =>
        match pendingWords s' with
        | [] => (false, s', rs')
        | text :: rest =>
            let s' := s' |> set_pendingWords rest in
            let '((x, width), rs') := chooseSpawnX text rs' in
            let s' := s' |> set_activeWords
              (activeWords s' ++ [Word.mk (nextWordId s') text x topY width]) in
            let s' := s' |> set_nextWordId (nextWordId s' + 1)%Z in
            (true, s', rs')
        end
    end.

(** [while (state.spawnTimer >= 1) { state.spawnTimer -= 1; spawnWord(); }]
    unrolled [fuel] times. *)
Fixpoint spawnLoop (fuel : nat) (s : State) (rs : Rand) : State * Rand :=
  match fuel with
  | O => (s, rs)
  | S fuel' =>
      if Qle_bool 1 (spawnTimer s) then
        let s := s |> set_spawnTimer (spawnTimer s - 1) in
        let '(_, s, rs) := spawnWord s rs in
        spawnLoop fuel' s rs
      else (s, rs)
  end.

(** [word.y += dy] *)
Definition moveDown (dy : Q) (word : Word.t) : Word.t :=
  Word.mk (Word.id word) (Word.text word) (Word.x word)
          (Word.y word + dy) (Word.width word).

(** [word.y >= WORLD.groundY] *)
Definition atGround (word : Word.t) : bool :=
  Qle_bool groundY (Word.y word).

(** One iteration of the fall loop over [state.activeWords]: the word
    moves down; at the ground it is reported missed, otherwise it is
    pushed to [survivors]. *)
Definition fall_step (dy : Q) (acc : list Word.t * State) (word : Word.t)
    : list Word.t * State :=
  let '(survivors, s) := acc in
  let word := moveDown dy word in
  if atGround word
  then (survivors, onWordMissed word s)
  else (survivors ++ [word], s).

Definition updateWorld (dt : Q) (rs : Rand) (s : State) : State :=
  let s := s |> set_spawnTimer (spawnTimer s + dt) in
  let '(s, _) := spawnLoop (Z.to_nat (Qfloor (spawnTimer s))) s rs in
  let speed := speedToPixelsPerSecond (speedLevel s) in
  let '(survivors, s) :=
    fold_left (fall_step (speed * dt)) (activeWords s) ([], s) in
  let s := s |> set_activeWords survivors in
  maybeFinishGame s.

(** The simulation part of [loop(now)]; [dt] is the clamped frame time. *)
Definition loop (dt : Q) (rs : Rand) (s : State) : State :=
  if running s && negb (frozen s) && negb (gameOver s)
  then updateWorld dt rs s
  else s.

(** [startGame] once the wordbook has been fetched: [words] is the fetched
    list, [level] and [acc] the values of the speed and accent controls,
    [maxWords] the result of [parseMaxWordsLimit]. *)
Definition startGame (words : list string) (level : Q) (acc : string)
    (maxWords : Z) (rs : Rand) (s : State) : State :=
  if (length words =? 0)%nat then s
  else
    let s := resetRuntimeState s in
    let s := s |> set_speedLevel level in
    let s := s |> set_accent acc in
    let normalizedWords :=
      List.filter (λ w, negb (String.eqb w EmptyString))
                  (map (λ w, trim (toLowerCase w)) words) in
    let '(selectedWords, rs) :=
      if (0 <? maxWords)%Z then
        let '(shuffled, rs) := shuffle normalizedWords rs in
        (take (Z.to_nat (Z.min maxWords (Z.of_nat (length normalizedWords))))
              shuffled, rs)
      else (normalizedWords, rs) in
    let '(pending, rs) := shuffle selectedWords rs in
    let s := s |> set_pendingWords pending in
    let '(_, s, _) := spawnWord s rs in
    s.

(** ** Runs of the engine *)

(** What the browser can make the engine do: start a game, deliver a key,
    render a frame, settle the promises of a solve sequence, go back to
    the setup panel. *)
Inductive Event :=
| Start (words : list string) (level : Q) (acc : string) (maxWords : Z)
        (rs : Rand)
| KeyDown (key : string)
| Frame (dt : Q) (rs : Rand)
| SolveDone
| Back.

Definition apply (e : Event) (s : State) : State :=
  match e with
  | Start words level acc maxWords rs =>
      startGame words level acc maxWords rs s
  | KeyDown key => keydown key s
  | Frame dt rs => loop dt rs s
  | SolveDone => onWordSolved_resume s
  | Back => goToSetup s
  end.

Definition run (es : list Event) (s : State) : State :=
  fold_left (λ s e, apply e s) es s.

Definition reachable (s : State) : Prop :=
  ∃ p es, s = run es (initial p).

(** ** Vocabulary of the statements about runs *)

(** The claim of the specification about [chooseSpawnX]: the word lies
    inside the playfield. *)
Definition spawn_in_bounds (text : string) (rs : Rand) : Prop :=
  let '((x, width), _) := chooseSpawnX text rs in
  sidePadding <= x ∧ x + width <= canvas_width - sidePadding.

(** The engine simulates a frame only in this phase. *)
Definition simulating (s : State) : bool :=
  running s && negb (frozen s) && negb (gameOver s).

(** The words a frame finds at the ground: those active once the spawn
    loop has run whose new [y] reaches [groundY]. *)
Definition frame_misses (dt : Q) (rs : Rand) (s : State) : list Word.t :=
  let s := s |> set_spawnTimer (spawnTimer s + dt) in
  let '(s, _) := spawnLoop (Z.to_nat (Qfloor (spawnTimer s))) s rs in
  let dy := speedToPixelsPerSecond (speedLevel s) * dt in
  List.filter atGround (map (moveDown dy) (activeWords s)).

(** The scoring events of one engine event. *)
Definition scoring (e : Event) (s : State) : list ScoreEvent :=
  match e with
  | Start words _ _ _ _ => if (length words =? 0)%nat then [] else [Reset]
  | KeyDown key =>
      if simulating s && isLetterKey key then keystroke_events key s
      else []
  | Frame dt rs =>
      if simulating s then map (λ _, Miss) (frame_misses dt rs s) else []
  | SolveDone | Back => []
  end.

(** The scoring events of a run, in order. *)
Fixpoint trace (es : list Event) (s : State) : list ScoreEvent :=
  match es with
  | [] => []
  | e :: es' => scoring e s ++ trace es' (apply e s)
  end.

(** The ids an event hands out: those of the words it appends to
    [activeWords]. *)
Definition assigned (e : Event) (s : State) : list Z :=
  match e with
  | Start words level acc maxWords rs =>
      if (length words =? 0)%nat then []
      else map Word.id (activeWords (startGame words level acc maxWords rs s))
  | Frame dt rs =>
      if simulating s then
        let s1 := s |> set_spawnTimer (spawnTimer s + dt) in
        let '(s2, _) := spawnLoop (Z.to_nat (Qfloor (spawnTimer s1))) s1 rs in
        drop (length (activeWords s)) (map Word.id (activeWords s2))
      else []
  | _ => []
  end.

(** The ids handed out along a run, in order. *)
Fixpoint assigned_ids (es : list Event) (s : State) : list Z :=
  match es with
  | [] => []
  | e :: es' => assigned e s ++ assigned_ids es' (apply e s)
  end.

(** An event other than the start of a game. *)
Definition in_session (e : Event) : Prop :=
  match e with Start _ _ _ _ _ => False | _ => True end.

(** ** Drawing a word *)

(** A call [ctx.fillText(text, x, y)] under a fill style. *)
Record FillText := mkFillText {
  fillStyle : string;
  filled : string;
  fillX : Q;
  fillY : Q;
}.

(** [t.slice(n)] *)
Definition sliceFrom (n : nat) (t : string) : string :=
  String.substring n (String.length t - n) t.

(** [drawWord]: the calls to [fillText] it makes, in order.  A non-empty
    string is truthy. *)
Definition drawWord (word : Word.t) (s : State) : list FillText :=
  let isTarget := bool_decide (targetWordId s = Some (Word.id word)) in
  let typedPrefix := if isTarget then inputBuffer s else EmptyString in
  if negb (String.eqb typedPrefix EmptyString)
     && startsWith typedPrefix (Word.text word)
  then
    let done := typedPrefix in
    let rest := sliceFrom (String.length done) (Word.text word) in
    let doneWidth := measureText done in
    [mkFillText "#1b7f79" done (Word.x word) (Word.y word);
     mkFillText "#1d2d3d" rest (Word.x word + doneWidth) (Word.y word)]
  else
    [mkFillText (if isTarget then "#d95d39" else "#1d2d3d")
                (Word.text word) (Word.x word) (Word.y word)].

(** ** Further vocabulary about runs *)

(** The texts an event solves. *)
Definition solved (e : Event) (s : State) : list string :=
  match e with
  | KeyDown key =>
      if simulating s && isLetterKey key then keystroke_solved key s else []
  | _ => []
  end.

(** The texts solved along a run, in order. *)
Fixpoint solved_texts (es : list Event) (s : State) : list string :=
  match es with
  | [] => []
  | e :: es' => solved e s ++ solved_texts es' (apply e s)
  end.

(** The words [startGame] plays with, before any shuffle. *)
Definition normalizedWords (words : list string) : list string :=
  List.filter (λ w, negb (String.eqb w EmptyString))
              (map (λ w, trim (toLowerCase w)) words).

End Host.

End Game.

Import Game.

(** ** The settings endpoints of the Go server

    The settings file is kept as the bytes it holds: [writeConfig] prints
    a configuration into lines and [parseEnvConfig] scans them.  What the
    operating system does is an input: whether the file exists and can be
    read, whether a write succeeds and what a failed one leaves.  [int] is
    the 64-bit integer of the usual platforms. *)

Module Server.

(** [strings.TrimSpace]: leading and trailing white space is removed,
    where white space is what [unicode.IsSpace] accepts, read from the
    UTF-8 bytes of the string.  [spaceLen l] is the number of bytes of the
    white-space rune [l] starts with, 0 when it starts with none. *)
Definition spaceLen (l : list N) : nat :=
  match l with
  | c :: l1 =>
      if ((9 <=? c) && (c <=? 13) || (c =? 32))%N then 1%nat
      else match l1 with
      | c1 :: l2 =>
          if ((c =? 194) && ((c1 =? 133) || (c1 =? 160)))%N then 2%nat
          else match l2 with
          | c2 :: _ =>
              if ((c =? 225) && (c1 =? 154) && (c2 =? 128)
                  || (c =? 226) && (c1 =? 128)
                     && ((128 <=? c2) && (c2 <=? 138)
                         || (c2 =? 168) || (c2 =? 169) || (c2 =? 175))
                  || (c =? 226) && (c1 =? 129) && (c2 =? 159)
                  || (c =? 227) && (c1 =? 128) && (c2 =? 128))%N
              then 3%nat else 0%nat
          | [] => 0%nat
          end
      | [] => 0%nat
      end
  | [] => 0%nat
  end.

(** The same, for the rune a reversed byte sequence ends with. *)
Definition spaceLenLast (rl : list N) : nat :=
  match rl with
  | c :: l1 =>
      if ((9 <=? c) && (c <=? 13) || (c =? 32))%N then 1%nat
      else match l1 with
      | c1 :: l2 =>
          if spaceLen [c1; c] =? 2 then 2%nat
          else match l2 with
          | c2 :: _ => if spaceLen [c2; c1; c] =? 3 then 3%nat else 0%nat
          | [] => 0%nat
          end
      | [] => 0%nat
      end
  | [] => 0%nat
  end%nat.

Fixpoint trimWith (len : list N → nat) (fuel : nat) (l : list N)
    : list N :=
  match fuel with
  | O => l
  | S fuel' =>
      match len l with
      | O => l
      | k => trimWith len fuel' (drop k l)
      end
  end.

Definition TrimSpace (t : string) : string :=
  let bytes := map N_of_ascii (list_ascii_of_string t) in
  let bytes := trimWith spaceLen (length bytes) bytes in
  let bytes := rev (trimWith spaceLenLast (length bytes) (rev bytes)) in
  string_of_list_ascii (map ascii_of_N bytes).

Module appConfig.
Record t := mk {
  Host : string;
  Port : Z;
  WordbooksDir : string;
  OpenBrowser : bool;
  Accent : string;
  Wordbook : string;
}.
(** The zero value [appConfig{}]. *)
Definition zero : t :=
  mk EmptyString 0 EmptyString false EmptyString EmptyString.
End appConfig.

Module settingsResponse.
Record t := mk {
  Accent : string;
  Wordbook : string;
}.
End settingsResponse.

Record server := mkServer {
  wordbooksDir : string;
  configPath : string;
}.

(** A Go [(value, error)] result. *)
Inductive result (A : Type) :=
| Ok (a : A)
| Err.
Arguments Ok {A} a.
Arguments Err {A}.

(** *** The settings file as text *)

Definition lineFeed : ascii := ascii_of_nat 10.
Definition carriageReturn : ascii := ascii_of_nat 13.

(** [strings.Join] *)
Fixpoint Join (elems : list string) (sep : string) : string :=
  match elems with
  | [] => EmptyString
  | e :: rest =>
      match rest with
      | [] => e
      | _ :: _ => e ++ sep ++ Join rest sep
      end
  end.

(** [fmt.Sprintf] under the verbs [%d] and [%t].  The digits of a number
    that is not negative come out last digit first, in front of those
    already there; an [int] has at most 19 of them. *)
Definition digit (n : Z) : ascii := ascii_of_N (48 + Z.to_N n).

Fixpoint digits (fuel : nat) (n : Z) (acc : string) : string :=
  match fuel with
  | O => acc
  | S fuel' =>
      let acc := String (digit (n mod 10)) acc in
      if n <? 10 then acc else digits fuel' (n / 10) acc
  end.

Definition formatInt (n : Z) : string :=
  if n <? 0 then String "-" (digits 19 (- n) EmptyString)
  else digits 19 n EmptyString.
Definition formatBool (b : bool) : string :=
  if b then "true" else "false".

(** The [content] that [writeConfig] prints for a configuration. *)
Definition content (cfg : appConfig.t) : string :=
  Join ["# words-rain default config";
        "WORDS_RAIN_HOST=" ++ appConfig.Host cfg;
        "WORDS_RAIN_PORT=" ++ formatInt (appConfig.Port cfg);
        "WORDS_RAIN_OPEN_BROWSER=" ++ formatBool (appConfig.OpenBrowser cfg);
        "WORDS_RAIN_WORDBOOKS_DIR=" ++ appConfig.WordbooksDir cfg;
        "WORDS_RAIN_ACCENT=" ++ appConfig.Accent cfg;
        "WORDS_RAIN_WORDBOOK=" ++ appConfig.Wordbook cfg;
        EmptyString]%string
       (String lineFeed EmptyString).
Arguments content : simpl never.

(** The file at [configPath]: missing ([os.Open] fails and [os.IsNotExist]
    holds of the error), not readable (it fails otherwise), or readable
    with the bytes it holds. *)
Inductive ConfigFile :=
| Absent
| Unreadable
| Text (bytes : string).

(** The file that holds what [writeConfig] prints for [cfg]. *)
Definition Holds (cfg : appConfig.t) : ConfigFile := Text (content cfg).

(** What a failed [writeConfig] leaves: the file as it was (the directory
    could not be made or the file not opened), or the first [n] bytes of
    the new content ([os.WriteFile] had truncated the file when the write
    or the close failed). *)
Inductive Failure :=
| Untouched
| Truncated (n : nat).

(** The disk: the configuration file, whether writing it succeeds, and
    what is left when it does not. *)
Record Disk := mkDisk {
  file : ConfigFile;
  writable : bool;
  failure : Failure;
}.

(** The tokens of a [bufio.Scanner] over [t] under its default split
    function, before the carriage return is dropped: the bytes between
    line feeds, with no token after the last line feed. *)
Fixpoint scanLines (t : string) : list string :=
  match t with
  | EmptyString => []
  | String c t' =>
      if Ascii.eqb c lineFeed then EmptyString :: scanLines t'
      else match scanLines t' with
           | [] => [String c EmptyString]
           | line :: lines => String c line :: lines
           end
  end.

(** [dropCR]: a token loses one trailing carriage return. *)
Fixpoint dropCR (t : string) : string :=
  match t with
  | EmptyString => EmptyString
  | String c t' =>
      match t' with
      | EmptyString =>
          if Ascii.eqb c carriageReturn then EmptyString else t
      | String _ _ => String c (dropCR t')
      end
  end.

(** [bufio.MaxScanTokenSize]: a line of this many bytes or more does not
    fit the buffer and ends the scan with [bufio.ErrTooLong]. *)
Definition MaxScanTokenSize : N := 65536.

(** [strings.SplitN(t, sep, 2)] for a separator of one byte, when it
    returns two parts: the text before and after the first separator. *)
Fixpoint SplitN2 (t : string) (sep : ascii) : option (string * string) :=
  match t with
  | EmptyString => None
  | String c t' =>
      if Ascii.eqb c sep then Some (EmptyString, t')
      else match SplitN2 t' sep with
           | Some (before, after) => Some (String c before, after)
           | None => None
           end
  end.

Definition isDigit (c : ascii) : bool :=
  ((48 <=? nat_of_ascii c) && (nat_of_ascii c <=? 57))%nat.

(** The value of a string of decimal digits, read after [acc]. *)
Fixpoint digitsValue (t : string) (acc : Z) : option Z :=
  match t with
  | EmptyString => Some acc
  | String c t' =>
      if isDigit c
      then digitsValue t' (10 * acc + Z.of_nat (nat_of_ascii c - 48))
      else None
  end.

(** [strconv.Atoi] for a 64-bit [int]: an optional sign, then at least one
    decimal digit and nothing else, the value within the range of [int]. *)
Definition Atoi (t : string) : result Z :=
  let '(negative, digits) :=
    match t with
    | String c t' =>
        if Ascii.eqb c "-" then (true, t')
        else if Ascii.eqb c "+" then (false, t')
        else (false, t)
    | EmptyString => (false, t)
    end in
  match digits with
  | EmptyString => Err
  | String _ _ =>
      match digitsValue digits 0 with
      | None => Err
      | Some n =>
          let v := if negative then - n else n in
          if (- 2 ^ 63 <=? v) && (v <? 2 ^ 63) then Ok v else Err
      end
  end.

(** [strconv.ParseBool] *)
Definition ParseBool (t : string) : result bool :=
  if existsb (String.eqb t) ["1"; "t"; "T"; "TRUE"; "true"; "True"]%string
  then Ok true
  else if existsb (String.eqb t)
            ["0"; "f"; "F"; "FALSE"; "false"; "False"]%string
  then Ok false
  else Err.

(** The body of the scanning loop of [parseEnvConfig] on one line. *)
Definition parseLine (cfg : appConfig.t) (text : string)
    : result appConfig.t :=
  let line := TrimSpace text in
  if String.eqb line EmptyString || String.prefix "#" line then Ok cfg
  else match SplitN2 line "=" with
  | None => Err
  | Some (before, after) =>
    let key := TrimSpace before in
    let value := TrimSpace after in
    if String.eqb key "WORDS_RAIN_HOST" then
      Ok (appConfig.mk value (appConfig.Port cfg) (appConfig.WordbooksDir cfg)
            (appConfig.OpenBrowser cfg) (appConfig.Accent cfg)
            (appConfig.Wordbook cfg))
    else if String.eqb key "WORDS_RAIN_PORT" then
      match Atoi value with
      | Err => Err
      | Ok p =>
        Ok (appConfig.mk (appConfig.Host cfg) p (appConfig.WordbooksDir cfg)
              (appConfig.OpenBrowser cfg) (appConfig.Accent cfg)
              (appConfig.Wordbook cfg))
      end
    else if String.eqb key "WORDS_RAIN_WORDBOOKS_DIR" then
      Ok (appConfig.mk (appConfig.Host cfg) (appConfig.Port cfg) value
            (appConfig.OpenBrowser cfg) (appConfig.Accent cfg)
            (appConfig.Wordbook cfg))
    else if String.eqb key "WORDS_RAIN_OPEN_BROWSER" then
      match ParseBool value with
      | Err => Err
      | Ok b =>
        Ok (appConfig.mk (appConfig.Host cfg) (appConfig.Port cfg)
              (appConfig.WordbooksDir cfg) b (appConfig.Accent cfg)
              (appConfig.Wordbook cfg))
      end
    else if String.eqb key "WORDS_RAIN_ACCENT" then
      Ok (appConfig.mk (appConfig.Host cfg) (appConfig.Port cfg)
            (appConfig.WordbooksDir cfg) (appConfig.OpenBrowser cfg) value
            (appConfig.Wordbook cfg))
    else if String.eqb key "WORDS_RAIN_WORDBOOK" then
      Ok (appConfig.mk (appConfig.Host cfg) (appConfig.Port cfg)
            (appConfig.WordbooksDir cfg) (appConfig.OpenBrowser cfg)
            (appConfig.Accent cfg) value)
    else Ok cfg
  end.

(** The scanning loop: line after line, up to the first error. *)
Fixpoint scan (tokens : list string) (cfg : appConfig.t)
    : result appConfig.t :=
  match tokens with
  | [] => Ok cfg
  | token :: rest =>
      if (MaxScanTokenSize <=? N.of_nat (String.length token))%N then Err
      else match parseLine cfg (dropCR token) with
           | Err => Err
           | Ok cfg => scan rest cfg
           end
  end.

(** A Go [error], as far as [loadConfigOptional] looks at it. *)
Inductive error :=
| ErrNotExist
| ErrOther.

Definition parseEnvConfig (d : Disk) : appConfig.t + error :=
  match file d with
  | Absent => inr ErrNotExist
  | Unreadable => inr ErrOther
  | Text bytes =>
      match scan (scanLines bytes) appConfig.zero with
      | Ok cfg => inl cfg
      | Err => inr ErrOther
      end
  end.

Definition loadConfigOptional (d : Disk) : result appConfig.t :=
  match parseEnvConfig d with
  | inl cfg => Ok cfg
  | inr ErrNotExist => Ok appConfig.zero
  | inr ErrOther => Err
  end.

Definition writeConfig (cfg : appConfig.t) (d : Disk) : result unit * Disk :=
  if writable d
  then (Ok tt, mkDisk (Text (content cfg)) (writable d) (failure d))
  else match failure d with
       | Untouched => (Err, d)
       | Truncated n =>
           (Err, mkDisk (Text (String.substring 0 n (content cfg)))
                        (writable d) (failure d))
       end.

(** The request: its method, and what [json.Decode] makes of its body
    ([None] when decoding fails, otherwise the [accent] field read). *)
Record Request := mkRequest {
  Method : string;
  Body : option string;
}.

Inductive Response :=
| HttpError (message : string) (code : Z)
| WriteJSON (v : settingsResponse.t).

Definition StatusBadRequest : Z := 400.
Definition StatusMethodNotAllowed : Z := 405.
Definition StatusInternalServerError : Z := 500.

Definition handleSettingsAccent (s : server) (r : Request) (d : Disk)
    : Response * Disk :=
  if negb (String.eqb (Method r) "PUT")
  then (HttpError "method not allowed" StatusMethodNotAllowed, d)
  else match Body r with
  | None => (HttpError "invalid request body" StatusBadRequest, d)
  | Some reqAccent =>
    let accent := TrimSpace reqAccent in
    if negb (String.eqb accent "en-US") && negb (String.eqb accent "en-GB")
    then (HttpError "invalid accent" StatusBadRequest, d)
    else match loadConfigOptional d with
    | Err => (HttpError "failed to read settings" StatusInternalServerError, d)
    | Ok cfg =>
      let host :=
        if String.eqb (appConfig.Host cfg) EmptyString
        then "127.0.0.1"%string else appConfig.Host cfg in
      let port :=
        if (appConfig.Port cfg =? 0)%Z then 8080 else appConfig.Port cfg in
      let dir :=
        if String.eqb (appConfig.WordbooksDir cfg) EmptyString
        then wordbooksDir s else appConfig.WordbooksDir cfg in
      let openBrowser :=
        if String.eqb host "127.0.0.1" && (port =? 8080)%Z
           && String.eqb dir (wordbooksDir s)
           && String.eqb (appConfig.Accent cfg) EmptyString
           && negb (appConfig.OpenBrowser cfg)
        then true else appConfig.OpenBrowser cfg in
      let cfg :=
        appConfig.mk host port dir openBrowser accent
                     (appConfig.Wordbook cfg) in
      match writeConfig cfg d with
      | (Err, d) =>
          (HttpError "failed to write settings" StatusInternalServerError, d)
      | (Ok _, d) =>
          (WriteJSON (settingsResponse.mk (appConfig.Accent cfg)
                                          (appConfig.Wordbook cfg)), d)
      end
    end
  end.

(** [strings.Contains]: [substr] occurs in [t]. *)
Fixpoint Contains (t substr : string) : bool :=
  String.prefix substr t
  || match t with
     | EmptyString => false
     | String _ t' => Contains t' substr
     end.

(** The one-character string of the backslash. *)
Definition backslash : string := String (ascii_of_nat 92) EmptyString.

(** [handleSettings] only reads the configuration. *)
Definition handleSettings (s : server) (r : Request) (d : Disk) : Response :=
  if negb (String.eqb (Method r) "GET")
  then HttpError "method not allowed" StatusMethodNotAllowed
  else match loadConfigOptional d with
  | Err => HttpError "failed to read settings" StatusInternalServerError
  | Ok cfg =>
    let accent := TrimSpace (appConfig.Accent cfg) in
    let accent :=
      if String.eqb accent EmptyString then "en-US"%string else accent in
    WriteJSON (settingsResponse.mk accent
                                   (TrimSpace (appConfig.Wordbook cfg)))
  end.

(** [handleSettingsWordbook]; here [Body r] is the [wordbook] field that
    [json.Decode] reads from the body. *)
Definition handleSettingsWordbook (s : server) (r : Request) (d : Disk)
    : Response * Disk :=
  if negb (String.eqb (Method r) "PUT")
  then (HttpError "method not allowed" StatusMethodNotAllowed, d)
  else match Body r with
  | None => (HttpError "invalid request body" StatusBadRequest, d)
  | Some reqWordbook =>
    let wordbook := TrimSpace reqWordbook in
    if String.eqb wordbook EmptyString
       || Contains wordbook "/" || Contains wordbook backslash
    then (HttpError "invalid wordbook" StatusBadRequest, d)
    else match loadConfigOptional d with
    | Err => (HttpError "failed to read settings" StatusInternalServerError, d)
    | Ok cfg =>
      let host :=
        if String.eqb (appConfig.Host cfg) EmptyString
        then "127.0.0.1"%string else appConfig.Host cfg in
      let port :=
        if (appConfig.Port cfg =? 0)%Z then 8080 else appConfig.Port cfg in
      let dir :=
        if String.eqb (appConfig.WordbooksDir cfg) EmptyString
        then wordbooksDir s else appConfig.WordbooksDir cfg in
      let openBrowser :=
        if String.eqb host "127.0.0.1" && (port =? 8080)%Z
           && String.eqb dir (wordbooksDir s)
           && String.eqb (appConfig.Accent cfg) EmptyString
           && String.eqb (appConfig.Wordbook cfg) EmptyString
           && negb (appConfig.OpenBrowser cfg)
        then true else appConfig.OpenBrowser cfg in
      let accent :=
        if String.eqb (appConfig.Accent cfg) EmptyString
        then "en-US"%string else appConfig.Accent cfg in
      let cfg := appConfig.mk host port dir openBrowser accent wordbook in
      match writeConfig cfg d with
      | (Err, d) =>
          (HttpError "failed to write settings" StatusInternalServerError, d)
      | (Ok _, d) =>
          (WriteJSON (settingsResponse.mk (appConfig.Accent cfg)
                                          (appConfig.Wordbook cfg)), d)
      end
    end
  end.

End Server.

(** ** A sample host and sample runs

    A 960 by 540 canvas, a font 18 pixels wide per character and a stand-in
    for [Math.pow]; the runs below start a game on two words, let ten
    frames of a tenth of a second pass, and type. *)

Definition demo_width : Q := 960.
Definition demo_height : Q := 540.
Definition demo_measureText (t : string) : Q :=
  inject_Z (18 * Z.of_nat (String.length t)).
Definition demo_pow (t e : Q) : Q := t * t.
Definition demo_page : Page := mkPage 0 0 "Ready" 0 true.

Definition demo_run (es : list Event) : State :=
  run demo_width demo_height demo_measureText demo_pow es (initial demo_page).

Definition demo_start : Event :=
  Start ["cat"; "car"]%string 5 "en-US" 0 [1 # 2; 1 # 4]%Q.
Definition demo_frames : list Event := repeat (Frame (1 # 10) [3 # 4]%Q) 10.

(** One word on screen, one pending. *)
Definition demo_started : State := demo_run [demo_start].
(** Both words on screen, "cat" lower than "car". *)
Definition demo_two_words : State := demo_run (demo_start :: demo_frames).
(** The word "cat" of that state. *)
Definition demo_cat : Word.t :=
  Eval vm_compute in
    default (Word.mk 0 EmptyString 0 0 0) (head (activeWords demo_two_words)).
(** "c" typed: "cat" is the target. *)
Definition demo_typing : State :=
  demo_run (demo_start :: demo_frames ++ [KeyDown "c"]).
(** "cat" typed: the word is solved and the game frozen. *)
Definition demo_frozen_events : list Event :=
  demo_start :: demo_frames ++ [KeyDown "c"; KeyDown "a"; KeyDown "t"].
Definition demo_frozen : State := demo_run demo_frozen_events.
(** Both words solved, one after the other. *)
Definition demo_game : list Event :=
  demo_frozen_events
  ++ [SolveDone; KeyDown "c"; KeyDown "a"; KeyDown "r"; SolveDone].

(** Both words on screen at the same height: the second one is spawned
    in a frame of a full second, before the fall of that frame. *)
Definition demo_tie : State := demo_run [demo_start; Frame 1 [3 # 4]%Q].
(** The first word of that state. *)
Definition demo_tie_cat : Word.t :=
  Eval vm_compute in
    default (Word.mk 0 EmptyString 0 0 0) (head (activeWords demo_tie)).
(** "ca" typed: the next key solves "cat". *)
Definition demo_almost : State :=
  demo_run (demo_start :: demo_frames ++ [KeyDown "c"; KeyDown "a"]).
(** The events of that game after its start, and the state it ends in. *)
Definition demo_session : list Event :=
  demo_frames
  ++ [KeyDown "c"; KeyDown "a"; KeyDown "t"; SolveDone;
      KeyDown "c"; KeyDown "a"; KeyDown "r"; SolveDone].
Definition demo_finished : State := demo_run (demo_start :: demo_session).
(** The word "cat" one more frame down. *)
Definition demo_cat_moved : Word.t :=
  Eval vm_compute in
    default demo_cat
      (head (activeWords
               (updateWorld demo_width demo_height demo_measureText demo_pow
                  (1 # 10) [] demo_two_words))).

(** * Properties *)

(** ** Rationals *)

Lemma Qlt_bool_iff a b : Qlt_bool a b = true <-> (a < b)%Q.
Proof.
  unfold Qlt_bool. rewrite negb_true_iff, <- not_true_iff_false, Qle_bool_iff.
  split; [apply Qnot_le_lt | apply Qlt_not_le].
Qed.

Lemma Qlt_bool_false a b : Qlt_bool a b = false <-> (b <= a)%Q.
Proof.
  unfold Qlt_bool. rewrite negb_false_iff. apply Qle_bool_iff.
Qed.

(** ** Targeting: the word nearest to the ground *)

Lemma chooseTarget_step_skip prefix best a :
  startsWith prefix (Word.text a) = false →
  chooseTarget_step prefix best a = best.
Proof. unfold chooseTarget_step. by intros ->. Qed.

Lemma chooseTarget_step_first prefix a :
  startsWith prefix (Word.text a) = true →
  chooseTarget_step prefix None a = Some a.
Proof. unfold chooseTarget_step. by intros ->. Qed.

Lemma chooseTarget_step_better prefix b a :
  startsWith prefix (Word.text a) = true →
  chooseTarget_step prefix (Some b) a
  = if Qlt_bool (Word.y b) (Word.y a) then Some a else Some b.
Proof. unfold chooseTarget_step. by intros ->. Qed.

Lemma chooseTarget_fold_some prefix l : ∀ b, matching prefix b →
  ∃ r, fold_left (chooseTarget_step prefix) l (Some b) = Some r
    ∧ ((r = b ∧ ∀ w, w ∈ l → matching prefix w → (Word.y w <= Word.y b)%Q)
       ∨ ((Word.y b < Word.y r)%Q ∧ first_lowest prefix l r)).
Proof.
  induction l as [|a l IH]; intros b Hb; simpl.
  - exists b. split; [done|]. left. split; [done|]. intros w Hw. inversion Hw.
  - unfold matching in *.
    destruct (startsWith prefix (Word.text a)) eqn:Ha.
    2: rewrite chooseTarget_step_skip by done.
    + rewrite chooseTarget_step_better by done.
      destruct (Qlt_bool (Word.y b) (Word.y a)) eqn:Hlt.
      * apply Qlt_bool_iff in Hlt.
        destruct (IH a Ha) as (r & Hr & [[-> Hall] | [Hy Hf]]).
        -- exists a. split; [done|]. right. split; [done|].
           exists [], l. repeat split; try done.
           intros w Hw. inversion Hw.
        -- exists r. split; [done|]. right. split; [lra|].
           destruct Hf as (l1 & l2 & -> & Hm & H1 & H2).
           exists (a :: l1), l2. repeat split; try done.
           intros w [->|Hw]%elem_of_cons Hmw; [done | by apply H1].
      * apply Qlt_bool_false in Hlt.
        destruct (IH b Hb) as (r & Hr & [[-> Hall] | [Hy Hf]]).
        -- exists b. split; [done|]. left. split; [done|].
           intros w [->|Hw]%elem_of_cons Hmw; [done | by apply Hall].
        -- exists r. split; [done|]. right. split; [done|].
           destruct Hf as (l1 & l2 & -> & Hm & H1 & H2).
           exists (a :: l1), l2. repeat split; try done.
           intros w [->|Hw]%elem_of_cons Hmw; [lra | by apply H1].
    + destruct (IH b Hb) as (r & Hr & [[-> Hall] | [Hy Hf]]).
      * exists b. split; [done|]. left. split; [done|].
        intros w [->|Hw]%elem_of_cons Hmw; [congruence | by apply Hall].
      * exists r. split; [done|]. right. split; [done|].
        destruct Hf as (l1 & l2 & -> & Hm & H1 & H2).
        exists (a :: l1), l2. repeat split; try done.
        intros w [->|Hw]%elem_of_cons Hmw; [congruence | by apply H1].
Qed.

Lemma chooseTarget_fold_none prefix l :
  (fold_left (chooseTarget_step prefix) l None = None
     ∧ ∀ w, w ∈ l → ¬ matching prefix w)
  ∨ (∃ r, fold_left (chooseTarget_step prefix) l None = Some r
       ∧ first_lowest prefix l r).
Proof.
  induction l as [|a l IH]; simpl.
  - left. split; [done|]. intros w Hw. inversion Hw.
  - unfold matching in *.
    destruct (startsWith prefix (Word.text a)) eqn:Ha.
    2: rewrite chooseTarget_step_skip by done.
    + rewrite chooseTarget_step_first by done. right.
      destruct (chooseTarget_fold_some prefix l a Ha)
        as (r & Hr & [[-> Hall] | [Hy Hf]]).
      * exists a. split; [done|]. exists [], l. repeat split; try done.
        intros w Hw. inversion Hw.
      * exists r. split; [done|].
        destruct Hf as (l1 & l2 & -> & Hm & H1 & H2).
        exists (a :: l1), l2. repeat split; try done.
        intros w [->|Hw]%elem_of_cons Hmw; [done | by apply H1].
    + destruct IH as [[Hn Hall] | (r & Hr & Hf)].
      * left. split; [done|].
        intros w [->|Hw]%elem_of_cons; [congruence | by apply Hall].
      * right. exists r. split; [done|].
        destruct Hf as (l1 & l2 & -> & Hm & H1 & H2).
        exists (a :: l1), l2. repeat split; try done.
        intros w [->|Hw]%elem_of_cons Hmw; [congruence | by apply H1].
Qed.

Lemma chooseTarget_Some prefix s b :
  chooseTarget prefix s = Some b → first_lowest prefix (activeWords s) b.
Proof.
  unfold chooseTarget. intros H.
  destruct (chooseTarget_fold_none prefix (activeWords s))
    as [[Hn _] | (r & Hr & Hf)]; congruence.
Qed.

Lemma chooseTarget_None prefix s :
  chooseTarget prefix s = None →
  ∀ w, w ∈ activeWords s → ¬ matching prefix w.
Proof.
  unfold chooseTarget. intros H.
  destruct (chooseTarget_fold_none prefix (activeWords s))
    as [[_ Hall] | (r & Hr & _)]; [done | congruence].
Qed.

Lemma first_lowest_elem prefix l b :
  first_lowest prefix l b → b ∈ l ∧ matching prefix b.
Proof.
  intros (l1 & l2 & -> & Hm & _). split; [|done].
  apply elem_of_app. right. apply elem_of_cons. by left.
Qed.

Lemma first_lowest_max prefix l b w :
  first_lowest prefix l b → w ∈ l → matching prefix w →
  (Word.y w <= Word.y b)%Q.
Proof.
  intros (l1 & l2 & -> & Hm & H1 & H2) Hw Hmw.
  apply elem_of_app in Hw as [Hw | [-> | Hw]%elem_of_cons].
  - apply Qlt_le_weak. by apply H1.
  - apply Qle_refl.
  - by apply H2.
Qed.

(** C1.  Whenever some active word starts with the prefix, [chooseTarget]
    returns an active word that starts with the prefix and whose [y] no
    other matching active word exceeds: the match nearest to the ground. *)
Theorem chooseTarget_nearest_to_ground (s : State) (prefix : string) :
  (∃ w, w ∈ activeWords s ∧ matching prefix w) →
  ∃ b, chooseTarget prefix s = Some b
    ∧ b ∈ activeWords s
    ∧ matching prefix b
    ∧ ∀ w, w ∈ activeWords s → matching prefix w →
        (Word.y w <= Word.y b)%Q.
Proof.
  intros (w0 & Hw0 & Hm0).
  destruct (chooseTarget prefix s) as [b|] eqn:Hc.
  - apply chooseTarget_Some in Hc. exists b. split; [done|].
    destruct (first_lowest_elem _ _ _ Hc) as [Hin Hm].
    repeat split; try done.
    intros w Hw Hmw. by eapply first_lowest_max.
  - exfalso. by eapply chooseTarget_None.
Qed.

(** ** Completion *)

Lemma maybeFinishGame_empty s :
  pools_empty s →
  maybeFinishGame s
  = s |> set_running false |> set_gameOver true |> set_statusEl "Complete"
      |> set_finalScoreEl (score s) |> set_resultBoxHidden false.
Proof.
  intros (Hp & Ha & Hm). unfold maybeFinishGame.
  by rewrite Hp, Ha, Hm.
Qed.

Lemma maybeFinishGame_nonempty s :
  ¬ pools_empty s → maybeFinishGame s = s.
Proof.
  intros Hne. unfold maybeFinishGame, pools_empty in *.
  destruct (pendingWords s), (activeWords s), (missedWords s);
    simpl; try done.
  by destruct Hne.
Qed.

Lemma pools_empty_dec s : pools_empty s ∨ ¬ pools_empty s.
Proof.
  unfold pools_empty.
  destruct (pendingWords s), (activeWords s), (missedWords s);
    try (by left); right; intros (? & ? & ?); done.
Qed.

(** C5.  The completion check ends the game exactly when the three pools
    are empty: then [running] becomes false, [gameOver] true and the final
    score shows the score; with a non-empty pool the state is left as it
    is.  It never touches [score], [combo] or the pools, and a second call
    changes nothing more. *)
Theorem maybeFinishGame_completion (s : State) :
  (pools_empty s →
     running (maybeFinishGame s) = false
     ∧ gameOver (maybeFinishGame s) = true
     ∧ finalScoreEl (page (maybeFinishGame s)) = score s)
  ∧ (¬ pools_empty s → maybeFinishGame s = s)
  ∧ score (maybeFinishGame s) = score s
  ∧ combo (maybeFinishGame s) = combo s
  ∧ pendingWords (maybeFinishGame s) = pendingWords s
  ∧ activeWords (maybeFinishGame s) = activeWords s
  ∧ missedWords (maybeFinishGame s) = missedWords s
  ∧ maybeFinishGame (maybeFinishGame s) = maybeFinishGame s.
Proof.
  destruct (pools_empty_dec s) as [He | Hne].
  - pose proof (maybeFinishGame_empty s He) as Heq.
    assert (pools_empty (maybeFinishGame s)) as He'
      by (rewrite Heq; exact He).
    split; [intros _; by rewrite Heq|].
    split; [intros Hn; by destruct Hn|].
    repeat (split; [by rewrite Heq|]).
    rewrite (maybeFinishGame_empty _ He'). by rewrite Heq.
  - pose proof (maybeFinishGame_nonempty s Hne) as Heq.
    split; [intros He; by destruct Hne|].
    split; [done|].
    repeat (split; [by rewrite Heq|]).
    by rewrite !Heq.
Qed.

(** ** The accent endpoint *)

(** C9.  A PUT whose body decodes to an accent that trims to neither
    "en-US" nor "en-GB" is answered 400 and the disk is untouched, and so
    is a body that does not decode.  A body whose accent trims to one of
    the two is never answered 400; when the settings file can be read and
    written the new configuration is stored with that accent, the stored
    wordbook is kept, and the response carries the stored accent and
    wordbook.  When the file cannot be read or written the answer is 500;
    the disk is untouched when the file cannot be read, and after a failed
    write the file is as it was or holds the first bytes of the new
    configuration. *)
Theorem handleSettingsAccent_accepts_two_accents
    (srv : Server.server) (d : Server.Disk) (body : option string) :
  let r := Server.mkRequest "PUT" body in
  let resp := fst (Server.handleSettingsAccent srv r d) in
  let d' := snd (Server.handleSettingsAccent srv r d) in
  (body = None →
     resp = Server.HttpError "invalid request body" 400 ∧ d' = d)
  ∧ (∀ a, body = Some a →
       Server.TrimSpace a ≠ "en-US"%string →
       Server.TrimSpace a ≠ "en-GB"%string →
       resp = Server.HttpError "invalid accent" 400 ∧ d' = d)
  ∧ (∀ a, body = Some a →
       Server.TrimSpace a = "en-US"%string
       ∨ Server.TrimSpace a = "en-GB"%string →
       (∀ msg, resp ≠ Server.HttpError msg 400)
       ∧ (Server.loadConfigOptional d = Server.Err
          ∨ Server.writable d = false →
          ∃ msg, resp = Server.HttpError msg 500)
       ∧ (Server.loadConfigOptional d = Server.Err → d' = d)
       ∧ (Server.writable d = false →
          d' = d
          ∨ ∃ cfg n,
              Server.failure d = Server.Truncated n
              ∧ Server.appConfig.Accent cfg = Server.TrimSpace a
              ∧ Server.file d'
                = Server.Text (String.substring 0 n (Server.content cfg)))
       ∧ (∀ old, Server.loadConfigOptional d = Server.Ok old →
            Server.writable d = true →
            ∃ cfg, Server.file d' = Server.Holds cfg
              ∧ Server.appConfig.Accent cfg = Server.TrimSpace a
              ∧ Server.appConfig.Wordbook cfg = Server.appConfig.Wordbook old
              ∧ resp = Server.WriteJSON
                         (Server.settingsResponse.mk
                            (Server.TrimSpace a)
                            (Server.appConfig.Wordbook cfg)))).
Proof.
  cbv zeta. unfold Server.handleSettingsAccent. simpl.
  split; [by intros ->|].
  split.
  - intros a -> H1 H2. simpl.
    apply String.eqb_neq in H1, H2. by rewrite H1, H2.
  - intros a -> Ha.
    assert (negb (Server.TrimSpace a =? "en-US")%string
            && negb (Server.TrimSpace a =? "en-GB")%string = false) as Hv.
    { destruct Ha as [-> | ->]; reflexivity. }
    rewrite Hv. split_and!.
    + intros msg.
      destruct (Server.loadConfigOptional d) as [old|]; [|done].
      unfold Server.writeConfig.
      destruct (Server.writable d); [done|].
      by destruct (Server.failure d).
    + intros [-> | Hw]; [by eauto|].
      destruct (Server.loadConfigOptional d) as [old|]; [|by eauto].
      unfold Server.writeConfig. rewrite Hw.
      destruct (Server.failure d); by eauto.
    + by intros ->.
    + intros Hw.
      destruct (Server.loadConfigOptional d) as [old|]; [|by left].
      unfold Server.writeConfig. rewrite Hw.
      destruct (Server.failure d) as [|n] eqn:Hf; [by left|].
      right. eexists _, n. split; [done|].
      split; [|reflexivity]. done.
    + intros old -> Hw. unfold Server.writeConfig. rewrite Hw.
      cbn [fst snd Server.file].
      eexists. split; [reflexivity|]. by simpl.
Qed.

Example accent_trimmed_and_stored :
  Server.handleSettingsAccent (Server.mkServer "/books" "/home/config.env")
    (Server.mkRequest "PUT" (Some "  en-GB "%string))
    (Server.mkDisk Server.Absent true Server.Untouched)
  = (Server.WriteJSON (Server.settingsResponse.mk "en-GB" EmptyString),
     Server.mkDisk
       (Server.Holds
          (Server.appConfig.mk "127.0.0.1" 8080 "/books" true "en-GB"
             EmptyString))
       true Server.Untouched).
Proof. vm_compute. reflexivity. Qed.

Example accent_other_case_rejected :
  Server.handleSettingsAccent (Server.mkServer "/books" "/home/config.env")
    (Server.mkRequest "PUT" (Some "en-us"%string))
    (Server.mkDisk Server.Absent true Server.Untouched)
  = (Server.HttpError "invalid accent" 400,
     Server.mkDisk Server.Absent true Server.Untouched).
Proof. vm_compute. reflexivity. Qed.

(** The lines of the file that a stored configuration makes. *)
Example settings_file_lines :
  Server.scanLines
    (Server.content
       (Server.appConfig.mk "127.0.0.1" 8080 "/books" true "en-GB"
          EmptyString))
  = ["# words-rain default config"; "WORDS_RAIN_HOST=127.0.0.1";
     "WORDS_RAIN_PORT=8080"; "WORDS_RAIN_OPEN_BROWSER=true";
     "WORDS_RAIN_WORDBOOKS_DIR=/books"; "WORDS_RAIN_ACCENT=en-GB";
     "WORDS_RAIN_WORDBOOK="]%string.
Proof. vm_compute. reflexivity. Qed.

(** That file reads back as the configuration it was written from. *)
Example settings_file_read_back :
  Server.loadConfigOptional
    (Server.mkDisk
       (Server.Holds
          (Server.appConfig.mk "127.0.0.1" 8080 "/books" true "en-GB"
             EmptyString))
       true Server.Untouched)
  = Server.Ok
      (Server.appConfig.mk "127.0.0.1" 8080 "/books" true "en-GB"
         EmptyString).
Proof. vm_compute. reflexivity. Qed.

(** A line that is no assignment, or a port that is no number, makes the
    file unreadable as a configuration. *)
Example settings_file_rejected :
  Server.loadConfigOptional
    (Server.mkDisk (Server.Text "WORDS_RAIN_PORT=80a") true Server.Untouched)
  = Server.Err
  ∧ Server.loadConfigOptional
      (Server.mkDisk (Server.Text "en-GB") true Server.Untouched)
    = Server.Err.
Proof. split; vm_compute; reflexivity. Qed.

(** A no-break space (bytes 194 160) is white space for [TrimSpace]. *)
Example TrimSpace_no_break_space :
  Server.TrimSpace
    (String (ascii_of_nat 194) (String (ascii_of_nat 160) "en-US"))
  = "en-US"%string.
Proof. vm_compute. reflexivity. Qed.

(** ** Shuffling *)

Lemma swap_length {A} (arr : list A) i j : length (swap arr i j) = length arr.
Proof.
  unfold swap. destruct (arr !! i), (arr !! j); try done.
  by rewrite !length_insert.
Qed.

Lemma swap_Permutation {A} (arr : list A) i j : swap arr i j ≡ₚ arr.
Proof.
  unfold swap. destruct (arr !! i) eqn:Hi, (arr !! j) eqn:Hj; try done.
  by apply Permutation_insert_swap.
Qed.

Lemma shuffle_from_Permutation {A} i : ∀ (arr : list A) rs,
  (shuffle_from i arr rs).1 ≡ₚ arr.
Proof.
  induction i as [|i IH]; intros arr rs; simpl; [done|].
  destruct (random rs) as [r rs']. rewrite IH. apply swap_Permutation.
Qed.

Lemma shuffle_Permutation {A} (items : list A) rs :
  (shuffle items rs).1 ≡ₚ items.
Proof. apply shuffle_from_Permutation. Qed.

(** Draws in [0, 1) keep the index [j] of the swap at or below [i], so that
    both indices lie inside the array, as the script assumes. *)
Lemma shuffle_index_in_range (r : Q) (i : nat) :
  (0 <= r)%Q → (r < 1)%Q →
  (Z.to_nat (Qfloor (r * inject_Z (Z.of_nat i + 1))) <= i)%nat.
Proof.
  intros H0 H1.
  assert (Qfloor (r * inject_Z (Z.of_nat i + 1)) < Z.of_nat i + 1)%Z; [|lia].
  rewrite Zlt_Qlt. eapply Qle_lt_trans; [apply Qfloor_le|].
  assert (0 < inject_Z (Z.of_nat i + 1))%Q as Hk.
  { change 0%Q with (inject_Z 0). rewrite <- Zlt_Qlt. lia. }
  nra.
Qed.

Lemma shuffle_length {A} (items : list A) rs :
  length (shuffle items rs).1 = length items.
Proof. apply Permutation_length, shuffle_Permutation. Qed.

(** ** Facts that depend on the host *)

Section HostProperties.

Variables canvas_width canvas_height : Q.
Variable measureText : string → Q.
Variable Math_pow : Q → Q → Q.

#[local] Abbreviation chooseSpawnX := (chooseSpawnX canvas_width measureText).
#[local] Abbreviation spawnWord := (spawnWord canvas_width measureText).
#[local] Abbreviation spawnLoop := (spawnLoop canvas_width measureText).
#[local] Abbreviation fall_step := (fall_step canvas_height).
#[local] Abbreviation updateWorld :=
  (updateWorld canvas_width canvas_height measureText Math_pow).
#[local] Abbreviation loop :=
  (loop canvas_width canvas_height measureText Math_pow).
#[local] Abbreviation startGame := (startGame canvas_width measureText).
#[local] Abbreviation apply :=
  (apply canvas_width canvas_height measureText Math_pow).
#[local] Abbreviation run :=
  (run canvas_width canvas_height measureText Math_pow).
#[local] Abbreviation reachable :=
  (reachable canvas_width canvas_height measureText Math_pow).
#[local] Abbreviation frame_misses :=
  (frame_misses canvas_width canvas_height measureText Math_pow).
#[local] Abbreviation scoring :=
  (scoring canvas_width canvas_height measureText Math_pow).
#[local] Abbreviation trace :=
  (trace canvas_width canvas_height measureText Math_pow).
#[local] Abbreviation assigned := (assigned canvas_width measureText).
#[local] Abbreviation assigned_ids :=
  (assigned_ids canvas_width canvas_height measureText Math_pow).

(** *** Spawn position *)



(** *** Spawning *)

(** The three ways [spawnWord] can end. *)
Lemma spawnWord_cases s rs :
  (spawnWord s rs = (false, s, rs)
   ∧ ((maxActiveWords s <= Z.of_nat (length (activeWords s)))%Z
      ∨ (pendingWords s = [] ∧ missedWords s = [])))
  ∨ ((Z.of_nat (length (activeWords s)) < maxActiveWords s)%Z
     ∧ ∃ queue missed' rs1 text rest,
         ((pendingWords s = [] ∧ missedWords s ≠ []
           ∧ (queue, rs1) = shuffle (missedWords s) rs ∧ missed' = [])
          ∨ (pendingWords s ≠ [] ∧ queue = pendingWords s ∧ rs1 = rs
             ∧ missed' = missedWords s))
         ∧ queue = text :: rest
         ∧ spawnWord s rs
           = (true,
              s |> set_pendingWords rest |> set_missedWords missed'
                |> set_activeWords
                     (activeWords s
                      ++ [Word.mk (nextWordId s) text
                            (chooseSpawnX text rs1).1.1 topY
                            (chooseSpawnX text rs1).1.2])
                |> set_nextWordId (nextWordId s + 1)%Z,
              (chooseSpawnX text rs1).2)).
Proof.
  unfold Game.spawnWord.
  destruct (maxActiveWords s <=? Z.of_nat (length (activeWords s)))%Z eqn:Hcap.
  { left. split; [done|]. left. lia. }
  destruct (pendingWords s) as [|text rest] eqn:Hp; simpl.
  - destruct (missedWords s) as [|m ms] eqn:Hm; simpl.
    { left. split; [done|]. by right. }
    right. split; [lia|].
    pose proof (shuffle_length (m :: ms) rs) as Hlen.
    destruct (shuffle (m :: ms) rs) as [queue rs1] eqn:Hs. simpl in *.
    destruct queue as [|text rest]; [done|].
    exists (text :: rest), [], rs1, text, rest.
    split; [by left|]. split; [done|].
    destruct (Game.chooseSpawnX canvas_width measureText text rs1)
      as [[x width] rs2]. simpl. reflexivity.
  - right. split; [lia|].
    exists (text :: rest), (missedWords s), rs, text, rest.
    split; [by right|]. split; [done|].
    simpl. rewrite Hp.
    destruct (Game.chooseSpawnX canvas_width measureText text rs)
      as [[x width] rs2]. reflexivity.
Qed.


Lemma spawned_refl s s' :
  activeWords s' = activeWords s → nextWordId s' = nextWordId s →
  running s' = running s → frozen s' = frozen s → gameOver s' = gameOver s →
  score s' = score s → combo s' = combo s →
  inputBuffer s' = inputBuffer s → targetWordId s' = targetWordId s →
  speedLevel s' = speedLevel s → maxActiveWords s' = maxActiveWords s →
  spawned s s' [].
Proof.
  intros. unfold spawned. rewrite app_nil_r. simpl.
  repeat split; try done. lia.
Qed.

Lemma spawned_trans s s1 s2 n1 n2 :
  spawned s s1 n1 → spawned s1 s2 n2 → spawned s s2 (n1 ++ n2).
Proof.
  unfold spawned.
  intros (Ha & Hi & Hn & Hr & Hf & Hg & Hsc & Hc & Hb & Ht & Hl & Hm)
         (Ha' & Hi' & Hn' & Hr' & Hf' & Hg' & Hsc' & Hc' & Hb' & Ht' & Hl' & Hm').
  rewrite Ha', Ha, app_assoc. split; [done|].
  rewrite map_app, Hi, Hi', Hn, length_app, Nat2Z.inj_add.
  rewrite seqZ_app by lia.
  repeat split; try congruence. lia.
Qed.

Lemma spawnWord_spawned s rs :
  ∃ news, spawned s (spawnWord s rs).1.2 news.
Proof.
  destruct (spawnWord_cases s rs)
    as [[-> _] | (_ & queue & missed' & rs1 & text & rest & _ & _ & ->)].
  - exists []. by apply spawned_refl.
  - eexists [_]. unfold spawned. simpl. repeat split; done.
Qed.

Lemma spawnLoop_spawned fuel : ∀ s rs,
  ∃ news, spawned s (spawnLoop fuel s rs).1 news.
Proof.
  induction fuel as [|fuel IH]; intros s rs; simpl.
  - exists []. by apply spawned_refl.
  - destruct (Qle_bool 1 (spawnTimer s)).
    + destruct (spawnWord_spawned (set_spawnTimer (spawnTimer s - 1) s) rs)
        as [n1 H1].
      destruct (spawnWord (set_spawnTimer (spawnTimer s - 1) s) rs)
        as [[ok s1] rs1]. simpl in H1.
      destruct (IH s1 rs1) as [n2 H2].
      exists (n1 ++ n2). eapply spawned_trans; [|exact H2].
      eapply (spawned_trans _ _ _ []); [|exact H1].
      by apply spawned_refl.
    + exists []. by apply spawned_refl.
Qed.

Lemma spawnWord_spawnTimer s rs :
  spawnTimer (spawnWord s rs).1.2 = spawnTimer s.
Proof.
  by destruct (spawnWord_cases s rs)
    as [[-> _] | (_ & queue & missed' & rs1 & text & rest & _ & _ & ->)].
Qed.

(** The spawn loop stops by itself: with enough fuel it ends with the timer
    below 1, as the [while] of the script does. *)
Lemma spawnLoop_exits fuel : ∀ s rs,
  (spawnTimer s < inject_Z (Z.of_nat fuel) + 1)%Q →
  (spawnTimer (spawnLoop fuel s rs).1 < 1)%Q.
Proof.
  induction fuel as [|fuel IH]; intros s rs Hlt.
  - change (inject_Z (Z.of_nat 0)) with 0%Q in Hlt. simpl. lra.
  - cbn [Game.spawnLoop].
    destruct (Qle_bool 1 (spawnTimer s)) eqn:Hge.
    + pose proof (spawnWord_spawnTimer
                    (set_spawnTimer (spawnTimer s - 1) s) rs) as Ht.
      destruct (spawnWord (set_spawnTimer (spawnTimer s - 1) s) rs)
        as [[ok s1] rs1]. simpl in Ht.
      apply IH. rewrite Ht.
      rewrite Nat2Z.inj_succ, <- Z.add_1_r, inject_Z_plus in Hlt.
      change (inject_Z 1) with 1%Q in Hlt. simpl. lra.
    + apply not_true_iff_false in Hge. rewrite Qle_bool_iff in Hge.
      simpl. lra.
Qed.

(** The fuel [updateWorld] passes is enough. *)
Lemma spawnLoop_fuel (t : Q) :
  (t < inject_Z (Z.of_nat (Z.to_nat (Qfloor t))) + 1)%Q.
Proof.
  pose proof (Qlt_floor t) as H. rewrite inject_Z_plus in H.
  change (inject_Z 1) with 1%Q in H.
  destruct (Z.le_gt_cases 0 (Qfloor t)) as [Hnn | Hneg].
  - rewrite Z2Nat.id by done. exact H.
  - replace (Z.to_nat (Qfloor t)) with 0%nat by lia.
    change (inject_Z (Z.of_nat 0)) with 0%Q.
    assert (inject_Z (Qfloor t) <= -1)%Q.
    { change (-1)%Q with (inject_Z (-1)). rewrite <- Zle_Qle. lia. }
    lra.
Qed.


(** *** Misses and the fall loop *)

Lemma onWordMissed_hit w s :
  targetWordId s = Some (Word.id w) →
  onWordMissed w s
  = s |> set_missedWords (missedWords s ++ [Word.text w]) |> set_combo 0
      |> updateHUD |> clearInputTracking.
Proof.
  intros H. unfold onWordMissed. simpl. by rewrite bool_decide_eq_true_2.
Qed.

Lemma onWordMissed_other w s :
  targetWordId s ≠ Some (Word.id w) →
  onWordMissed w s
  = s |> set_missedWords (missedWords s ++ [Word.text w]) |> set_combo 0
      |> updateHUD.
Proof.
  intros H. unfold onWordMissed. simpl. by rewrite bool_decide_eq_false_2.
Qed.

(** What a sequence of misses leaves of the state. *)
Lemma misses_fields ws : ∀ s,
  let s' := fold_left (λ s w, onWordMissed w s) ws s in
  running s' = running s ∧ frozen s' = frozen s ∧ gameOver s' = gameOver s
  ∧ score s' = score s ∧ activeWords s' = activeWords s
  ∧ pendingWords s' = pendingWords s ∧ nextWordId s' = nextWordId s
  ∧ missedWords s' = missedWords s ++ map Word.text ws
  ∧ combo s' = match ws with [] => combo s | _ => 0 end
  ∧ ((∃ w, w ∈ ws ∧ targetWordId s = Some (Word.id w)) →
     targetWordId s' = None ∧ inputBuffer s' = EmptyString)
  ∧ ((∀ w, w ∈ ws → targetWordId s ≠ Some (Word.id w)) →
     targetWordId s' = targetWordId s ∧ inputBuffer s' = inputBuffer s).
Proof.
  induction ws as [|w ws IH]; intros s; simpl.
  - rewrite app_nil_r. split_and!; try done.
    intros (w & Hw & _). inversion Hw.
  - specialize (IH (onWordMissed w s)). simpl in IH.
    destruct IH as (Hr & Hf & Hg & Hsc & Ha & Hp & Hn & Hm & Hc & Hhit & Hoth).
    destruct (decide (targetWordId s = Some (Word.id w))) as [Heq | Hne].
    + rewrite (onWordMissed_hit _ _ Heq) in *. simpl in *.
      destruct (Hoth ltac:(done)) as [Ht Hb].
      rewrite Hr, Hf, Hg, Hsc, Ha, Hp, Hn, Hm, Ht, Hb, <- app_assoc.
      split_and!; try done.
      * rewrite Hc. by destruct ws.
      * intros Hall. exfalso. eapply Hall; [|done]. by left.
    + rewrite (onWordMissed_other _ _ Hne) in *. simpl in *.
      rewrite Hr, Hf, Hg, Hsc, Ha, Hp, Hn, Hm, <- app_assoc.
      split_and!; try done.
      * rewrite Hc. by destruct ws.
      * intros (w' & [-> | Hw']%elem_of_cons & Hw's); [done|].
        apply Hhit. by exists w'.
      * intros Hall. apply Hoth. intros w' Hw'. apply Hall. by right.
Qed.

(** The fall loop in closed form: the survivors are the moved words that
    stay above the ground, the others are reported missed in order. *)
Lemma fall_fold dy l : ∀ survivors s,
  fold_left (fall_step dy) l (survivors, s)
  = (survivors
       ++ List.filter (λ w, negb (atGround canvas_height w))
                      (map (moveDown dy) l),
     fold_left (λ s w, onWordMissed w s)
       (List.filter (atGround canvas_height) (map (moveDown dy) l)) s).
Proof.
  induction l as [|w l IH]; intros survivors s; simpl.
  - by rewrite app_nil_r.
  - destruct (atGround canvas_height (moveDown dy w)); simpl.
    + by rewrite IH.
    + by rewrite IH, <- app_assoc.
Qed.


(** *** Lists of words *)

Lemma StronglySorted_sublist {A} (R : relation A) (l1 l2 : list A) :
  l1 `sublist_of` l2 → StronglySorted R l2 → StronglySorted R l1.
Proof.
  induction 1 as [|x l1 l2 Hs IH|x l1 l2 Hs IH]; intros Hl2; [done|..].
  - apply StronglySorted_cons in Hl2 as [Hx Hl2].
    apply StronglySorted_cons. split; [|by apply IH].
    apply Forall_forall. intros y Hy.
    eapply Forall_forall in Hx; [done|]. by eapply elem_of_sublist.
  - apply StronglySorted_cons in Hl2 as [_ Hl2]. by apply IH.
Qed.

Lemma list_filter_sublist {A} (f : A → bool) (l : list A) :
  List.filter f l `sublist_of` l.
Proof.
  induction l as [|x l IH]; simpl; [done|].
  destruct (f x); by constructor.
Qed.

Lemma list_filter_elem_of {A} (f : A → bool) (l : list A) x :
  x ∈ List.filter f l ↔ x ∈ l ∧ f x = true.
Proof. by rewrite !list_elem_of_In, filter_In. Qed.

Lemma map_id_moveDown dy l :
  map Word.id (map (moveDown dy) l) = map Word.id l.
Proof. induction l; simpl; by f_equal. Qed.

Lemma has_id_sublist i l1 l2 :
  l1 `sublist_of` l2 → has_id i l1 → has_id i l2.
Proof.
  intros Hs (w & Hw & Hi). exists w. split; [|done].
  by eapply elem_of_sublist.
Qed.

(** *** Keystrokes *)

Lemma chooseTarget_activeWords prefix s s' :
  activeWords s' = activeWords s →
  chooseTarget prefix s' = chooseTarget prefix s.
Proof. unfold chooseTarget. by intros ->. Qed.

Lemma chooseTarget_None_iff prefix s :
  chooseTarget prefix s = None
  ↔ existsb (λ w, startsWith prefix (Word.text w)) (activeWords s) = false.
Proof.
  split.
  - intros H. apply not_true_iff_false. intros (w & Hw & Hm)%existsb_exists.
    apply list_elem_of_In in Hw. by eapply chooseTarget_None.
  - intros H. destruct (chooseTarget prefix s) as [b|] eqn:Hc; [|done].
    apply chooseTarget_Some, first_lowest_elem in Hc as [Hb Hm].
    apply not_true_iff_false in H. destruct H. apply existsb_exists.
    exists b. split; [by apply list_elem_of_In | done].
Qed.

Lemma hadInput_nonempty (b : string) :
  (0 <? String.length b)%nat = negb (String.eqb b EmptyString).
Proof. by destruct b. Qed.

Lemma removeActiveWordById_present i s :
  has_id i (activeWords s) →
  ∃ index w, activeWords s !! index = Some w ∧ Word.id w = i
    ∧ (∀ j y, activeWords s !! j = Some y → (j < index)%nat → Word.id y ≠ i)
    ∧ removeActiveWordById i s
      = (Some w, set_activeWords (delete index (activeWords s)) s).
Proof.
  intros (w0 & Hw0 & Hi0). unfold removeActiveWordById.
  destruct (list_find_elem_of (λ w, Word.id w = i) _ w0 Hw0 Hi0)
    as [[index w] Hfind].
  rewrite Hfind. apply list_find_Some in Hfind as (Hl & Hw & Hbefore).
  by exists index, w.
Qed.

(** The keystroke of an accepted character, case by case. *)
Lemma handleTypedCharacter_outcome ch s :
  running s = true → frozen s = false → gameOver s = false →
  let c := toLowerCase ch in
  let s0 := if chain_break c s then s |> set_combo 0 |> updateHUD else s in
  handleTypedCharacter ch s
  = match resolve c s with
    | None => clearInputTracking s0
    | Some (buffer, t) =>
        let s1 := s0 |> set_inputBuffer buffer
                     |> set_targetWordId (Some (Word.id t)) in
        if String.eqb buffer (Word.text t) then
          match removeActiveWordById (Word.id t) s1 with
          | (Some w, s2) => onWordSolved w (clearInputTracking s2)
          | (None, s2) => clearInputTracking s2
          end
        else s1
    end.
Proof.
  intros Hr Hf Hg. unfold handleTypedCharacter, resolve, chain_break.
  rewrite Hr, Hf, Hg. cbn [negb orb].
  rewrite hadInput_nonempty.
  destruct (chooseTarget (inputBuffer s ++ toLowerCase ch) s) as [t|] eqn:Hc.
  - assert (existsb
              (λ w, startsWith (inputBuffer s ++ toLowerCase ch) (Word.text w))
              (activeWords s) = true) as ->.
    { apply not_false_iff_true. rewrite <- chooseTarget_None_iff. congruence. }
    rewrite andb_false_r. cbn zeta. cbn [inputBuffer set_inputBuffer
      set_targetWordId].
    destruct (String.eqb _ (Word.text t)); [|done].
    by destruct (removeActiveWordById _ _) as [[w|] s2].
  - rewrite (proj1 (chooseTarget_None_iff _ _) Hc). rewrite andb_true_r.
    destruct (chooseTarget (toLowerCase ch) s) as [t|] eqn:Hc2; [|done].
    cbn zeta. cbn [inputBuffer set_inputBuffer set_targetWordId].
    destruct (String.eqb _ (Word.text t)); [|done].
    by destruct (removeActiveWordById _ _) as [[w|] s2].
Qed.


(** *** One frame *)

Lemma maybeFinishGame_fields s :
  frozen (maybeFinishGame s) = frozen s
  ∧ score (maybeFinishGame s) = score s
  ∧ combo (maybeFinishGame s) = combo s
  ∧ inputBuffer (maybeFinishGame s) = inputBuffer s
  ∧ targetWordId (maybeFinishGame s) = targetWordId s
  ∧ activeWords (maybeFinishGame s) = activeWords s
  ∧ nextWordId (maybeFinishGame s) = nextWordId s.
Proof.
  destruct (pools_empty_dec s) as [He | Hne].
  - by rewrite (maybeFinishGame_empty s He).
  - by rewrite (maybeFinishGame_nonempty s Hne).
Qed.

Lemma maybeFinishGame_phase_ok s :
  phase_ok s → phase_ok (maybeFinishGame s).
Proof.
  intros H. destruct (pools_empty_dec s) as [He | Hne].
  - rewrite (maybeFinishGame_empty s He). by intros ?.
  - by rewrite (maybeFinishGame_nonempty s Hne).
Qed.

(** [updateWorld] taken apart: the state [s2] after the spawn loop, the
    words [news] it appended, the moved words, the survivors and the
    misses. *)
Lemma updateWorld_unfold dt rs s :
  ∃ s2 news,
    spawned s s2 news
    ∧ frame_misses dt rs s
      = List.filter (atGround canvas_height)
          (map (moveDown (speedToPixelsPerSecond canvas_height Math_pow
                            (speedLevel s2) * dt))
               (activeWords s2))
    ∧ updateWorld dt rs s
      = maybeFinishGame
          (set_activeWords
             (List.filter (λ w, negb (atGround canvas_height w))
                (map (moveDown (speedToPixelsPerSecond canvas_height Math_pow
                                  (speedLevel s2) * dt))
                     (activeWords s2)))
             (fold_left (λ s w, onWordMissed w s)
                (List.filter (atGround canvas_height)
                   (map (moveDown (speedToPixelsPerSecond canvas_height
                                     Math_pow (speedLevel s2) * dt))
                        (activeWords s2)))
                s2)).
Proof.
  unfold Game.updateWorld, Game.frame_misses.
  set (s1 := set_spawnTimer (spawnTimer s + dt) s).
  destruct (spawnLoop_spawned (Z.to_nat (Qfloor (spawnTimer s1))) s1 rs)
    as [news Hnews].
  destruct (spawnLoop (Z.to_nat (Qfloor (spawnTimer s1))) s1 rs)
    as [s2 rs2]. simpl in Hnews.
  exists s2, news. split.
  { eapply (spawned_trans _ _ _ []); [|exact Hnews]. by apply spawned_refl. }
  split; [done|].
  rewrite fall_fold. by rewrite app_nil_l.
Qed.

(** After [updateWorld] the spawn timer is below 1: the loop has run to its
    end. *)
Lemma updateWorld_timer dt rs s :
  (spawnTimer (updateWorld dt rs s) < 1)%Q.
Proof.
  unfold Game.updateWorld.
  set (s1 := set_spawnTimer (spawnTimer s + dt) s).
  pose proof (spawnLoop_exits (Z.to_nat (Qfloor (spawnTimer s1))) s1 rs
                (spawnLoop_fuel _)) as Hexit.
  destruct (spawnLoop (Z.to_nat (Qfloor (spawnTimer s1))) s1 rs)
    as [s2 rs2]. simpl in Hexit.
  rewrite fall_fold.
  match goal with
  | |- context [maybeFinishGame ?a] =>
      assert (spawnTimer (maybeFinishGame a) = spawnTimer s2) as ->; [|done]
  end.
  match goal with
  | |- context [fold_left ?f ?missed s2] =>
      assert (∀ l s', spawnTimer (fold_left f l s') = spawnTimer s') as Hm
  end.
  { induction l as [|w l IH]; intros s'; simpl; [done|].
    rewrite IH. unfold onWordMissed. by case_bool_decide. }
  match goal with
  | |- spawnTimer (maybeFinishGame ?a) = _ =>
      destruct (pools_empty_dec a) as [He | Hne];
      [rewrite (maybeFinishGame_empty a He)
      | rewrite (maybeFinishGame_nonempty a Hne)]
  end; simpl; apply Hm.
Qed.


(** *** Identifiers *)

Lemma StronglySorted_seqZ m (n : nat) :
  StronglySorted Z.lt (seqZ m (Z.of_nat n)).
Proof.
  induction n as [|n IH]; [constructor|].
  rewrite seqZ_S. apply StronglySorted_app_2; [|done|].
  - intros x1 x2 [_ ?]%elem_of_seqZ ->%list_elem_of_singleton. lia.
  - repeat constructor.
Qed.

Lemma ids_ok_sublist s s' :
  ids_ok s → activeWords s' `sublist_of` activeWords s →
  nextWordId s <= nextWordId s' → ids_ok s'.
Proof.
  intros [Hs Hb] Hsub Hn. split.
  - eapply StronglySorted_sublist; [|exact Hs]. by apply fmap_sublist.
  - apply Forall_forall. intros w Hw.
    eapply Forall_forall in Hb; [|by eapply elem_of_sublist]. simpl in Hb. lia.
Qed.

Lemma ids_ok_spawned s s' news :
  ids_ok s → spawned s s' news → ids_ok s'.
Proof.
  intros [Hs Hb] (Ha & Hi & Hn & _). unfold ids_ok.
  rewrite Ha, Hn, map_app, Hi. split.
  - apply StronglySorted_app_2; [|done|apply StronglySorted_seqZ].
    intros x1 x2 (w & -> & Hw)%list_elem_of_fmap [? _]%elem_of_seqZ.
    eapply Forall_forall in Hb; [|done]. simpl in Hb. lia.
  - apply Forall_app. split.
    + eapply Forall_impl; [exact Hb|]. simpl. intros. lia.
    + apply Forall_forall. intros w Hw.
      assert (Word.id w ∈ seqZ (nextWordId s) (Z.of_nat (length news))) as Hin.
      { rewrite <- Hi. by apply list_elem_of_fmap_2. }
      apply elem_of_seqZ in Hin. lia.
Qed.

(** Moving the words down and dropping some keeps the ids in order. *)
Lemma ids_ok_survivors s s' dy (f : Word.t → bool) :
  ids_ok s →
  activeWords s' = List.filter f (map (moveDown dy) (activeWords s)) →
  nextWordId s' = nextWordId s → ids_ok s'.
Proof.
  intros [Hs Hb] Ha Hn. unfold ids_ok. rewrite Ha, Hn. split.
  - eapply StronglySorted_sublist; [|exact Hs].
    rewrite <- (map_id_moveDown dy (activeWords s)).
    apply fmap_sublist, list_filter_sublist.
  - apply Forall_forall.
    intros w [(w0 & -> & Hw0)%list_elem_of_fmap _]%list_filter_elem_of.
    eapply Forall_forall in Hb; [|done]. done.
Qed.

(** In a state with ordered ids, a word is determined by its id. *)
Lemma ids_ok_unique s w1 w2 :
  ids_ok s → w1 ∈ activeWords s → w2 ∈ activeWords s →
  Word.id w1 = Word.id w2 → w1 = w2.
Proof.
  intros [Hs _] H1 H2 Hid.
  induction (activeWords s) as [|a l IH]; [inversion H1|].
  simpl in Hs. apply StronglySorted_cons in Hs as [Ha Hl].
  apply elem_of_cons in H1 as [-> | H1];
    apply elem_of_cons in H2 as [-> | H2]; try done.
  - eapply Forall_forall in Ha; [|by apply list_elem_of_fmap_2]. lia.
  - eapply Forall_forall in Ha; [|by apply list_elem_of_fmap_2]. lia.
  - by apply IH.
Qed.


(** *** What the input handlers leave alone *)

Lemma handleTypedCharacter_ignored ch s :
  running s = false ∨ frozen s = true ∨ gameOver s = true →
  handleTypedCharacter ch s = s.
Proof.
  unfold handleTypedCharacter.
  intros [-> | [-> | ->]]; [done | | ].
  - by rewrite orb_true_r.
  - by rewrite orb_true_r.
Qed.

Lemma handleTypedCharacter_guard ch s :
  handleTypedCharacter ch s = s
  ∨ (running s = true ∧ frozen s = false ∧ gameOver s = false).
Proof.
  destruct (running s) eqn:Hr, (frozen s) eqn:Hf, (gameOver s) eqn:Hg;
    try (by right); left; apply handleTypedCharacter_ignored; auto.
Qed.

Lemma handleTypedCharacter_fields ch s :
  let s' := handleTypedCharacter ch s in
  running s' = running s ∧ gameOver s' = gameOver s
  ∧ nextWordId s' = nextWordId s
  ∧ activeWords s' `sublist_of` activeWords s
  ∧ (frozen_ok s → frozen_ok s')
  ∧ (0 <= combo s → 0 <= combo s' ∧ score s <= score s').
Proof.
  destruct (handleTypedCharacter_guard ch s) as [-> | (Hr & Hf & Hg)].
  { simpl. split_and!; try done; intros; lia. }
  rewrite (handleTypedCharacter_outcome ch s Hr Hf Hg).
  unfold frozen_ok, removeActiveWordById.
  destruct (chain_break _ s), (resolve _ s) as [[b t]|]; cbn zeta;
    try destruct (String.eqb b (Word.text t));
    try destruct (list_find _ _) as [[index removed]|];
    simpl; rewrite ?Hf; split_and!; try done; try lia;
    try apply sublist_delete.
Qed.

Lemma handleControlKey_fields key s :
  let s' := handleControlKey key s in
  running s' = running s ∧ frozen s' = frozen s ∧ gameOver s' = gameOver s
  ∧ score s' = score s ∧ combo s' = combo s
  ∧ activeWords s' = activeWords s ∧ nextWordId s' = nextWordId s.
Proof.
  unfold handleControlKey.
  destruct (String.eqb key "Backspace"); [|destruct (String.eqb key "Escape")];
    simpl; try done.
  destruct (String.length (inputBuffer s) =? 0)%nat; [done|].
  by destruct (String.length (dropLast (inputBuffer s)) =? 0)%nat.
Qed.

Lemma handleControlKey_frozen_ok key s :
  frozen_ok s → frozen_ok (handleControlKey key s).
Proof.
  unfold frozen_ok, handleControlKey. intros H.
  destruct (String.eqb key "Backspace"); [|destruct (String.eqb key "Escape")];
    simpl; try done.
  destruct (String.length (inputBuffer s) =? 0)%nat eqn:Hlen; [done|].
  assert (frozen s = false) as Hf.
  { destruct (frozen s); [|done]. destruct (H eq_refl) as [Hb _].
    by rewrite Hb in Hlen. }
  destruct (String.length (dropLast (inputBuffer s)) =? 0)%nat; simpl;
    by rewrite Hf.
Qed.

Lemma keydown_cases key s :
  keydown key s = s
  ∨ keydown key s = handleTypedCharacter key s
  ∨ keydown key s = handleControlKey key s.
Proof.
  unfold keydown. destruct (running s); simpl; [|by left].
  destruct (isLetterKey key); [by right; left|].
  destruct (_ || _); [by right; right | by left].
Qed.

Lemma well_formed_step s s' :
  ids_ok s → phase_ok s' → frozen_ok s' →
  activeWords s' `sublist_of` activeWords s →
  nextWordId s <= nextWordId s' → 0 <= combo s' → well_formed s'.
Proof.
  intros Hi Hp Hf Hs Hn Hc. split_and!; try done.
  by eapply ids_ok_sublist.
Qed.

Lemma keydown_well_formed key s :
  well_formed s → well_formed (keydown key s).
Proof.
  intros (Hp & Hf & Hi & Hc).
  destruct (keydown_cases key s) as [-> | [-> | ->]]; [done|..].
  - destruct (handleTypedCharacter_fields key s)
      as (Hr' & Hg' & Hn' & Hs' & Hf' & Hc').
    apply (well_formed_step s).
    + done.
    + unfold phase_ok. by rewrite Hr', Hg'.
    + by apply Hf'.
    + done.
    + lia.
    + by apply Hc'.
  - destruct (handleControlKey_fields key s)
      as (Hr' & Hf' & Hg' & Hsc' & Hc' & Ha' & Hn').
    apply (well_formed_step s).
    + done.
    + unfold phase_ok. by rewrite Hr', Hg'.
    + by apply handleControlKey_frozen_ok.
    + by rewrite Ha'.
    + lia.
    + lia.
Qed.


(** *** Every event keeps the state well formed *)

Lemma updateWorld_well_formed dt rs s :
  well_formed s → well_formed (updateWorld dt rs s).
Proof.
  intros (Hp & Hf & Hi & Hc).
  destruct (updateWorld_unfold dt rs s) as (s2 & news & Hsp & _ & ->).
  pose proof (ids_ok_spawned _ _ _ Hi Hsp) as Hi2.
  destruct Hsp as (Ha2 & _ & Hn2 & Hr2 & Hf2 & Hg2 & Hsc2 & Hc2 & Hb2 & Ht2 & _).
  match goal with
  | |- context [fold_left _ ?ws s2] =>
      destruct (misses_fields ws s2)
        as (Hr3 & Hf3 & Hg3 & Hsc3 & Ha3 & Hp3 & Hn3 & Hm3 & Hc3 & Hhit & Hoth);
      set (s3 := fold_left (λ s w, onWordMissed w s) ws s2) in *
  end.
  match goal with
  | |- well_formed (maybeFinishGame ?a) => set (s4 := a)
  end.
  destruct (maybeFinishGame_fields s4) as (Hf5 & Hsc5 & Hc5 & Hb5 & Ht5 & Ha5 & Hn5).
  split_and!.
  - apply maybeFinishGame_phase_ok. unfold phase_ok, s4. simpl.
    rewrite Hr3, Hg3, Hr2, Hg2. exact Hp.
  - unfold frozen_ok. rewrite Hf5, Hb5, Ht5. unfold s4. simpl.
    rewrite Hf3, Hf2. intros Hfz. destruct (Hf Hfz) as [Hb Ht].
    destruct Hoth as [Ht' Hb'].
    { intros w _. rewrite Ht2, Ht. done. }
    by rewrite Ht', Hb', Ht2, Hb2.
  - eapply (ids_ok_survivors s2); [done | by rewrite Ha5 |].
    rewrite Hn5. unfold s4. simpl. exact Hn3.
  - rewrite Hc5. unfold s4. simpl. rewrite Hc3.
    destruct (List.filter _ _); lia.
Qed.

Lemma loop_well_formed dt rs s :
  well_formed s → well_formed (loop dt rs s).
Proof.
  intros H. unfold Game.loop.
  destruct (_ && _); [by apply updateWorld_well_formed | done].
Qed.

Lemma onWordSolved_resume_well_formed s :
  well_formed s → well_formed (onWordSolved_resume s).
Proof.
  intros (Hp & Hf & Hi & Hc). unfold onWordSolved_resume.
  match goal with
  | |- well_formed (maybeFinishGame ?a) =>
      destruct (maybeFinishGame_fields a)
        as (Hf5 & Hsc5 & Hc5 & Hb5 & Ht5 & Ha5 & Hn5)
  end.
  eapply (well_formed_step s).
  - done.
  - by apply maybeFinishGame_phase_ok.
  - unfold frozen_ok. by rewrite Hf5.
  - by rewrite Ha5.
  - rewrite Hn5. simpl. lia.
  - by rewrite Hc5.
Qed.

Lemma goToSetup_well_formed s :
  well_formed s → well_formed (goToSetup s).
Proof.
  intros (Hp & Hf & Hi & Hc). by apply (well_formed_step s).
Qed.

(** [startGame] with a non-empty word list: the reset, the controls, the
    shuffled queue, and one spawn. *)
Lemma startGame_unfold words level acc maxWords rs s :
  words ≠ [] →
  ∃ pending rs',
    startGame words level acc maxWords rs s
    = (spawnWord
         (resetRuntimeState s |> set_speedLevel level |> set_accent acc
            |> set_pendingWords pending) rs').1.2.
Proof.
  intros Hne. unfold Game.startGame.
  destruct words as [|w ws]; [done|]. cbn [length Nat.eqb].
  cbv zeta.
  destruct (if (0 <? maxWords)%Z then _ else _) as [selected rs1].
  destruct (shuffle selected rs1) as [pending rs2].
  exists pending, rs2.
  by destruct (spawnWord _ rs2) as [[ok s'] rs3].
Qed.

Lemma startGame_well_formed words level acc maxWords rs s :
  well_formed s → well_formed (startGame words level acc maxWords rs s).
Proof.
  intros H. destruct words as [|w ws] eqn:Hw; [done|]. rewrite <- Hw.
  destruct (startGame_unfold words level acc maxWords rs s)
    as (pending & rs' & ->); [by rewrite Hw|].
  match goal with
  | |- context [spawnWord ?a rs'] =>
      destruct (spawnWord_spawned a rs') as [news Hsp]; set (s1 := a) in *
  end.
  assert (ids_ok s1) as Hi1.
  { split; [constructor | constructor]. }
  pose proof (ids_ok_spawned _ _ _ Hi1 Hsp) as Hi2.
  destruct Hsp as (Ha2 & _ & Hn2 & Hr2 & Hf2 & Hg2 & Hsc2 & Hc2 & Hb2 & Ht2 & _).
  split_and!.
  - unfold phase_ok. by rewrite Hr2, Hg2.
  - unfold frozen_ok. by rewrite Hf2.
  - done.
  - by rewrite Hc2.
Qed.

Lemma apply_well_formed e s :
  well_formed s → well_formed (apply e s).
Proof.
  destruct e; simpl.
  - apply startGame_well_formed.
  - apply keydown_well_formed.
  - apply loop_well_formed.
  - apply onWordSolved_resume_well_formed.
  - apply goToSetup_well_formed.
Qed.

Lemma run_well_formed es : ∀ s,
  well_formed s → well_formed (run es s).
Proof.
  induction es as [|e es IH]; intros s H; simpl; [done|].
  by apply IH, apply_well_formed.
Qed.

Lemma initial_well_formed p : well_formed (initial p).
Proof.
  split_and!; try done. split; constructor.
Qed.

Lemma reachable_well_formed s : reachable s → well_formed s.
Proof.
  intros (p & es & ->). apply run_well_formed, initial_well_formed.
Qed.


(** *** The target stays valid *)

Lemma target_ok_has_id s i :
  target_ok s → targetWordId s = Some i → has_id i (activeWords s).
Proof. intros H Ht. destruct (H i Ht) as (w & Hw & Hi & _). by exists w. Qed.

Lemma tracking_kept_same s s' :
  target_ok s → activeWords s' = activeWords s → tracking_kept s s'.
Proof.
  intros H Ha i Hi. left. rewrite Ha. by apply target_ok_has_id.
Qed.

Lemma target_ok_chosen s s' prefix t :
  chooseTarget prefix s = Some t →
  activeWords s' = activeWords s → inputBuffer s' = prefix →
  targetWordId s' = Some (Word.id t) → target_ok s'.
Proof.
  intros Hc Ha Hb Ht i Hi.
  apply chooseTarget_Some, first_lowest_elem in Hc as [Hin Hm].
  exists t. rewrite Ha, Hb. split_and!; [done | congruence | done].
Qed.

Lemma target_ok_cleared s : targetWordId s = None → target_ok s.
Proof. intros H i Hi. congruence. Qed.

Lemma resolve_Some c s buffer t :
  resolve c s = Some (buffer, t) → chooseTarget buffer s = Some t.
Proof.
  unfold resolve.
  destruct (chooseTarget (inputBuffer s ++ c) s) eqn:H1; [congruence|].
  destruct (chooseTarget c s) eqn:H2; congruence.
Qed.

Lemma handleTypedCharacter_target ch s :
  target_ok s →
  target_ok (handleTypedCharacter ch s)
  ∧ tracking_kept s (handleTypedCharacter ch s).
Proof.
  intros H.
  destruct (handleTypedCharacter_guard ch s) as [-> | (Hr & Hf & Hg)].
  { split; [done | by apply tracking_kept_same]. }
  rewrite (handleTypedCharacter_outcome ch s Hr Hf Hg).
  set (s0 := if chain_break _ s then _ else s).
  assert (activeWords s0 = activeWords s) as Ha0
    by (unfold s0; by destruct (chain_break _ s)).
  destruct (resolve _ s) as [[b t]|] eqn:Hres.
  - apply resolve_Some in Hres. cbn zeta.
    destruct (String.eqb b (Word.text t)).
    + unfold removeActiveWordById.
      destruct (list_find _ _) as [[index removed]|]; simpl.
      all: split; [by apply target_ok_cleared | intros i Hi; by right].
    + split.
      * by eapply (target_ok_chosen s _ b t).
      * by apply tracking_kept_same.
  - split; [by apply target_ok_cleared | intros i Hi; by right].
Qed.

Lemma handleControlKey_target key s :
  target_ok s →
  target_ok (handleControlKey key s)
  ∧ tracking_kept s (handleControlKey key s).
Proof.
  intros H. split.
  - unfold handleControlKey.
    destruct (String.eqb key "Backspace");
      [|destruct (String.eqb key "Escape")]; try done.
    destruct (String.length (inputBuffer s) =? 0)%nat; [done|]. simpl.
    destruct (String.length (dropLast (inputBuffer s)) =? 0)%nat.
    { by apply target_ok_cleared. }
    match goal with
    | |- context [chooseTarget ?b ?a] =>
        rewrite (chooseTarget_activeWords b s a eq_refl);
        destruct (chooseTarget b s) as [t|] eqn:Hc
    end.
    + by eapply (target_ok_chosen s _ _ t).
    + by apply target_ok_cleared.
  - apply tracking_kept_same; [done|].
    by destruct (handleControlKey_fields key s) as (_ & _ & _ & _ & _ & -> & _).
Qed.

Lemma keydown_target key s :
  target_ok s →
  target_ok (keydown key s) ∧ tracking_kept s (keydown key s).
Proof.
  intros H. destruct (keydown_cases key s) as [-> | [-> | ->]].
  - split; [done | by apply tracking_kept_same].
  - by apply handleTypedCharacter_target.
  - by apply handleControlKey_target.
Qed.

Lemma hit_or_not (l : list Word.t) (target : option Z) :
  (∃ w, w ∈ l ∧ target = Some (Word.id w))
  ∨ (∀ w, w ∈ l → target ≠ Some (Word.id w)).
Proof.
  induction l as [|a l [(w & Hw & Ht) | Hall]].
  - right. intros w Hw. inversion Hw.
  - left. exists w. split; [by right | done].
  - destruct (decide (target = Some (Word.id a))) as [Heq | Hne].
    + left. exists a. split; [by left | done].
    + right. intros w [-> | Hw]%elem_of_cons; [done | by apply Hall].
Qed.

Lemma updateWorld_target dt rs s :
  target_ok s →
  target_ok (updateWorld dt rs s) ∧ tracking_kept s (updateWorld dt rs s).
Proof.
  intros H.
  destruct (updateWorld_unfold dt rs s) as (s2 & news & Hsp & _ & ->).
  destruct Hsp as (Ha2 & _ & Hn2 & Hr2 & Hf2 & Hg2 & Hsc2 & Hc2 & Hb2 & Ht2 & _).
  set (dy := (speedToPixelsPerSecond canvas_height Math_pow (speedLevel s2)
              * dt)%Q).
  destruct (misses_fields
              (List.filter (atGround canvas_height)
                 (map (moveDown dy) (activeWords s2))) s2)
    as (Hr3 & Hf3 & Hg3 & Hsc3 & Ha3 & Hp3 & Hn3 & Hm3 & Hc3 & Hhit & Hoth).
  set (s3 := fold_left (λ s w, onWordMissed w s) _ s2) in *.
  match goal with
  | |- context [maybeFinishGame ?a] => set (s4 := a)
  end.
  destruct (maybeFinishGame_fields s4)
    as (Hf5 & Hsc5 & Hc5 & Hb5 & Ht5 & Ha5 & Hn5).
  (* either the targeted word is among the misses, or it survives *)
  assert (∀ i, targetWordId s = Some i →
            (targetWordId s3 = None ∧ inputBuffer s3 = EmptyString)
            ∨ (targetWordId s3 = Some i ∧ inputBuffer s3 = inputBuffer s
               ∧ ∃ w, w ∈ activeWords s4 ∧ Word.id w = i
                   ∧ matching (inputBuffer s) w)) as Hcases.
  { intros i Hi. destruct (H i Hi) as (w & Hw & Hwi & Hwm).
    destruct (atGround canvas_height (moveDown dy w)) eqn:Hg.
    - left. apply Hhit. exists (moveDown dy w). split.
      + apply list_filter_elem_of. split; [|done].
        apply list_elem_of_fmap_2. rewrite Ha2. apply elem_of_app. by left.
      + simpl. by rewrite Ht2, Hi, Hwi.
    - destruct (hit_or_not
                  (List.filter (atGround canvas_height)
                     (map (moveDown dy) (activeWords s2)))
                  (targetWordId s2)) as [Hex | Hnex].
      + left. by apply Hhit.
      + right. destruct (Hoth Hnex) as [Ht3 Hb3].
        rewrite Ht3, Hb3, Ht2, Hb2. split_and!; try done.
        exists (moveDown dy w). split_and!; try done.
        unfold s4. simpl. apply list_filter_elem_of. rewrite Hg.
        split; [|done]. apply list_elem_of_fmap_2. rewrite Ha2.
        apply elem_of_app. by left. }
  split.
  - intros i Hi. rewrite Ht5 in Hi. rewrite Hb5, Ha5.
    unfold s4 in Hi. simpl in Hi. unfold s4 at 2. simpl.
    destruct (targetWordId s) as [i0|] eqn:Hts.
    + destruct (Hcases i0 eq_refl) as [[Hn _] | (Ht3 & Hb3 & w & Hw & Hwi & Hwm)].
      * congruence.
      * exists w. rewrite Hb3. split_and!; try done. congruence.
    + destruct Hoth as [Ht3 _].
      { intros w' _. rewrite Ht2. done. }
      congruence.
  - intros i Hi. rewrite Ht5, Hb5, Ha5.
    destruct (Hcases i Hi) as [[Hn Hb] | (Ht3 & Hb3 & w & Hw & Hwi & Hwm)].
    + right. by unfold s4.
    + left. by exists w.
Qed.


Lemma target_ok_same s s' :
  target_ok s → activeWords s' = activeWords s →
  inputBuffer s' = inputBuffer s → targetWordId s' = targetWordId s →
  target_ok s'.
Proof.
  intros H Ha Hb Ht i Hi. rewrite Ha, Hb. apply H. congruence.
Qed.

Lemma apply_target e s :
  target_ok s → target_ok (apply e s) ∧ tracking_kept s (apply e s).
Proof.
  intros H. destruct e as [words level acc maxWords rs | key | dt rs | |];
    simpl.
  - destruct words as [|w ws] eqn:Hw.
    { split; [done | by apply tracking_kept_same]. }
    rewrite <- Hw.
    destruct (startGame_unfold words level acc maxWords rs s)
      as (pending & rs' & ->); [by rewrite Hw|].
    match goal with
    | |- context [spawnWord ?a rs'] =>
        destruct (spawnWord_spawned a rs') as [news Hsp]
    end.
    destruct Hsp as (_ & _ & _ & _ & _ & _ & _ & _ & Hb2 & Ht2 & _).
    split; [by apply target_ok_cleared | intros i Hi; by right].
  - by apply keydown_target.
  - unfold Game.loop. destruct (_ && _).
    + by apply updateWorld_target.
    + split; [done | by apply tracking_kept_same].
  - unfold onWordSolved_resume.
    match goal with
    | |- context [maybeFinishGame ?a] =>
        destruct (maybeFinishGame_fields a)
          as (Hf5 & Hsc5 & Hc5 & Hb5 & Ht5 & Ha5 & Hn5)
    end.
    split; [by apply (target_ok_same s) | by apply tracking_kept_same].
  - split; [by apply target_ok_cleared | intros i Hi; by right].
Qed.

Lemma run_target_ok es : ∀ s, target_ok s → target_ok (run es s).
Proof.
  induction es as [|e es IH]; intros s H; simpl; [done|].
  by apply IH, apply_target.
Qed.

Lemma reachable_target_ok s : reachable s → target_ok s.
Proof.
  intros (p & es & ->). by apply run_target_ok, target_ok_cleared.
Qed.

(** C6.  Every engine event (start of a game, key, frame with its spawns,
    falls and misses, end of a solve sequence, return to setup) keeps the
    target valid: a non-null [targetWordId] names an active word that
    starts with [inputBuffer].  When the word that was targeted is no
    longer active after the event, targeting and buffer are cleared; a miss
    of the targeted word clears them on the spot, and so does a solve. *)
Theorem target_stays_valid (e : Event) (s : State) :
  target_ok s →
  target_ok (apply e s)
  ∧ (∀ i, targetWordId s = Some i → ¬ has_id i (activeWords (apply e s)) →
       targetWordId (apply e s) = None
       ∧ inputBuffer (apply e s) = EmptyString)
  ∧ (∀ w, targetWordId s = Some (Word.id w) →
       targetWordId (onWordMissed w s) = None
       ∧ inputBuffer (onWordMissed w s) = EmptyString).
Proof.
  intros H. destruct (apply_target e s H) as [Hok Hkept].
  split_and!.
  - done.
  - intros i Hi Hgone. by destruct (Hkept i Hi).
  - intros w Hw. by rewrite (onWordMissed_hit _ _ Hw).
Qed.

(** *** Input while frozen *)

(** C2.  In every state the engine reaches with [frozen] set, a key event
    leaves the whole state as it was, whatever the key: a letter, Backspace,
    Escape or any other key. *)
Theorem frozen_input_ignored (s : State) (key : string) :
  reachable s → frozen s = true → keydown key s = s.
Proof.
  intros Hreach Hfz.
  destruct (reachable_well_formed s Hreach) as (_ & Hf & _).
  destruct (Hf Hfz) as [Hb Ht].
  destruct (keydown_cases key s) as [-> | [-> | ->]]; [done|..].
  - apply handleTypedCharacter_ignored. auto.
  - unfold handleControlKey. rewrite Hb. simpl.
    destruct (String.eqb key "Backspace"); [done|].
    destruct (String.eqb key "Escape"); [|done].
    destruct s; simpl in *. by subst.
Qed.

(** *** Ties between equally low words *)

(** C10.  When some active word matches the prefix, [chooseTarget] returns
    a matching word of greatest [y], and among the matching words of that
    [y] the first of the array: every matching word before it is strictly
    higher up.  In a state the engine reaches the array is in spawn order,
    so every other matching word of the same [y] comes later in the array
    and carries a greater id. *)
Theorem chooseTarget_tie_earliest (s : State) (prefix : string) :
  reachable s →
  (∃ w, w ∈ activeWords s ∧ matching prefix w) →
  ∃ b l1 l2,
    chooseTarget prefix s = Some b
    ∧ activeWords s = l1 ++ b :: l2
    ∧ matching prefix b
    ∧ (∀ w, w ∈ activeWords s → matching prefix w →
         (Word.y w <= Word.y b)%Q)
    ∧ (∀ w, w ∈ l1 → matching prefix w → (Word.y w < Word.y b)%Q)
    ∧ (∀ w, w ∈ activeWords s → matching prefix w →
         (Word.y w == Word.y b)%Q →
         w = b ∨ (w ∈ l2 ∧ Word.id b < Word.id w)).
Proof.
  intros Hreach (w0 & Hw0 & Hm0).
  destruct (reachable_well_formed s Hreach) as (_ & _ & Hids & _).
  destruct (chooseTarget prefix s) as [b|] eqn:Hc.
  2:{ by destruct (chooseTarget_None _ _ Hc w0 Hw0). }
  pose proof (chooseTarget_Some _ _ _ Hc) as Hfl.
  pose proof Hfl as (l1 & l2 & Hl & Hm & H1 & H2).
  exists b, l1, l2. split_and!; try done.
  - intros w Hw Hmw. by apply (first_lowest_max prefix (activeWords s)).
  - intros w Hw Hmw Hy. destruct Hids as [Hs _].
    rewrite Hl in Hw, Hs. rewrite map_app in Hs. simpl in Hs.
    apply elem_of_app in Hw as [Hw | [-> | Hw]%elem_of_cons].
    + specialize (H1 w Hw Hmw). lra.
    + by left.
    + right. split; [done|].
      apply StronglySorted_app_1_r, StronglySorted_cons in Hs as [Hall _].
      eapply Forall_forall in Hall; [|by apply list_elem_of_fmap_2]. lia.
Qed.


(** *** The keystroke algorithm *)

(** Taking the target out of the array removes exactly that word. *)
Lemma remove_target s t :
  ids_ok s → t ∈ activeWords s →
  ∃ l1 l2, activeWords s = l1 ++ t :: l2 ∧ (t ∉ l1 ++ l2)
    ∧ ∀ s1, activeWords s1 = activeWords s →
        removeActiveWordById (Word.id t) s1
        = (Some t, set_activeWords (l1 ++ l2) s1).
Proof.
  intros Hids Ht.
  destruct (list_find_elem_of (λ w, Word.id w = Word.id t) _ t Ht eq_refl)
    as [[index w] Hfind].
  pose proof Hfind as (Hl & Hw & _)%list_find_Some.
  assert (w = t) as ->.
  { eapply ids_ok_unique; [done | | done | done].
    by eapply list_elem_of_lookup_2. }
  exists (take index (activeWords s)), (drop (S index) (activeWords s)).
  pose proof (take_drop_middle _ _ _ Hl) as Hsplit.
  split_and!.
  - done.
  - destruct Hids as [Hs _]. rewrite <- Hsplit, map_app in Hs. simpl in Hs.
    intros [Hin | Hin]%elem_of_app.
    + eapply (StronglySorted_app_1_elem_of _ _ _ (Word.id t) (Word.id t))
        in Hs; [lia | by apply list_elem_of_fmap_2 | by left].
    + apply StronglySorted_app_1_r, StronglySorted_cons in Hs as [Hall _].
      eapply Forall_forall in Hall; [|by apply list_elem_of_fmap_2]. lia.
  - intros s1 Ha. unfold removeActiveWordById.
    by rewrite Ha, Hfind, delete_take_drop.
Qed.

(** C3.  A character typed while the game runs and is not frozen is
    resolved first against the buffer extended by the lowercased character
    and, failing that, against the character alone ([resolve]).  With no
    target the buffer and the target are cleared and nothing else of the
    input is kept.  With a target the buffer becomes the candidate and the
    target its id; when the candidate is the whole text of the target, the
    solve sequence starts from a state in which the word has already left
    [activeWords] and the buffer and the target are cleared. *)
Theorem handleTypedCharacter_steps (s : State) (ch : string) :
  reachable s → running s = true → frozen s = false →
  let s' := handleTypedCharacter ch s in
  match resolve (toLowerCase ch) s with
  | None =>
      inputBuffer s' = EmptyString ∧ targetWordId s' = None
      ∧ activeWords s' = activeWords s ∧ frozen s' = false
      ∧ score s' = score s
  | Some (candidate, t) =>
      t ∈ activeWords s ∧ matching candidate t
      ∧ (candidate = (inputBuffer s ++ toLowerCase ch)%string
         ∨ candidate = toLowerCase ch)
      ∧ if String.eqb candidate (Word.text t) then
          ∃ before l1 l2,
            s' = onWordSolved t before
            ∧ activeWords s = l1 ++ t :: l2
            ∧ activeWords before = l1 ++ l2 ∧ (t ∉ activeWords before)
            ∧ inputBuffer before = EmptyString ∧ targetWordId before = None
            ∧ frozen before = false
            ∧ frozen s' = true ∧ activeWords s' = l1 ++ l2
            ∧ inputBuffer s' = EmptyString ∧ targetWordId s' = None
        else
          inputBuffer s' = candidate ∧ targetWordId s' = Some (Word.id t)
          ∧ activeWords s' = activeWords s ∧ frozen s' = false
          ∧ score s' = score s
  end.
Proof.
  intros Hreach Hr Hf.
  destruct (reachable_well_formed s Hreach) as (Hp & _ & Hids & _).
  pose proof (Hp Hr) as Hg. cbv zeta.
  rewrite (handleTypedCharacter_outcome ch s Hr Hf Hg).
  set (s0 := if chain_break _ s then _ else s).
  assert (activeWords s0 = activeWords s ∧ frozen s0 = frozen s
          ∧ score s0 = score s) as (Ha0 & Hf0 & Hsc0)
    by (unfold s0; by destruct (chain_break _ s)).
  destruct (resolve _ s) as [[b t]|] eqn:Hres.
  - assert (b = (inputBuffer s ++ toLowerCase ch)%string
            ∨ b = toLowerCase ch) as Hcand.
    { unfold resolve in Hres.
      destruct (chooseTarget (inputBuffer s ++ toLowerCase ch) s);
        [left; congruence|].
      destruct (chooseTarget (toLowerCase ch) s); [right; congruence | done]. }
    apply resolve_Some, chooseTarget_Some, first_lowest_elem in Hres
      as [Hin Hm].
    split_and!; try done. cbn zeta.
    destruct (String.eqb b (Word.text t)).
    + destruct (remove_target s t Hids Hin) as (l1 & l2 & Hl & Hnot & Hrem).
      rewrite Hrem by done.
      eexists _, l1, l2. split; [reflexivity|]. simpl.
      by rewrite Hf0.
    + simpl. by rewrite Ha0, Hf0, Hsc0.
  - simpl. by rewrite Ha0, Hf0, Hsc0.
Qed.


(** *** Combo and score *)

Lemma replay_app es1 es2 cs :
  replay (es1 ++ es2) cs = replay es2 (replay es1 cs).
Proof. apply fold_left_app. Qed.

Lemma replay_misses {A} (l : list A) c sc :
  replay (map (λ _, Miss) l) (c, sc)
  = (match l with [] => c | _ => 0 end, sc).
Proof.
  destruct l as [|a l]; [done|]. simpl.
  induction l as [|b l IH]; [done|]. exact IH.
Qed.

Lemma replay_solves k : ∀ c sc,
  replay (repeat Solve k) (c, sc)
  = (c + Z.of_nat k, sc + Z.of_nat k * c + triangle k).
Proof.
  induction k as [|k IH]; intros c sc.
  - simpl. f_equal; lia.
  - change (repeat Solve (S k)) with (Solve :: repeat Solve k).
    cbn [replay fold_left replay_step]. fold (replay (repeat Solve k)).
    rewrite IH. cbn [triangle]. f_equal; lia.
Qed.

Lemma replay_monotone es : ∀ c sc,
  Forall (λ e, e ≠ Reset) es → 0 <= c →
  0 <= (replay es (c, sc)).1 ∧ sc <= (replay es (c, sc)).2.
Proof.
  induction es as [|e es IH]; intros c sc Hall Hc; simpl; [split; lia|].
  apply Forall_cons in Hall as [He Hall].
  destruct e; simpl; try done.
  - destruct (IH (c + 1) (sc + (c + 1)) Hall ltac:(lia)). split; [done | lia].
  - destruct (IH 0 sc Hall ltac:(lia)). split; [done | lia].
  - destruct (IH 0 sc Hall ltac:(lia)). split; [done | lia].
Qed.

Lemma replay_nonneg es : ∀ c sc,
  0 <= c → 0 <= (replay es (c, sc)).1.
Proof.
  induction es as [|e es IH]; intros c sc Hc; simpl; [done|].
  destruct e; simpl; apply IH; lia.
Qed.

Lemma handleTypedCharacter_scoring ch s :
  running s = true → frozen s = false → gameOver s = false →
  (combo (handleTypedCharacter ch s), score (handleTypedCharacter ch s))
  = replay (keystroke_events ch s) (combo s, score s).
Proof.
  intros Hr Hf Hg.
  rewrite (handleTypedCharacter_outcome ch s Hr Hf Hg).
  unfold keystroke_events.
  set (s0 := if chain_break _ s then _ else s).
  assert (activeWords s0 = activeWords s ∧ score s0 = score s) as [Ha0 Hsc0]
    by (unfold s0; by destruct (chain_break _ s)).
  assert (replay (if chain_break (toLowerCase ch) s then [ChainBreak] else [])
            (combo s, score s) = (combo s0, score s0)) as Hbreak
    by (unfold s0; by destruct (chain_break _ s)).
  rewrite replay_app, Hbreak.
  destruct (resolve _ s) as [[b t]|] eqn:Hres; [|done].
  apply resolve_Some, chooseTarget_Some, first_lowest_elem in Hres
    as [Hin Hm].
  cbn zeta. destruct (String.eqb b (Word.text t)); [|done].
  match goal with
  | |- context [removeActiveWordById _ ?a] =>
      destruct (removeActiveWordById_present (Word.id t) a)
        as (index & w & _ & _ & _ & ->)
  end.
  { exists t. simpl. by rewrite Ha0. }
  done.
Qed.

Lemma keydown_scoring key s :
  (combo (keydown key s), score (keydown key s))
  = replay (if simulating s && isLetterKey key
            then keystroke_events key s else [])
      (combo s, score s).
Proof.
  unfold keydown, simulating.
  destruct (running s) eqn:Hr; [|done]. simpl.
  destruct (isLetterKey key).
  - destruct (frozen s) eqn:Hf.
    { rewrite handleTypedCharacter_ignored by auto. done. }
    destruct (gameOver s) eqn:Hg.
    { rewrite handleTypedCharacter_ignored by auto. done. }
    by apply handleTypedCharacter_scoring.
  - rewrite andb_false_r.
    destruct (_ || _); [|done].
    by destruct (handleControlKey_fields key s)
      as (_ & _ & _ & -> & -> & _).
Qed.

Lemma updateWorld_scoring dt rs s :
  (combo (updateWorld dt rs s), score (updateWorld dt rs s))
  = replay
      (map (λ _, Miss)
         (frame_misses
            dt rs s))
      (combo s, score s).
Proof.
  destruct (updateWorld_unfold dt rs s) as (s2 & news & Hsp & -> & ->).
  destruct Hsp as (_ & _ & _ & _ & _ & _ & Hsc2 & Hc2 & _).
  match goal with
  | |- context [fold_left _ ?ws s2] =>
      destruct (misses_fields ws s2)
        as (_ & _ & _ & Hsc3 & _ & _ & _ & _ & Hc3 & _)
  end.
  match goal with
  | |- context [maybeFinishGame ?a] =>
      destruct (maybeFinishGame_fields a) as (_ & -> & -> & _)
  end.
  simpl. by rewrite replay_misses, Hsc3, Hc3, Hsc2, Hc2.
Qed.

Lemma apply_scoring e s :
  (combo (apply e s), score (apply e s))
  = replay (scoring e s)
      (combo s, score s).
Proof.
  destruct e as [words level acc maxWords rs | key | dt rs | |]; simpl.
  - destruct words as [|w ws] eqn:Hw; [done|]. rewrite <- Hw.
    destruct (startGame_unfold words level acc maxWords rs s)
      as (pending & rs' & ->); [by rewrite Hw|].
    match goal with
    | |- context [spawnWord ?a rs'] =>
        destruct (spawnWord_spawned a rs') as [news Hsp]
    end.
    destruct Hsp as (_ & _ & _ & _ & _ & _ & -> & -> & _).
    by rewrite Hw.
  - apply keydown_scoring.
  - unfold Game.loop, simulating. destruct (_ && _); [|done].
    apply updateWorld_scoring.
  - unfold onWordSolved_resume.
    match goal with
    | |- context [maybeFinishGame ?a] =>
        by destruct (maybeFinishGame_fields a) as (_ & -> & -> & _)
    end.
  - done.
Qed.

Lemma scoring_in_session e s :
  in_session e →
  Forall (λ ev, ev ≠ Reset)
    (scoring e s).
Proof.
  destruct e as [words level acc maxWords rs | key | dt rs | |]; simpl;
    intros Hs; [done | | | constructor | constructor].
  - destruct (_ && _); [|constructor]. unfold keystroke_events.
    apply Forall_app. split.
    + destruct (chain_break _ s); repeat constructor; done.
    + destruct (resolve _ s) as [[b t]|]; [|constructor].
      destruct (String.eqb b (Word.text t)); repeat constructor; done.
  - destruct (simulating s); [|constructor].
    apply Forall_forall. by intros ev (w & -> & _)%list_elem_of_fmap.
Qed.

Lemma trace_in_session es : ∀ s,
  Forall in_session es →
  Forall (λ ev, ev ≠ Reset)
    (trace es s).
Proof.
  induction es as [|e es IH]; intros s Hall; simpl; [constructor|].
  apply Forall_cons in Hall as [He Hall].
  apply Forall_app. split; [by apply scoring_in_session | by apply IH].
Qed.

Lemma run_scoring es : ∀ s,
  (combo (run es s), score (run es s))
  = replay (trace es s)
      (combo s, score s).
Proof.
  induction es as [|e es IH]; intros s; simpl; [done|].
  by rewrite replay_app, <- apply_scoring, IH.
Qed.

(** C4.  Along every run, combo and score are what the stream of solve,
    miss, chain-break and reset events makes of them: a solve adds 1 to the
    combo and then the combo to the score, a miss or a chain break sets the
    combo to 0, a reset sets both to 0, and nothing else changes either.
    From combo 0, k solves in a row add 1 + 2 + ... + k.  A keystroke that
    breaks the chain leaves combo 0, or 1 when its restart solves a word.
    As long as no game is started anew the score does not decrease. *)
Theorem combo_score_from_events (es : list Event) (s : State) :
  0 <= combo s →
  (combo (run es s), score (run es s))
  = replay (trace es s)
      (combo s, score s)
  ∧ (∀ k sc, replay (repeat Solve k) (0, sc) = (Z.of_nat k, sc + triangle k))
  ∧ (∀ w, combo (onWordSolved w s) = combo s + 1
          ∧ score (onWordSolved w s) = score s + (combo s + 1))
  ∧ (∀ w, combo (onWordMissed w s) = 0
          ∧ score (onWordMissed w s) = score s)
  ∧ (∀ ch, simulating s = true → chain_break (toLowerCase ch) s = true →
       (combo (handleTypedCharacter ch s), score (handleTypedCharacter ch s))
       = match resolve (toLowerCase ch) s with
         | Some (candidate, t) =>
             if String.eqb candidate (Word.text t)
             then (1, score s + 1) else (0, score s)
         | None => (0, score s)
         end)
  ∧ 0 <= combo (run es s)
  ∧ (Forall in_session es → score s <= score (run es s)).
Proof.
  intros Hc. pose proof (run_scoring es s) as Hrun.
  split_and!.
  - done.
  - intros k sc. rewrite replay_solves. f_equal; lia.
  - done.
  - intros w. unfold onWordMissed. by case_bool_decide.
  - intros ch Hsim Hbreak. unfold simulating in Hsim.
    apply andb_prop in Hsim as [[Hr Hf%negb_true_iff]%andb_prop
                                  Hg%negb_true_iff].
    rewrite (handleTypedCharacter_scoring ch s Hr Hf Hg).
    unfold keystroke_events. rewrite Hbreak.
    destruct (resolve _ s) as [[b t]|]; [|done].
    by destruct (String.eqb b (Word.text t)).
  - clear Hrun. revert s Hc.
    induction es as [|e es IH]; intros s Hc; simpl; [done|].
    apply IH. apply (replay_nonneg (scoring e s) (combo s) (score s)) in Hc.
    by rewrite <- apply_scoring in Hc.
  - intros Hsess.
    pose proof (replay_monotone _ (combo s) (score s)
                  (trace_in_session es s Hsess) Hc) as [_ Hm].
    rewrite <- Hrun in Hm. exact Hm.
Qed.


(** *** Fresh identifiers *)

Lemma keydown_nextWordId key s : nextWordId (keydown key s) = nextWordId s.
Proof.
  destruct (keydown_cases key s) as [-> | [-> | ->]]; [done|..].
  - by destruct (handleTypedCharacter_fields key s) as (_ & _ & -> & _).
  - by destruct (handleControlKey_fields key s)
      as (_ & _ & _ & _ & _ & _ & ->).
Qed.

(** An event of a running session hands out the ids from [nextWordId] up
    to the new [nextWordId], in order. *)
Lemma assigned_interval e s :
  in_session e →
  nextWordId s <= nextWordId (apply e s)
  ∧ assigned e s
    = seqZ (nextWordId s) (nextWordId (apply e s) - nextWordId s).
Proof.
  destruct e as [words level acc maxWords rs | key | dt rs | |];
    intros Hs; [done|..]; unfold Game.assigned; cbn [Game.apply].
  - rewrite keydown_nextWordId, Z.sub_diag. split; [lia | done].
  - unfold Game.loop, simulating.
    destruct (_ && _); [|rewrite Z.sub_diag; split; [lia | done]].
    unfold Game.updateWorld.
    set (s1 := set_spawnTimer (spawnTimer s + dt) s).
    destruct (spawnLoop_spawned (Z.to_nat (Qfloor (spawnTimer s1))) s1 rs)
      as [news Hsp].
    destruct (spawnLoop (Z.to_nat (Qfloor (spawnTimer s1))) s1 rs)
      as [s2 rs2]. simpl in Hsp.
    destruct Hsp as (Ha2 & Hi2 & Hn2 & _).
    rewrite fall_fold.
    match goal with
    | |- context [fold_left _ ?ws s2] =>
        destruct (misses_fields ws s2)
          as (_ & _ & _ & _ & _ & _ & Hn3 & _)
    end.
    match goal with
    | |- context [maybeFinishGame ?a] =>
        destruct (maybeFinishGame_fields a) as (_ & _ & _ & _ & _ & _ & ->)
    end.
    simpl. rewrite Hn3, Hn2, Ha2. simpl.
    split; [lia|].
    rewrite map_app, drop_app_length' by (by rewrite length_map).
    rewrite Hi2. f_equal. lia.
  - unfold onWordSolved_resume.
    match goal with
    | |- context [maybeFinishGame ?a] =>
        destruct (maybeFinishGame_fields a) as (_ & _ & _ & _ & _ & _ & ->)
    end.
    simpl. rewrite Z.sub_diag. split; [lia | done].
  - simpl. rewrite Z.sub_diag. split; [lia | done].
Qed.

Lemma assigned_ids_interval es : ∀ s,
  Forall in_session es →
  nextWordId s <= nextWordId (run es s)
  ∧ assigned_ids es s
    = seqZ (nextWordId s) (nextWordId (run es s) - nextWordId s).
Proof.
  induction es as [|e es IH]; intros s Hall; simpl.
  - rewrite Z.sub_diag. split; [lia | done].
  - apply Forall_cons in Hall as [He Hall].
    destruct (assigned_interval e s He) as [Hle ->].
    destruct (IH (apply e s) Hall) as [Hle' ->].
    split; [lia|]. simpl.
    replace (nextWordId (run es (apply e s)) - nextWordId s)
      with ((nextWordId (apply e s) - nextWordId s)
            + (nextWordId (run es (apply e s)) - nextWordId (apply e s)))
      by lia.
    rewrite seqZ_app by lia. do 2 f_equal. lia.
Qed.

Lemma session_ids s :
  ids_ok s →
  ∀ es, Forall in_session es →
    assigned_ids es s
    = seqZ (nextWordId s) (nextWordId (run es s) - nextWordId s)
    ∧ StronglySorted Z.lt
        (assigned_ids es s)
    ∧ ∀ i w, i ∈ assigned_ids es s →
        w ∈ activeWords s → Word.id w < i.
Proof.
  intros [_ Hb] es Hall.
  destruct (assigned_ids_interval es s Hall) as [Hle Heq].
  rewrite Heq. split_and!; [done | |].
  - rewrite <- (Z2Nat.id (nextWordId (run es s) - nextWordId s)) by lia.
    apply StronglySorted_seqZ.
  - intros i w [? _]%elem_of_seqZ Hw.
    eapply Forall_forall in Hb; [|done]. simpl in Hb. lia.
Qed.

(** C7.  [spawnWord] fails and leaves the state alone when the active
    words have reached the cap, and when the pending queue and the missed
    pool are both empty.  Otherwise the queue is the pending queue or, when
    that is empty, a shuffle of the missed pool, which is then cleared; its
    first text is dequeued and a word with that text is appended to the
    active words at the top line.  The word gets [nextWordId], which is
    above the id of every active word, and [nextWordId] moves up by one.
    Along a session the ids handed out are the successive integers from
    [nextWordId] on: strictly increasing, none used twice. *)
Theorem spawnWord_spec (s : State) (rs : Rand) :
  ids_ok s →
  let ok := (spawnWord s rs).1.1 in
  let s' := (spawnWord s rs).1.2 in
  (maxActiveWords s <= Z.of_nat (length (activeWords s)) →
     ok = false ∧ s' = s)
  ∧ (pendingWords s = [] → missedWords s = [] → ok = false ∧ s' = s)
  ∧ (Z.of_nat (length (activeWords s)) < maxActiveWords s →
     pendingWords s ≠ [] ∨ missedWords s ≠ [] →
     ∃ queue text rest x width,
       ((pendingWords s ≠ [] ∧ queue = pendingWords s
         ∧ missedWords s' = missedWords s)
        ∨ (pendingWords s = [] ∧ queue = (shuffle (missedWords s) rs).1
           ∧ queue ≡ₚ missedWords s ∧ missedWords s' = []))
       ∧ queue = text :: rest
       ∧ ok = true
       ∧ pendingWords s' = rest
       ∧ activeWords s'
         = activeWords s ++ [Word.mk (nextWordId s) text x topY width]
       ∧ nextWordId s' = nextWordId s + 1
       ∧ (∀ w, w ∈ activeWords s → Word.id w < nextWordId s)
       ∧ ids_ok s')
  ∧ (∀ es, Forall in_session es →
       assigned_ids es s
       = seqZ (nextWordId s) (nextWordId (run es s) - nextWordId s)
       ∧ StronglySorted Z.lt
           (assigned_ids es s)
       ∧ ∀ i w, i ∈ assigned_ids es s →
           w ∈ activeWords s → Word.id w < i).
Proof.
  intros Hids. cbv zeta.
  destruct (spawnWord_spawned s rs) as [news Hsp].
  pose proof (ids_ok_spawned _ _ _ Hids Hsp) as Hids'. clear Hsp news.
  destruct (spawnWord_cases s rs)
    as [[Heq Hwhy]
       | (Hroom & queue & missed' & rs1 & text & rest & Hq & Hqueue & Heq)];
    rewrite Heq in *; cbn [fst snd].
  - split_and!; try done.
    + intros Hroom Hsome. exfalso.
      destruct Hwhy as [Hfull | [Hp Hm]]; [lia|].
      by destruct Hsome.
    + apply session_ids. exact Hids.
  - split_and!.
    + intros Hfull. lia.
    + intros Hp Hm. exfalso.
      destruct Hq as [(_ & Hne & _) | (Hne & _)]; done.
    + intros _ _.
      exists queue, text, rest, (chooseSpawnX text rs1).1.1,
        (chooseSpawnX text rs1).1.2.
      split_and!; try done.
      * destruct Hq as [(Hp & Hm & Hs & ->) | (Hp & -> & -> & ->)].
        -- right. split_and!; try done.
           ++ by rewrite <- Hs.
           ++ change queue with (queue, rs1).1. rewrite Hs.
              apply shuffle_Permutation.
        -- by left.
      * intros w Hw. destruct Hids as [_ Hb].
        by eapply Forall_forall in Hb.
    + apply session_ids. exact Hids.
Qed.


End HostProperties.

(** ** The statements on the sample runs *)

Lemma demo_two_words_reachable :
  reachable demo_width demo_height demo_measureText demo_pow demo_two_words.
Proof. exists demo_page, (demo_start :: demo_frames). reflexivity. Qed.

Example demo_game_score : score (demo_run demo_game) = 3.
Proof. vm_compute. reflexivity. Qed.

Example demo_game_over : gameOver (demo_run demo_game) = true.
Proof. vm_compute. reflexivity. Qed.

Lemma chooseTarget_nearest_to_ground_witness :
  ∃ b, chooseTarget "ca" demo_two_words = Some b
    ∧ b ∈ activeWords demo_two_words
    ∧ matching "ca" b
    ∧ ∀ w, w ∈ activeWords demo_two_words → matching "ca" w →
        (Word.y w <= Word.y b)%Q.
Proof.
  apply chooseTarget_nearest_to_ground.
  eexists. split.
  - eapply (list_elem_of_lookup_2 _ 1%nat). vm_compute. reflexivity.
  - reflexivity.
Defined.

Lemma frozen_input_ignored_witness :
  frozen demo_frozen = true
  ∧ keydown "Backspace" demo_frozen = demo_frozen.
Proof.
  split; [vm_compute; reflexivity|].
  apply (frozen_input_ignored demo_width demo_height demo_measureText
           demo_pow).
  - exists demo_page, demo_frozen_events. reflexivity.
  - vm_compute. reflexivity.
Defined.

Lemma handleTypedCharacter_steps_witness :
  inputBuffer (handleTypedCharacter "C" demo_two_words) = "c"%string
  ∧ targetWordId (handleTypedCharacter "C" demo_two_words) = Some 1.
Proof.
  pose proof (handleTypedCharacter_steps demo_width demo_height
                demo_measureText demo_pow demo_two_words "C") as H.
  assert (running demo_two_words = true) as Hr by (vm_compute; reflexivity).
  assert (frozen demo_two_words = false) as Hf by (vm_compute; reflexivity).
  assert (reachable demo_width demo_height demo_measureText demo_pow
            demo_two_words) as Hreach.
  { exists demo_page, (demo_start :: demo_frames). reflexivity. }
  specialize (H Hreach Hr Hf). cbv zeta in H.
  assert (resolve (toLowerCase "C") demo_two_words
          = Some ("c"%string, demo_cat)) as Hres by (vm_compute; reflexivity).
  rewrite Hres in H. destruct H as (_ & _ & _ & H).
  change (String.eqb "c" (Word.text demo_cat)) with false in H.
  destruct H as (Hb & Ht & _). split; [exact Hb | exact Ht].
Defined.

Lemma combo_score_from_events_witness :
  (combo (run demo_width demo_height demo_measureText demo_pow demo_game
            (initial demo_page)),
   score (run demo_width demo_height demo_measureText demo_pow demo_game
            (initial demo_page)))
  = replay (trace demo_width demo_height demo_measureText demo_pow
              demo_game (initial demo_page))
      (combo (initial demo_page), score (initial demo_page)).
Proof.
  assert (0 <= combo (initial demo_page)) as H by (simpl; lia).
  exact (proj1 (combo_score_from_events demo_width demo_height
                  demo_measureText demo_pow demo_game (initial demo_page) H)).
Defined.

Lemma target_stays_valid_witness :
  target_ok demo_typing
  ∧ target_ok (apply demo_width demo_height demo_measureText demo_pow
                 (Frame (1 # 10) []) demo_typing).
Proof.
  assert (target_ok demo_typing) as H.
  { intros i Hi. vm_compute in Hi. injection Hi as <-.
    exists demo_cat. split.
    - eapply (list_elem_of_lookup_2 _ 0%nat). vm_compute. reflexivity.
    - split; vm_compute; reflexivity. }
  split; [exact H|].
  apply (target_stays_valid demo_width demo_height demo_measureText demo_pow
           (Frame (1 # 10) []) demo_typing H).
Defined.

Lemma spawnWord_spec_witness :
  ids_ok demo_started
  ∧ (spawnWord demo_width demo_measureText demo_started [3 # 4]%Q).1.1 = true.
Proof.
  assert (ids_ok demo_started) as H.
  { split; vm_compute; repeat constructor. }
  split; [exact H|].
  destruct (spawnWord_spec demo_width demo_height demo_measureText demo_pow
              demo_started [3 # 4]%Q H) as (_ & _ & H3 & _).
  destruct H3 as (queue & text & rest & x & width & _ & _ & Hok & _).
  - vm_compute. reflexivity.
  - left. vm_compute. discriminate.
  - exact Hok.
Defined.



(** Whatever the canvas, a text as wide as the canvas overflows it. *)
Lemma chooseSpawnX_overflows_any_canvas (canvas_width : Q) :
  ¬ spawn_in_bounds canvas_width (λ _, canvas_width) EmptyString [].
Proof.
  unfold spawn_in_bounds, chooseSpawnX, sidePadding. simpl.
  intros [_ H].
  pose proof (Q.le_max_r 40 (canvas_width + 16)) as Hw.
  lra.
Qed.

Lemma chooseTarget_tie_earliest_witness :
  (∃ w1 w2, activeWords demo_tie = [w1; w2]
     ∧ matching "ca" w1 ∧ matching "ca" w2
     ∧ (Word.y w1 == Word.y w2)%Q)
  ∧ ∃ b l1 l2,
      chooseTarget "ca" demo_tie = Some b
      ∧ activeWords demo_tie = l1 ++ b :: l2
      ∧ matching "ca" b
      ∧ (∀ w, w ∈ activeWords demo_tie → matching "ca" w →
           (Word.y w <= Word.y b)%Q)
      ∧ (∀ w, w ∈ l1 → matching "ca" w → (Word.y w < Word.y b)%Q)
      ∧ (∀ w, w ∈ activeWords demo_tie → matching "ca" w →
           (Word.y w == Word.y b)%Q →
           w = b ∨ (w ∈ l2 ∧ Word.id b < Word.id w)).
Proof.
  split.
  - eexists _, _. split; [vm_compute; reflexivity|].
    split; [vm_compute; reflexivity|].
    split; [vm_compute; reflexivity|]. by compute.
  - apply (chooseTarget_tie_earliest demo_width demo_height demo_measureText
             demo_pow demo_tie "ca").
    + exists demo_page, [demo_start; Frame 1 [3 # 4]%Q]. reflexivity.
    + exists demo_tie_cat. split.
      * eapply (list_elem_of_lookup_2 _ 0%nat). vm_compute. reflexivity.
      * vm_compute. reflexivity.
Defined.

(** * Further properties of the engine *)

Section SessionProperties.

Variables canvas_width canvas_height : Q.
Variable measureText : string → Q.
Variable Math_pow : Q → Q → Q.

#[local] Abbreviation chooseSpawnX := (chooseSpawnX canvas_width measureText).
#[local] Abbreviation spawnWord := (spawnWord canvas_width measureText).
#[local] Abbreviation spawnLoop := (spawnLoop canvas_width measureText).
#[local] Abbreviation updateWorld :=
  (updateWorld canvas_width canvas_height measureText Math_pow).
#[local] Abbreviation loop :=
  (loop canvas_width canvas_height measureText Math_pow).
#[local] Abbreviation startGame := (startGame canvas_width measureText).
#[local] Abbreviation apply :=
  (apply canvas_width canvas_height measureText Math_pow).
#[local] Abbreviation run :=
  (run canvas_width canvas_height measureText Math_pow).
#[local] Abbreviation reachable :=
  (reachable canvas_width canvas_height measureText Math_pow).
#[local] Abbreviation solved_texts :=
  (solved_texts canvas_width canvas_height measureText Math_pow).
#[local] Abbreviation drawWord := (drawWord measureText).

(** ** No word is lost *)

Lemma list_filter_partition {A} (f : A → bool) (l : list A) :
  List.filter (λ x, negb (f x)) l ++ List.filter f l ≡ₚ l.
Proof.
  induction l as [|a l IH]; simpl; [done|].
  destruct (f a); simpl.
  - rewrite <- Permutation_middle. by f_equiv.
  - by f_equiv.
Qed.

Lemma map_text_moveDown dy l :
  map Word.text (map (moveDown dy) l) = map Word.text l.
Proof. induction l; simpl; by f_equal. Qed.

Lemma spawnWord_pool_texts s rs :
  pool_texts (spawnWord s rs).1.2 ≡ₚ pool_texts s.
Proof.
  destruct (spawnWord_cases canvas_width measureText s rs)
    as [[-> _]
       | (_ & queue & missed' & rs1 & text & rest & Hq & Hqueue & ->)];
    [done|].
  unfold pool_texts. simpl. rewrite map_app. simpl.
  destruct Hq as [(Hp & Hm & Hs & ->) | (Hp & -> & -> & ->)].
  - rewrite Hp.
    pose proof (shuffle_Permutation (missedWords s) rs) as Hperm.
    rewrite <- Hs in Hperm. simpl in Hperm. rewrite <- Hperm, Hqueue.
    solve_Permutation.
  - rewrite Hqueue. solve_Permutation.
Qed.

Lemma spawnLoop_pool_texts fuel : ∀ s rs,
  pool_texts (spawnLoop fuel s rs).1 ≡ₚ pool_texts s.
Proof.
  induction fuel as [|fuel IH]; intros s rs; cbn [Game.spawnLoop]; [done|].
  destruct (Qle_bool 1 (spawnTimer s)); [|done].
  pose proof (spawnWord_pool_texts (set_spawnTimer (spawnTimer s - 1) s) rs)
    as H1.
  destruct (spawnWord (set_spawnTimer (spawnTimer s - 1) s) rs)
    as [[ok s1] rs1]. simpl in H1.
  by rewrite IH, H1.
Qed.


Lemma maybeFinishGame_pools s :
  pendingWords (maybeFinishGame s) = pendingWords s
  ∧ activeWords (maybeFinishGame s) = activeWords s
  ∧ missedWords (maybeFinishGame s) = missedWords s
  ∧ maxActiveWords (maybeFinishGame s) = maxActiveWords s
  ∧ scoreEl (page (maybeFinishGame s)) = scoreEl (page s)
  ∧ comboEl (page (maybeFinishGame s)) = comboEl (page s).
Proof.
  destruct (pools_empty_dec s) as [He | Hne].
  - by rewrite (maybeFinishGame_empty s He).
  - by rewrite (maybeFinishGame_nonempty s Hne).
Qed.

Lemma updateWorld_pool_texts dt rs s :
  pool_texts (updateWorld dt rs s) ≡ₚ pool_texts s.
Proof.
  unfold Game.updateWorld.
  set (s1 := set_spawnTimer (spawnTimer s + dt) s).
  pose proof (spawnLoop_pool_texts (Z.to_nat (Qfloor (spawnTimer s1))) s1 rs)
    as Hsp.
  destruct (spawnLoop (Z.to_nat (Qfloor (spawnTimer s1))) s1 rs)
    as [s2 rs2]. simpl in Hsp.
  change (pool_texts s1) with (pool_texts s) in Hsp. rewrite <- Hsp.
  rewrite fall_fold.
  match goal with
  | |- context [fold_left _ ?ws s2] =>
      destruct (misses_fields ws s2)
        as (_ & _ & _ & _ & _ & Hp3 & _ & Hm3 & _)
  end.
  unfold pool_texts at 1.
  match goal with
  | |- context [maybeFinishGame ?a] =>
      destruct (maybeFinishGame_pools a) as (-> & -> & -> & _)
  end.
  simpl. rewrite Hp3, Hm3. unfold pool_texts.
  match goal with
  | |- context [List.filter (atGround ?h) ?moved] =>
      pose proof (list_filter_partition (atGround h) moved) as Hpart
  end.
  rewrite <- (map_text_moveDown
                (speedToPixelsPerSecond canvas_height Math_pow (speedLevel s2)
                 * dt)%Q (activeWords s2)).
  rewrite <- Hpart at 3. rewrite map_app. solve_Permutation.
Qed.

Lemma handleControlKey_pools key s :
  pendingWords (handleControlKey key s) = pendingWords s
  ∧ missedWords (handleControlKey key s) = missedWords s
  ∧ maxActiveWords (handleControlKey key s) = maxActiveWords s
  ∧ page (handleControlKey key s) = page s.
Proof.
  unfold handleControlKey.
  destruct (String.eqb key "Backspace"); [|destruct (String.eqb key "Escape")];
    simpl; try done.
  destruct (String.length (inputBuffer s) =? 0)%nat; [done|].
  by destruct (String.length (dropLast (inputBuffer s)) =? 0)%nat.
Qed.

(** A keystroke takes at most one word out of the pools: the one it
    solves. *)
Lemma handleTypedCharacter_pool_texts ch s :
  ids_ok s → running s = true → frozen s = false → gameOver s = false →
  pool_texts s
  ≡ₚ keystroke_solved ch s ++ pool_texts (handleTypedCharacter ch s).
Proof.
  intros Hids Hr Hf Hg.
  rewrite (handleTypedCharacter_outcome ch s Hr Hf Hg).
  unfold keystroke_solved.
  set (s0 := if chain_break _ s then _ else s).
  assert (activeWords s0 = activeWords s ∧ pendingWords s0 = pendingWords s
          ∧ missedWords s0 = missedWords s) as (Ha0 & Hp0 & Hm0)
    by (unfold s0; by destruct (chain_break _ s)).
  destruct (resolve _ s) as [[b t]|] eqn:Hres.
  - apply resolve_Some, chooseTarget_Some, first_lowest_elem in Hres
      as [Hin Hm].
    cbn zeta. destruct (String.eqb b (Word.text t)).
    + destruct (remove_target s t Hids Hin) as (l1 & l2 & Hl & Hnot & Hrem).
      rewrite Hrem by done.
      unfold pool_texts. simpl. rewrite Hp0, Hm0, Hl, !map_app. simpl.
      solve_Permutation.
    + unfold pool_texts. simpl. by rewrite Ha0, Hp0, Hm0.
  - unfold pool_texts. simpl. by rewrite Ha0, Hp0, Hm0.
Qed.

Lemma apply_pool_texts e s :
  ids_ok s → in_session e →
  pool_texts s ≡ₚ solved e s ++ pool_texts (apply e s).
Proof.
  intros Hids He.
  destruct e as [words level acc maxWords rs | key | dt rs | |];
    [done|..]; cbn [Game.apply Game.solved].
  - unfold keydown, simulating.
    destruct (running s) eqn:Hr; [|done]. cbn [negb andb].
    destruct (isLetterKey key).
    + destruct (frozen s) eqn:Hf.
      { rewrite handleTypedCharacter_ignored by auto. done. }
      destruct (gameOver s) eqn:Hg.
      { rewrite handleTypedCharacter_ignored by auto. done. }
      by apply handleTypedCharacter_pool_texts.
    + rewrite andb_false_r. simpl.
      destruct (_ || _); [|done].
      unfold pool_texts.
      destruct (handleControlKey_pools key s) as (-> & -> & _).
      by destruct (handleControlKey_fields key s)
        as (_ & _ & _ & _ & _ & -> & _).
  - unfold Game.loop. destruct (_ && _); [|done]. simpl.
    by rewrite updateWorld_pool_texts.
  - unfold onWordSolved_resume, pool_texts. simpl.
    match goal with
    | |- context [maybeFinishGame ?a] =>
        by destruct (maybeFinishGame_pools a) as (-> & -> & -> & _)
    end.
  - done.
Qed.

Lemma run_pool_texts es : ∀ s,
  well_formed s → Forall in_session es →
  pool_texts s ≡ₚ solved_texts es s ++ pool_texts (run es s).
Proof.
  induction es as [|e es IH]; intros s Hwf Hall; simpl; [done|].
  apply Forall_cons in Hall as [He Hall].
  pose proof Hwf as (_ & _ & Hids & _).
  rewrite (apply_pool_texts e s Hids He) at 1.
  rewrite (IH (apply e s)) at 1;
    [|by apply apply_well_formed | done].
  by rewrite app_assoc.
Qed.


(** ** Strings *)

Lemma list_ascii_of_string_app (a b : string) :
  list_ascii_of_string (a ++ b)
  = list_ascii_of_string a ++ list_ascii_of_string b.
Proof. induction a as [|c a IH]; simpl; [done | by rewrite IH]. Qed.

Lemma list_ascii_of_substring_0 (n : nat) : ∀ b : string,
  list_ascii_of_string (String.substring 0 n b)
  = take n (list_ascii_of_string b).
Proof.
  induction n as [|n IH]; intros [|c b]; simpl; try done.
  by rewrite IH.
Qed.

Lemma prefix_substring_0 (n : nat) : ∀ b t : string,
  String.prefix b t = true → String.prefix (String.substring 0 n b) t = true.
Proof.
  induction n as [|n IH]; intros [|c b] [|d t]; simpl; try done.
  destruct (ascii_dec c d); [|done]. apply IH.
Qed.

Lemma string_length_0 (b : string) : String.length b = 0%nat → b = EmptyString.
Proof. by destruct b. Qed.

Lemma string_app_nonempty (a b : string) :
  b ≠ EmptyString → (a ++ b)%string ≠ EmptyString.
Proof. by destruct a, b. Qed.

Lemma lowercase_empty : lowercase EmptyString.
Proof. constructor. Qed.

Lemma lowercase_app a b : lowercase a → lowercase b → lowercase (a ++ b).
Proof.
  unfold lowercase. rewrite list_ascii_of_string_app, Forall_app. done.
Qed.

Lemma lowercase_dropLast b : lowercase b → lowercase (dropLast b).
Proof.
  unfold lowercase, dropLast. rewrite list_ascii_of_substring_0.
  apply Forall_take.
Qed.

(** A letter key, lowercased, is one lowercase letter. *)
Lemma letterKey_lower key :
  isLetterKey key = true →
  toLowerCase key ≠ EmptyString ∧ lowercase (toLowerCase key)
  ∧ String.length (toLowerCase key) = 1%nat.
Proof.
  destruct key as [|c [|d key]]; try done. unfold isLetterKey. intros H.
  split; [done|]. split; [|done]. repeat constructor.
  unfold isLowerLetter, lowerAscii.
  destruct ((65 <=? nat_of_ascii c) && (nat_of_ascii c <=? 90))%nat eqn:Hup.
  - apply andb_prop in Hup as [H1%Nat.leb_le H2%Nat.leb_le].
    rewrite nat_ascii_embedding by lia.
    apply andb_true_intro. split; apply Nat.leb_le; lia.
  - rewrite orb_false_l in H. exact H.
Qed.


(** ** The session invariant *)

Lemma replay_triangle es : ∀ c sc,
  0 <= c → triangle (Z.to_nat c) <= sc →
  0 <= (replay es (c, sc)).1
  ∧ triangle (Z.to_nat (replay es (c, sc)).1) <= (replay es (c, sc)).2.
Proof.
  induction es as [|e es IH]; intros c sc Hc Ht; simpl; [done|].
  assert (0 <= triangle (Z.to_nat c)) as Hnn.
  { clear. induction (Z.to_nat c) as [|n IHn]; simpl; lia. }
  destruct e; simpl; apply IH; try lia; try (simpl; lia).
  replace (Z.to_nat (c + 1)) with (S (Z.to_nat c)) by lia.
  cbn [triangle]. lia.
Qed.

Lemma apply_triangle e s :
  0 <= combo s ∧ triangle (Z.to_nat (combo s)) <= score s →
  0 <= combo (apply e s)
  ∧ triangle (Z.to_nat (combo (apply e s))) <= score (apply e s).
Proof.
  intros [Hc Ht].
  pose proof (replay_triangle
                (scoring canvas_width canvas_height measureText Math_pow e s)
                (combo s) (score s) Hc Ht) as H.
  by rewrite <- apply_scoring in H.
Qed.

Lemma spawnWord_cap s rs :
  Z.of_nat (length (activeWords s)) <= maxActiveWords s →
  maxActiveWords (spawnWord s rs).1.2 = maxActiveWords s
  ∧ Z.of_nat (length (activeWords (spawnWord s rs).1.2))
    <= maxActiveWords s.
Proof.
  intros Hcap.
  destruct (spawnWord_cases canvas_width measureText s rs)
    as [[-> _]
       | (Hroom & queue & missed' & rs1 & text & rest & _ & _ & ->)];
    [done|].
  simpl. rewrite length_app. simpl. split; [done | lia].
Qed.

Lemma spawnLoop_cap fuel : ∀ s rs,
  Z.of_nat (length (activeWords s)) <= maxActiveWords s →
  maxActiveWords (spawnLoop fuel s rs).1 = maxActiveWords s
  ∧ Z.of_nat (length (activeWords (spawnLoop fuel s rs).1))
    <= maxActiveWords s.
Proof.
  induction fuel as [|fuel IH]; intros s rs Hcap; cbn [Game.spawnLoop];
    [done|].
  destruct (Qle_bool 1 (spawnTimer s)); [|done].
  destruct (spawnWord_cap (set_spawnTimer (spawnTimer s - 1) s) rs Hcap)
    as [Hm1 Hc1].
  destruct (spawnWord (set_spawnTimer (spawnTimer s - 1) s) rs)
    as [[ok s1] rs1]. simpl in Hm1, Hc1.
  destruct (IH s1 rs1) as [Hm2 Hc2]; [by rewrite Hm1|].
  split; [by rewrite Hm2, Hm1 | by rewrite <- Hm1].
Qed.

Lemma misses_maxActiveWords ws : ∀ s,
  maxActiveWords (fold_left (λ s w, onWordMissed w s) ws s)
  = maxActiveWords s.
Proof.
  induction ws as [|w ws IH]; intros s; simpl; [done|].
  rewrite IH. unfold onWordMissed. by case_bool_decide.
Qed.

Lemma list_filter_length {A} (f : A → bool) (l : list A) :
  (length (List.filter f l) <= length l)%nat.
Proof. apply sublist_length, list_filter_sublist. Qed.

(** Splits [session_ok] into its seven parts. *)
#[local] Ltac split_session :=
  unfold session_ok; split; [|split; [|split; [|split; [|split; [|split]]]]].

Lemma handleTypedCharacter_session ch s :
  isLetterKey ch = true → running s = true →
  session_ok s → session_ok (handleTypedCharacter ch s).
Proof.
  intros Hkey Hrun Hok.
  pose proof Hok as (Hover & Hfr & Hmax & Hcap & Htri & Hbt & Hlow).
  destruct (handleTypedCharacter_guard ch s) as [-> | (Hr & Hf & Hg)];
    [done|].
  destruct (letterKey_lower ch Hkey) as (Hne & Hlc & _).
  destruct Htri as [Hc Ht].
  pose proof (replay_triangle (keystroke_events ch s) (combo s) (score s)
                Hc Ht) as Htri'.
  rewrite <- (handleTypedCharacter_scoring ch s Hr Hf Hg) in Htri'.
  destruct (handleTypedCharacter_fields ch s)
    as (Hr' & Hg' & Hn' & Hs' & _ & _).
  assert (maxActiveWords (handleTypedCharacter ch s) = maxActiveWords s
          ∧ (inputBuffer (handleTypedCharacter ch s) = EmptyString
             ↔ targetWordId (handleTypedCharacter ch s) = None)
          ∧ lowercase (inputBuffer (handleTypedCharacter ch s)))
    as (Hmax' & Hbt' & Hlow').
  { rewrite (handleTypedCharacter_outcome ch s Hr Hf Hg).
    set (s0 := if chain_break _ s then _ else s).
    assert (maxActiveWords s0 = maxActiveWords s) as Hm0
      by (unfold s0; by destruct (chain_break _ s)).
    destruct (resolve _ s) as [[b t]|] eqn:Hres.
    - assert (b = (inputBuffer s ++ toLowerCase ch)%string
              ∨ b = toLowerCase ch) as Hcand.
      { unfold resolve in Hres.
        destruct (chooseTarget (inputBuffer s ++ toLowerCase ch) s);
          [left; congruence|].
        destruct (chooseTarget (toLowerCase ch) s);
          [right; congruence | done]. }
      assert (b ≠ EmptyString ∧ lowercase b) as [Hbne Hblow].
      { destruct Hcand as [-> | ->]; split; try done.
        - by apply string_app_nonempty.
        - by apply lowercase_app. }
      cbn zeta. destruct (String.eqb b (Word.text t)).
      + unfold removeActiveWordById.
        destruct (list_find _ _) as [[index removed]|]; simpl;
          (split_and!; [done | done | apply lowercase_empty]).
      + simpl. split_and!; [done | | done].
        split; [done | discriminate].
    - simpl. split_and!; [done | done | apply lowercase_empty]. }
  split_session.
  - rewrite Hg', Hg. discriminate.
  - intros _. by rewrite Hr'.
  - by rewrite Hmax'.
  - rewrite Hmax'. apply sublist_length in Hs'. lia.
  - exact Htri'.
  - exact Hbt'.
  - exact Hlow'.
Qed.

Lemma handleControlKey_session key s :
  target_ok s → session_ok s → session_ok (handleControlKey key s).
Proof.
  intros Htok (Hover & Hfr & Hmax & Hcap & Htri & Hbt & Hlow).
  destruct (handleControlKey_fields key s)
    as (Hr' & Hf' & Hg' & Hsc' & Hc' & Ha' & Hn').
  destruct (handleControlKey_pools key s) as (Hp' & Hm' & Hmax' & _).
  split_session.
  - rewrite Hg', Hr'. unfold pools_empty. by rewrite Hp', Ha', Hm'.
  - by rewrite Hf', Hr'.
  - by rewrite Hmax'.
  - by rewrite Hmax', Ha'.
  - by rewrite Hc', Hsc'.
  - unfold handleControlKey.
    destruct (String.eqb key "Backspace");
      [|destruct (String.eqb key "Escape")]; try done.
    destruct (String.length (inputBuffer s) =? 0)%nat eqn:Hlen; [done|].
    simpl.
    destruct (String.length (dropLast (inputBuffer s)) =? 0)%nat eqn:Hlen'.
    { apply Nat.eqb_eq, string_length_0 in Hlen'. simpl. by rewrite Hlen'. }
    simpl.
    assert (dropLast (inputBuffer s) ≠ EmptyString) as Hne.
    { intros Heq. by rewrite Heq in Hlen'. }
    destruct (targetWordId s) as [i|] eqn:Hts.
    2: { destruct Hbt as [_ Hb]. rewrite (Hb eq_refl) in Hlen. done. }
    destruct (Htok i Hts) as (w & Hw & Hwi & Hwm).
    match goal with
    | |- context [chooseTarget ?b ?a] =>
        rewrite (chooseTarget_activeWords b s a eq_refl);
        destruct (chooseTarget b s) as [t|] eqn:Hc
    end.
    + split; [done | discriminate].
    + exfalso. eapply chooseTarget_None; [exact Hc | exact Hw |].
      by apply prefix_substring_0.
  - unfold handleControlKey.
    destruct (String.eqb key "Backspace");
      [|destruct (String.eqb key "Escape")]; try done;
      [|apply lowercase_empty].
    destruct (String.length (inputBuffer s) =? 0)%nat; [done|]. simpl.
    destruct (String.length (dropLast (inputBuffer s)) =? 0)%nat; simpl;
      by apply lowercase_dropLast.
Qed.

Lemma keydown_session_ok key s :
  target_ok s → session_ok s → session_ok (keydown key s).
Proof.
  intros Htok Hok. unfold keydown.
  destruct (running s) eqn:Hr; [|done]. cbn [negb].
  destruct (isLetterKey key) eqn:Hkey.
  - by apply handleTypedCharacter_session.
  - destruct (_ || _); [|done]. by apply handleControlKey_session.
Qed.


Lemma maybeFinishGame_over s :
  (gameOver s = true → running s = false ∧ pools_empty s) →
  gameOver (maybeFinishGame s) = true →
  running (maybeFinishGame s) = false ∧ pools_empty (maybeFinishGame s).
Proof.
  intros H. destruct (pools_empty_dec s) as [He | Hne].
  - rewrite (maybeFinishGame_empty s He). intros _. split; [done | exact He].
  - by rewrite (maybeFinishGame_nonempty s Hne).
Qed.

Lemma loop_session_ok dt rs s :
  session_ok s → session_ok (loop dt rs s).
Proof.
  intros Hok.
  pose proof Hok as (Hover & Hfr & Hmax & Hcap & Htri & Hbt & Hlow).
  pose proof (apply_triangle (Frame dt rs) s Htri) as Htri'.
  cbn [Game.apply] in Htri'. revert Htri'.
  unfold Game.loop.
  destruct (running s && negb (frozen s) && negb (gameOver s)) eqn:Hsim;
    [|done].
  apply andb_prop in Hsim as [[Hr Hf%negb_true_iff]%andb_prop
                                Hg%negb_true_iff].
  unfold Game.updateWorld.
  set (s1 := set_spawnTimer (spawnTimer s + dt) s).
  destruct (spawnLoop_spawned canvas_width measureText
              (Z.to_nat (Qfloor (spawnTimer s1))) s1 rs) as [news Hsp].
  destruct (spawnLoop_cap (Z.to_nat (Qfloor (spawnTimer s1))) s1 rs Hcap)
    as [Hmax2 Hcap2].
  destruct (spawnLoop (Z.to_nat (Qfloor (spawnTimer s1))) s1 rs)
    as [s2 rs2]. simpl in Hsp, Hmax2, Hcap2.
  destruct Hsp as (_ & _ & _ & Hr2 & Hf2 & Hg2 & _ & _ & Hb2 & Ht2 & _).
  rewrite fall_fold.
  match goal with
  | |- context [fold_left _ ?ws s2] =>
      destruct (misses_fields ws s2)
        as (Hr3 & Hf3 & Hg3 & _ & _ & _ & _ & _ & _ & Hhit & Hoth);
      pose proof (misses_maxActiveWords ws s2) as Hmax3;
      destruct (hit_or_not ws (targetWordId s2)) as [Hex | Hnex]
  end.
  all: match goal with
       | |- context [maybeFinishGame ?a] => set (s4 := a)
       end.
  all: destruct (maybeFinishGame_fields s4)
         as (Hf5 & _ & _ & Hb5 & Ht5 & Ha5 & _).
  all: destruct (maybeFinishGame_pools s4) as (_ & _ & _ & Hmax5 & _).
  all: intros Htri'; split_session.
  all: try exact Htri'.
  all: try (apply maybeFinishGame_over; unfold s4; simpl;
            rewrite Hg3, Hg2; simpl; rewrite Hg; discriminate).
  all: try (rewrite Hf5; unfold s4; simpl; rewrite Hf3, Hf2; simpl;
            rewrite Hf; discriminate).
  all: try (rewrite Hmax5; unfold s4; simpl; rewrite Hmax3, Hmax2; exact Hmax).
  all: try (rewrite Hmax5, Ha5; unfold s4; simpl; rewrite Hmax3, Hmax2;
            etransitivity; [|exact Hcap2];
            apply inj_le; etransitivity; [apply list_filter_length|];
            by rewrite length_map).
  - destruct (Hhit Hex) as [Ht3 Hb3]. rewrite Hb5, Ht5. unfold s4. simpl.
    by rewrite Ht3, Hb3.
  - destruct (Hhit Hex) as [Ht3 Hb3]. rewrite Hb5. unfold s4. simpl.
    rewrite Hb3. apply lowercase_empty.
  - destruct (Hoth Hnex) as [Ht3 Hb3]. rewrite Hb5, Ht5. unfold s4. simpl.
    by rewrite Ht3, Hb3, Ht2, Hb2.
  - destruct (Hoth Hnex) as [Ht3 Hb3]. rewrite Hb5. unfold s4. simpl.
    by rewrite Hb3, Hb2.
Qed.

Lemma onWordSolved_resume_session_ok s :
  session_ok s → session_ok (onWordSolved_resume s).
Proof.
  intros (Hover & Hfr & Hmax & Hcap & Htri & Hbt & Hlow).
  unfold onWordSolved_resume.
  match goal with
  | |- context [maybeFinishGame ?a] => set (s4 := a)
  end.
  destruct (maybeFinishGame_fields s4)
    as (Hf5 & Hsc5 & Hc5 & Hb5 & Ht5 & Ha5 & _).
  destruct (maybeFinishGame_pools s4) as (_ & _ & _ & Hmax5 & _).
  split_session.
  - by apply maybeFinishGame_over.
  - by rewrite Hf5.
  - by rewrite Hmax5.
  - by rewrite Hmax5, Ha5.
  - by rewrite Hc5, Hsc5.
  - by rewrite Hb5, Ht5.
  - by rewrite Hb5.
Qed.

Lemma goToSetup_session_ok s : session_ok s → session_ok (goToSetup s).
Proof.
  intros (Hover & Hfr & Hmax & Hcap & Htri & Hbt & Hlow).
  split_session; try done. apply lowercase_empty.
Qed.

Lemma startGame_session_ok words level acc maxWords rs s :
  session_ok s → session_ok (startGame words level acc maxWords rs s).
Proof.
  intros Hok.
  pose proof Hok as (Hover & Hfr & Hmax & Hcap & Htri & Hbt & Hlow).
  destruct words as [|w ws] eqn:Hw; [done|]. rewrite <- Hw.
  destruct (startGame_unfold canvas_width measureText words level acc
              maxWords rs s) as (pending & rs' & ->); [by rewrite Hw|].
  match goal with
  | |- context [spawnWord ?a rs'] => set (s1 := a)
  end.
  destruct (spawnWord_spawned canvas_width measureText s1 rs')
    as [news Hsp].
  destruct (spawnWord_cap s1 rs') as [Hmax2 Hcap2].
  { unfold s1. simpl. lia. }
  destruct Hsp as (_ & _ & _ & Hr2 & Hf2 & Hg2 & Hsc2 & Hc2 & Hb2 & Ht2 & _).
  split_session.
  - by rewrite Hg2.
  - by rewrite Hf2.
  - by rewrite Hmax2.
  - by rewrite Hmax2.
  - by rewrite Hc2, Hsc2.
  - by rewrite Hb2, Ht2.
  - rewrite Hb2. apply lowercase_empty.
Qed.

Lemma apply_session_ok e s :
  target_ok s → session_ok s → session_ok (apply e s).
Proof.
  intros Htok Hok. destruct e; cbn [Game.apply].
  - by apply startGame_session_ok.
  - by apply keydown_session_ok.
  - by apply loop_session_ok.
  - by apply onWordSolved_resume_session_ok.
  - by apply goToSetup_session_ok.
Qed.

Lemma run_session_ok es : ∀ s,
  target_ok s → session_ok s → session_ok (run es s).
Proof.
  induction es as [|e es IH]; intros s Htok Hok; simpl; [done|].
  apply IH; [by apply apply_target | by apply apply_session_ok].
Qed.

Lemma initial_session_ok p : session_ok (initial p).
Proof. split_session; try done. apply lowercase_empty. Qed.

Lemma reachable_session_ok s : reachable s → session_ok s.
Proof.
  intros (p & es & ->).
  apply run_session_ok; [by apply target_ok_cleared|].
  apply initial_session_ok.
Qed.


(** ** What holds of every reachable state *)

(** X1.  Along a session no word is lost or duplicated: the texts in the
    three pools before a run are, as a multiset, the texts the run solved
    together with the texts left in the pools.  A frame only moves texts
    between pools (pending to active on a spawn, missed back to pending on
    a refill, active to missed at the ground), and a keystroke takes out
    exactly the word it solves. *)
Theorem session_words_conserved (es : list Event) (s : State) :
  reachable s → Forall in_session es →
  pool_texts s ≡ₚ solved_texts es s ++ pool_texts (run es s).
Proof.
  intros Hreach Hall. apply run_pool_texts; [|done].
  by apply (reachable_well_formed canvas_width canvas_height measureText
              Math_pow).
Qed.

(** X2.  When a session ends with [gameOver] set, the words solved during
    it are exactly the words the game started with, each as often as it
    occurred. *)
Theorem finished_game_solved_every_word
    (words : list string) (level : Q) (acc : string) (maxWords : Z)
    (rs : Rand) (es : list Event) (s : State) :
  reachable s → Forall in_session es →
  gameOver (run es (startGame words level acc maxWords rs s)) = true →
  solved_texts es (startGame words level acc maxWords rs s)
  ≡ₚ pool_texts (startGame words level acc maxWords rs s).
Proof.
  intros Hreach Hall Hover.
  assert (reachable (startGame words level acc maxWords rs s)) as Hreach0.
  { destruct Hreach as (p & es0 & ->).
    exists p, (es0 ++ [Start words level acc maxWords rs]).
    unfold Game.run. by rewrite fold_left_app. }
  assert (reachable (run es (startGame words level acc maxWords rs s)))
    as Hreach1.
  { destruct Hreach0 as (p & es0 & ->).
    exists p, (es0 ++ es). unfold Game.run. by rewrite fold_left_app. }
  destruct (reachable_session_ok _ Hreach1) as (Hend & _).
  destruct (Hend Hover) as (_ & Hp & Ha & Hm).
  pose proof (run_pool_texts es _ (reachable_well_formed _ _ _ _ _ Hreach0)
                Hall) as Hcons.
  assert (pool_texts (run es (startGame words level acc maxWords rs s)) = [])
    as Hnil by (unfold pool_texts; by rewrite Hp, Ha, Hm).
  rewrite Hnil, app_nil_r in Hcons. by symmetry.
Qed.


(** X3.  A game started on a non-empty word list is running, not frozen,
    not over, with score and combo 0 and nothing typed.  Its pools hold the
    normalized words (lowercased, trimmed, empty ones dropped): all of them
    when no limit is set, and otherwise a selection of them of the size of
    the limit, or of the list when that is shorter. *)
Theorem startGame_plays_the_wordbook
    (words : list string) (level : Q) (acc : string) (maxWords : Z)
    (rs : Rand) (s : State) :
  words ≠ [] →
  let s' := startGame words level acc maxWords rs s in
  running s' = true ∧ frozen s' = false ∧ gameOver s' = false
  ∧ score s' = 0 ∧ combo s' = 0
  ∧ inputBuffer s' = EmptyString ∧ targetWordId s' = None
  ∧ missedWords s' = []
  ∧ (maxWords <= 0 → pool_texts s' ≡ₚ normalizedWords words)
  ∧ (0 < maxWords →
     pool_texts s' ⊆+ normalizedWords words
     ∧ length (pool_texts s')
       = Nat.min (Z.to_nat maxWords) (length (normalizedWords words))).
Proof.
  intros Hne. cbv zeta. unfold Game.startGame.
  destruct words as [|w ws]; [done|]. cbn [length Nat.eqb]. cbv zeta.
  change (List.filter _ (map _ (w :: ws))) with (normalizedWords (w :: ws)).
  set (nw := normalizedWords (w :: ws)).
  set (s0 := set_accent acc (set_speedLevel level (resetRuntimeState s))).
  assert (∀ pending rs',
            pool_texts (spawnWord (set_pendingWords pending s0) rs').1.2
            ≡ₚ pending) as Hpool.
  { intros pending rs'. rewrite spawnWord_pool_texts.
    unfold pool_texts. simpl. by rewrite app_nil_r. }
  assert (∀ pending rs',
            let s' := (spawnWord (set_pendingWords pending s0) rs').1.2 in
            running s' = true ∧ frozen s' = false ∧ gameOver s' = false
            ∧ score s' = 0 ∧ combo s' = 0
            ∧ inputBuffer s' = EmptyString ∧ targetWordId s' = None
            ∧ missedWords s' = []) as Hfields.
  { intros pending rs'. cbv zeta.
    destruct (spawnWord_cases canvas_width measureText
                (set_pendingWords pending s0) rs')
      as [[-> _]
         | (_ & queue & missed' & rs1 & text & rest & Hq & _ & ->)];
      [done|].
    simpl. split_and!; try done.
    destruct Hq as [(_ & Hm & _) | (_ & _ & _ & ->)]; done. }
  destruct (0 <? maxWords) eqn:Hmax.
  - apply Z.ltb_lt in Hmax.
    pose proof (shuffle_Permutation nw rs) as Hperm1.
    destruct (shuffle nw rs) as [shuffled rs1]. simpl in Hperm1.
    set (k := Z.to_nat (Z.min maxWords (Z.of_nat (length nw)))).
    pose proof (shuffle_Permutation (take k shuffled) rs1) as Hperm2.
    destruct (shuffle (take k shuffled) rs1) as [pending rs2].
    simpl in Hperm2.
    specialize (Hpool pending rs2). specialize (Hfields pending rs2).
    destruct (spawnWord (set_pendingWords pending s0) rs2)
      as [[ok s'] rs3]. simpl in *.
    destruct Hfields as (? & ? & ? & ? & ? & ? & ? & ?).
    split_and!; try done; try lia.
    intros _. split.
    + rewrite Hpool, Hperm2, <- Hperm1.
      apply sublist_submseteq, sublist_take.
    + rewrite Hpool, Hperm2, length_take.
      rewrite (Permutation_length Hperm1). unfold k. lia.
  - apply Z.ltb_ge in Hmax.
    pose proof (shuffle_Permutation nw rs) as Hperm1.
    destruct (shuffle nw rs) as [pending rs1]. simpl in Hperm1.
    specialize (Hpool pending rs1). specialize (Hfields pending rs1).
    destruct (spawnWord (set_pendingWords pending s0) rs1)
      as [[ok s'] rs3]. simpl in *.
    destruct Hfields as (? & ? & ? & ? & ? & ? & ? & ?).
    split_and!; try done; try lia.
    intros _. by rewrite Hpool.
Qed.

(** X4.  In every state the engine reaches, at most 8 words are on
    screen: the cap [maxActiveWords] stays at 8 and [spawnWord] is the only
    operation that adds a word. *)
Theorem active_words_capped (s : State) :
  reachable s →
  maxActiveWords s = 8 ∧ (length (activeWords s) <= 8)%nat.
Proof.
  intros H. destruct (reachable_session_ok s H) as (_ & _ & Hmax & Hcap & _).
  split; [done | lia].
Qed.

(** X5.  Completion is sound: in every reachable state with [gameOver]
    set, the game is not running and the three pools are empty; keys and
    frames then leave the state as it is. *)
Theorem game_over_means_done (s : State) :
  reachable s → gameOver s = true →
  running s = false ∧ pools_empty s
  ∧ (∀ key, keydown key s = s) ∧ (∀ dt rs, loop dt rs s = s).
Proof.
  intros H Hover. destruct (reachable_session_ok s H) as (Hend & _).
  destruct (Hend Hover) as [Hr He]. split_and!; try done.
  - intros key. unfold keydown. by rewrite Hr.
  - intros dt rs. unfold Game.loop. by rewrite Hr.
Qed.

(** X6.  In every reachable state the combo is not negative and the score
    is at least 1 + 2 + ... + combo: the solves of the current streak alone
    have paid that much. *)
Theorem score_covers_combo (s : State) :
  reachable s →
  0 <= combo s ∧ triangle (Z.to_nat (combo s)) <= score s
  ∧ combo s <= score s.
Proof.
  intros H.
  destruct (reachable_session_ok s H) as (_ & _ & _ & _ & [Hc Ht] & _).
  split_and!; try done.
  assert (∀ n, Z.of_nat n <= triangle n) as Hn.
  { induction n as [|n IHn]; cbn [triangle]; lia. }
  specialize (Hn (Z.to_nat (combo s))). lia.
Qed.

(** X7.  In every reachable state there is typed text exactly when there
    is a target, the typed text consists of the letters a-z, and the
    targeted word starts with it. *)
Theorem typed_text_has_target (s : State) :
  reachable s →
  (inputBuffer s = EmptyString ↔ targetWordId s = None)
  ∧ lowercase (inputBuffer s)
  ∧ (inputBuffer s ≠ EmptyString →
     ∃ w, w ∈ activeWords s ∧ targetWordId s = Some (Word.id w)
       ∧ matching (inputBuffer s) w).
Proof.
  intros H.
  destruct (reachable_session_ok s H) as (_ & _ & _ & _ & _ & Hbt & Hlow).
  split_and!; try done.
  intros Hne. destruct (targetWordId s) as [i|] eqn:Hts.
  - destruct (reachable_target_ok canvas_width canvas_height measureText
                Math_pow s H i Hts) as (w & Hw & Hi & Hm).
    exists w. by rewrite Hi.
  - destruct Hbt as [_ Hb]. by destruct Hne, Hb.
Qed.


(** ** The display *)

Lemma spawnWord_page s rs :
  page (spawnWord s rs).1.2 = page s.
Proof.
  by destruct (spawnWord_cases canvas_width measureText s rs)
    as [[-> _] | (_ & queue & missed' & rs1 & text & rest & _ & _ & ->)].
Qed.

Lemma spawnLoop_page fuel : ∀ s rs, page (spawnLoop fuel s rs).1 = page s.
Proof.
  induction fuel as [|fuel IH]; intros s rs; cbn [Game.spawnLoop]; [done|].
  destruct (Qle_bool 1 (spawnTimer s)); [|done].
  pose proof (spawnWord_page (set_spawnTimer (spawnTimer s - 1) s) rs) as H1.
  destruct (spawnWord (set_spawnTimer (spawnTimer s - 1) s) rs)
    as [[ok s1] rs1]. simpl in H1.
  by rewrite IH, H1.
Qed.

Lemma onWordMissed_hud w s : hud_ok (onWordMissed w s).
Proof. unfold hud_ok, onWordMissed. by case_bool_decide. Qed.

Lemma misses_hud ws : ∀ s,
  hud_ok s → hud_ok (fold_left (λ s w, onWordMissed w s) ws s).
Proof.
  induction ws as [|w ws IH]; intros s H; simpl; [done|].
  apply IH, onWordMissed_hud.
Qed.

Lemma handleTypedCharacter_hud ch s :
  hud_ok s → hud_ok (handleTypedCharacter ch s).
Proof.
  intros [Hs Hc].
  destruct (handleTypedCharacter_guard ch s) as [-> | (Hr & Hf & Hg)];
    [done|].
  rewrite (handleTypedCharacter_outcome ch s Hr Hf Hg).
  unfold hud_ok, removeActiveWordById.
  destruct (chain_break _ s), (resolve _ s) as [[b t]|]; cbn zeta;
    try destruct (String.eqb b (Word.text t));
    try destruct (list_find _ _) as [[index removed]|];
    simpl; done.
Qed.

(** X8.  The HUD never goes stale: starting a game puts the score and the
    combo on the page, and from then on every engine event leaves the page
    showing the current score and combo. *)
Theorem hud_stays_in_sync (e : Event) (s : State) :
  hud_ok s
  ∨ (∃ words level acc maxWords rs,
       e = Start words level acc maxWords rs ∧ words ≠ []) →
  hud_ok (apply e s).
Proof.
  assert (∀ words level acc maxWords rs s0,
            words ≠ [] → hud_ok (startGame words level acc maxWords rs s0))
    as Hstart.
  { intros words level acc maxWords rs s0 Hne.
    destruct (startGame_unfold canvas_width measureText words level acc
                maxWords rs s0 Hne) as (pending & rs' & ->).
    match goal with
    | |- context [spawnWord ?a rs'] =>
        pose proof (spawnWord_page a rs') as Hp;
        destruct (spawnWord_spawned canvas_width measureText a rs')
          as [news Hsp]
    end.
    destruct Hsp as (_ & _ & _ & _ & _ & _ & Hsc & Hc & _).
    unfold hud_ok. by rewrite Hp, Hsc, Hc. }
  intros [Hhud | (words & level & acc & maxWords & rs & -> & Hne)].
  2:{ cbn [Game.apply]. destruct words as [|w ws]; [done|]. by apply Hstart. }
  destruct e as [words level acc maxWords rs | key | dt rs | |];
    cbn [Game.apply].
  - destruct words as [|w ws]; [done|]. by apply Hstart.
  - destruct (keydown_cases key s) as [-> | [-> | ->]]; [done|..].
    + by apply handleTypedCharacter_hud.
    + unfold hud_ok.
      destruct (handleControlKey_pools key s) as (_ & _ & _ & ->).
      by destruct (handleControlKey_fields key s)
        as (_ & _ & _ & -> & -> & _).
  - unfold Game.loop. destruct (_ && _); [|done].
    unfold Game.updateWorld.
    set (s1 := set_spawnTimer (spawnTimer s + dt) s).
    pose proof (spawnLoop_page (Z.to_nat (Qfloor (spawnTimer s1))) s1 rs)
      as Hp.
    destruct (spawnLoop_spawned canvas_width measureText
                (Z.to_nat (Qfloor (spawnTimer s1))) s1 rs) as [news Hsp].
    destruct (spawnLoop (Z.to_nat (Qfloor (spawnTimer s1))) s1 rs)
      as [s2 rs2]. simpl in Hp, Hsp.
    destruct Hsp as (_ & _ & _ & _ & _ & _ & Hsc & Hc & _).
    assert (hud_ok s2) as Hhud2.
    { unfold hud_ok. rewrite Hp, Hsc, Hc. exact Hhud. }
    rewrite fall_fold.
    match goal with
    | |- context [fold_left _ ?ws s2] =>
        pose proof (misses_hud ws s2 Hhud2) as [Hs3 Hc3]
    end.
    match goal with
    | |- context [maybeFinishGame ?a] =>
        destruct (maybeFinishGame_pools a) as (_ & _ & _ & _ & Hs5 & Hc5);
        destruct (maybeFinishGame_fields a) as (_ & Hsc5 & Hcc5 & _)
    end.
    unfold hud_ok. rewrite Hs5, Hc5, Hsc5, Hcc5. simpl. done.
  - unfold onWordSolved_resume.
    match goal with
    | |- context [maybeFinishGame ?a] =>
        destruct (maybeFinishGame_pools a) as (_ & _ & _ & _ & Hs5 & Hc5);
        destruct (maybeFinishGame_fields a) as (_ & Hsc5 & Hcc5 & _)
    end.
    unfold hud_ok. rewrite Hs5, Hc5, Hsc5, Hcc5. simpl. exact Hhud.
  - exact Hhud.
Qed.

Lemma prefix_split : ∀ p t : string,
  String.prefix p t = true →
  (p ++ sliceFrom (String.length p) t)%string = t.
Proof.
  unfold sliceFrom.
  induction p as [|c p IH]; intros [|d t]; simpl; try done.
  - intros _. f_equal.
    clear. induction t as [|c t IH]; simpl; [done|]. by rewrite IH.
  - destruct (ascii_dec c d) as [-> | ]; [|done].
    intros H. f_equal. by apply IH.
Qed.

(** X9.  [drawWord] on an active word of a reachable state never uses the
    colour of a target that does not match the typed text: the targeted
    word is drawn as the typed prefix followed by the rest of its text,
    every other word in one piece, and in both cases the pieces make up the
    text of the word, starting at its position. *)
Theorem drawWord_never_mismatched (s : State) (w : Word.t) :
  reachable s → w ∈ activeWords s →
  Forall (λ call, fillStyle call ≠ "#d95d39"%string) (drawWord w s)
  ∧ String.concat EmptyString (map filled (drawWord w s)) = Word.text w
  ∧ (∃ call rest, drawWord w s = call :: rest
       ∧ fillX call = Word.x w ∧ fillY call = Word.y w)
  ∧ (targetWordId s = Some (Word.id w) →
     map filled (drawWord w s)
     = [inputBuffer s;
        sliceFrom (String.length (inputBuffer s)) (Word.text w)]).
Proof.
  intros Hreach Hw.
  destruct (reachable_session_ok s Hreach)
    as (_ & _ & _ & _ & _ & Hbt & _).
  destruct (reachable_well_formed canvas_width canvas_height measureText
              Math_pow s Hreach) as (_ & _ & Hids & _).
  pose proof (reachable_target_ok canvas_width canvas_height measureText
                Math_pow s Hreach) as Htok.
  unfold Game.drawWord. case_bool_decide as Ht.
  - destruct (Htok _ Ht) as (w' & Hw' & Hi' & Hm').
    assert (w' = w) as -> by (by eapply ids_ok_unique).
    assert (inputBuffer s ≠ EmptyString) as Hne.
    { intros Hb. apply Hbt in Hb. congruence. }
    apply String.eqb_neq in Hne. rewrite Hne. unfold matching in Hm'.
    rewrite Hm'. simpl. split_and!.
    + repeat constructor; discriminate.
    + by apply prefix_split.
    + eauto.
    + done.
  - simpl. split_and!.
    + repeat constructor; discriminate.
    + done.
    + eauto.
    + done.
Qed.


(** ** Backspace *)

Lemma substring_0_app (b c : string) :
  String.substring 0 (String.length b) (b ++ c) = b.
Proof.
  induction b as [|a b IH]; simpl.
  - by destruct c.
  - by rewrite IH.
Qed.

Lemma string_length_app (b c : string) :
  String.length (b ++ c) = (String.length b + String.length c)%nat.
Proof. induction b as [|a b IH]; simpl; [done | by rewrite IH]. Qed.

Lemma dropLast_app (b c : string) :
  String.length c = 1%nat → dropLast (b ++ c) = b.
Proof.
  intros Hc. unfold dropLast. rewrite string_length_app, Hc.
  replace (String.length b + 1 - 1)%nat with (String.length b) by lia.
  apply substring_0_app.
Qed.

(** X10.  Backspace undoes a keystroke that extended the typed text
    without solving a word: the buffer is what it was before the keystroke
    and nothing else has changed, except that the target is resolved afresh
    against that buffer (none when the buffer is empty). *)
Theorem backspace_undoes_extension (s : State) (key : string) (t : Word.t) :
  running s = true → frozen s = false → gameOver s = false →
  isLetterKey key = true →
  chooseTarget (inputBuffer s ++ toLowerCase key) s = Some t →
  (inputBuffer s ++ toLowerCase key)%string ≠ Word.text t →
  keydown "Backspace" (keydown key s)
  = set_targetWordId
      (if String.eqb (inputBuffer s) EmptyString then None
       else option_map Word.id (chooseTarget (inputBuffer s) s))
      s.
Proof.
  intros Hr Hf Hg Hkey Hc Hns.
  destruct (letterKey_lower key Hkey) as (_ & _ & Hlen).
  assert (keydown key s
          = s |> set_inputBuffer (inputBuffer s ++ toLowerCase key)
              |> set_targetWordId (Some (Word.id t))) as ->.
  { unfold keydown. rewrite Hr, Hkey. cbn [negb].
    rewrite (handleTypedCharacter_outcome key s Hr Hf Hg).
    unfold chain_break, resolve. rewrite Hc.
    assert (existsb
              (λ w, startsWith (inputBuffer s ++ toLowerCase key)
                      (Word.text w)) (activeWords s) = true) as ->.
    { apply not_false_iff_true. rewrite <- chooseTarget_None_iff.
      congruence. }
    rewrite andb_false_r. cbn zeta.
    apply String.eqb_neq in Hns. by rewrite Hns. }
  unfold keydown. cbn [running set_targetWordId set_inputBuffer].
  rewrite Hr. cbn [negb].
  change (isLetterKey "Backspace") with false. cbn [orb].
  change (String.eqb "Backspace" "Backspace") with true. cbn [orb].
  unfold handleControlKey.
  change (String.eqb "Backspace" "Backspace") with true.
  cbn [inputBuffer set_targetWordId set_inputBuffer].
  rewrite string_length_app, Hlen.
  replace (String.length (inputBuffer s) + 1 =? 0)%nat with false
    by (symmetry; apply Nat.eqb_neq; lia).
  rewrite dropLast_app by done.
  destruct (inputBuffer s) as [|a b] eqn:Hb.
  - simpl. destruct s; simpl in *. by subst.
  - cbn [String.length Nat.eqb String.eqb].
    unfold chooseTarget. simpl.
    destruct (fold_left _ _ None); destruct s; simpl in *; by subst.
Qed.


(** ** Spawn cadence *)

Lemma keydown_spawnTimer key s : spawnTimer (keydown key s) = spawnTimer s.
Proof.
  destruct (keydown_cases key s) as [-> | [-> | ->]]; [done|..].
  - destruct (handleTypedCharacter_guard key s) as [-> | (Hr & Hf & Hg)];
      [done|].
    rewrite (handleTypedCharacter_outcome key s Hr Hf Hg).
    unfold removeActiveWordById.
    destruct (chain_break _ s), (resolve _ s) as [[b t]|]; cbn zeta;
      try destruct (String.eqb b (Word.text t));
      try destruct (list_find _ _) as [[index removed]|];
      simpl; done.
  - unfold handleControlKey.
    destruct (String.eqb key "Backspace");
      [|destruct (String.eqb key "Escape")]; simpl; try done.
    destruct (String.length (inputBuffer s) =? 0)%nat; [done|].
    by destruct (String.length (dropLast (inputBuffer s)) =? 0)%nat.
Qed.

Lemma apply_spawnTimer e s :
  (spawnTimer s < 1)%Q → (spawnTimer (apply e s) < 1)%Q.
Proof.
  intros H. destruct e as [words level acc maxWords rs | key | dt rs | |];
    cbn [Game.apply].
  - destruct words as [|w ws] eqn:Hw; [done|]. rewrite <- Hw.
    destruct (startGame_unfold canvas_width measureText words level acc
                maxWords rs s) as (pending & rs' & ->); [by rewrite Hw|].
    by rewrite (spawnWord_spawnTimer canvas_width measureText).
  - by rewrite keydown_spawnTimer.
  - unfold Game.loop. destruct (_ && _); [|done].
    apply updateWorld_timer.
  - unfold onWordSolved_resume.
    match goal with
    | |- context [maybeFinishGame ?a] =>
        destruct (pools_empty_dec a) as [He | Hne];
        [rewrite (maybeFinishGame_empty a He)
        | rewrite (maybeFinishGame_nonempty a Hne)]
    end; done.
  - done.
Qed.

Lemma reachable_spawnTimer s : reachable s → (spawnTimer s < 1)%Q.
Proof.
  intros (p & es & ->).
  assert (spawnTimer (initial p) < 1)%Q as H by done.
  revert H. generalize (initial p).
  induction es as [|e es IH]; intros s H; simpl; [done|].
  by apply IH, apply_spawnTimer.
Qed.

Lemma spawnLoop_news fuel : ∀ s rs,
  ∃ news, spawned s (spawnLoop fuel s rs).1 news
    ∧ (length news <= fuel)%nat.
Proof.
  induction fuel as [|fuel IH]; intros s rs; cbn [Game.spawnLoop].
  - exists []. split; [by apply spawned_refl | done].
  - destruct (Qle_bool 1 (spawnTimer s)).
    + destruct (spawnWord_cases canvas_width measureText
                  (set_spawnTimer (spawnTimer s - 1) s) rs)
        as [[-> _]
           | (_ & queue & missed' & rs1 & text & rest & _ & _ & ->)].
      * destruct (IH (set_spawnTimer (spawnTimer s - 1) s) rs)
          as (news & Hsp & Hlen).
        exists news. split; [|lia].
        eapply (spawned_trans _ _ _ [] news); [|exact Hsp].
        by apply spawned_refl.
      * match goal with
        | |- context [Game.spawnLoop _ _ fuel ?a ?r] =>
            destruct (IH a r) as (news & Hsp & Hlen)
        end.
        eexists (_ :: news). split; [|simpl; lia].
        eapply (spawned_trans _ _ _ [_] news); [|exact Hsp].
        unfold spawned. simpl. split_and!; done.
    + exists []. split; [by apply spawned_refl | simpl; lia].
Qed.

(** X11.  In every reachable state the spawn timer is below 1, the
    [while] of [updateWorld] having run to its end; so a frame whose [dt]
    is at most 1 (the script clamps it to 0.1) spawns at most one word. *)
Theorem one_spawn_per_frame (s : State) (dt : Q) (rs : Rand) :
  reachable s → (dt <= 1)%Q →
  (spawnTimer s < 1)%Q
  ∧ (spawnTimer (loop dt rs s) < 1)%Q
  ∧ (length (assigned canvas_width measureText (Frame dt rs) s) <= 1)%nat.
Proof.
  intros Hreach Hdt.
  pose proof (reachable_spawnTimer s Hreach) as Ht.
  split; [done|]. split.
  { apply (apply_spawnTimer (Frame dt rs) s Ht). }
  unfold Game.assigned. destruct (simulating s); [|simpl; lia].
  set (s1 := set_spawnTimer (spawnTimer s + dt) s).
  destruct (spawnLoop_news (Z.to_nat (Qfloor (spawnTimer s1))) s1 rs)
    as (news & Hsp & Hlen).
  destruct (spawnLoop (Z.to_nat (Qfloor (spawnTimer s1))) s1 rs)
    as [s2 rs2]. simpl in Hsp.
  destruct Hsp as (Ha & _).
  rewrite Ha, map_app, drop_app_length' by (by rewrite length_map).
  rewrite length_map.
  assert (Qfloor (spawnTimer s1) < 2)%Z; [|lia].
  rewrite Zlt_Qlt. eapply Qle_lt_trans; [apply Qfloor_le|].
  unfold s1. simpl. change (inject_Z 2) with 2%Q. lra.
Qed.

(** ** Shuffling *)

Lemma shuffle_from_draws {A} i : ∀ (arr : list A) rs,
  (shuffle_from i arr rs).2 = drop i rs.
Proof.
  induction i as [|i IH]; intros arr rs; simpl; [done|].
  destruct rs as [|r rs]; simpl; rewrite IH; [|done].
  by rewrite drop_nil.
Qed.

(** X12.  [shuffle] returns a rearrangement of its argument, whatever the
    random draws: the same elements as often, hence the same length.  It
    consumes one draw per element but the first. *)
Theorem shuffle_rearranges {A} (items : list A) (rs : Rand) :
  (shuffle items rs).1 ≡ₚ items
  ∧ length (shuffle items rs).1 = length items
  ∧ (shuffle items rs).2 = drop (length items - 1) rs.
Proof.
  split_and!.
  - apply shuffle_Permutation.
  - apply shuffle_length.
  - apply shuffle_from_draws.
Qed.


(** ** Falling *)


(** X14.  After [updateWorld] every active word is above the ground line,
    and it is a word that was active before, or one spawned in this frame
    under a fresh id, moved down by the speed of the level times [dt]; its
    id, text, position across and width are untouched. *)
Theorem frame_survivors_above_ground (dt : Q) (rs : Rand) (s : State)
    (w : Word.t) :
  w ∈ activeWords (updateWorld dt rs s) →
  (Word.y w < groundY canvas_height)%Q
  ∧ ∃ w0,
      w = moveDown
            (speedToPixelsPerSecond canvas_height Math_pow (speedLevel s)
             * dt) w0
      ∧ (w0 ∈ activeWords s ∨ nextWordId s <= Word.id w0).
Proof.
  destruct (updateWorld_unfold canvas_width canvas_height measureText
              Math_pow dt rs s) as (s2 & news & Hsp & _ & ->).
  destruct Hsp as (Ha2 & Hi2 & _ & _ & _ & _ & _ & _ & _ & _ & Hl2 & _).
  match goal with
  | |- context [maybeFinishGame ?a] =>
      destruct (maybeFinishGame_fields a) as (_ & _ & _ & _ & _ & -> & _)
  end.
  simpl. rewrite Hl2, Ha2.
  intros [(w0 & -> & Hw0)%list_elem_of_fmap Hg]%list_filter_elem_of.
  split.
  - apply negb_true_iff in Hg. unfold atGround in Hg.
    apply not_true_iff_false in Hg. rewrite Qle_bool_iff in Hg.
    by apply Qnot_le_lt.
  - exists w0. split; [done|].
    apply elem_of_app in Hw0 as [Hw0 | Hw0]; [by left|]. right.
    assert (Word.id w0 ∈ seqZ (nextWordId s) (Z.of_nat (length news)))
      as Hin by (rewrite <- Hi2; by apply list_elem_of_fmap_2).
    apply elem_of_seqZ in Hin. lia.
Qed.

End SessionProperties.

(** ** The further statements on the sample runs *)

Lemma session_words_conserved_witness :
  pool_texts demo_started
  ≡ₚ solved_texts demo_width demo_height demo_measureText demo_pow
       demo_session demo_started
     ++ pool_texts (run demo_width demo_height demo_measureText demo_pow
                      demo_session demo_started).
Proof.
  assert (reachable demo_width demo_height demo_measureText demo_pow
            demo_started) as Hr.
  { exists demo_page, [demo_start]. reflexivity. }
  assert (Forall in_session demo_session) as Hs
    by (unfold demo_session, demo_frames; simpl; repeat constructor).
  exact (session_words_conserved demo_width demo_height demo_measureText
           demo_pow demo_session demo_started Hr Hs).
Defined.

Lemma finished_game_solved_every_word_witness :
  solved_texts demo_width demo_height demo_measureText demo_pow demo_session
    (startGame demo_width demo_measureText ["cat"; "car"]%string 5 "en-US" 0
       [1 # 2; 1 # 4]%Q (initial demo_page))
  ≡ₚ pool_texts
       (startGame demo_width demo_measureText ["cat"; "car"]%string 5
          "en-US" 0 [1 # 2; 1 # 4]%Q (initial demo_page)).
Proof.
  assert (reachable demo_width demo_height demo_measureText demo_pow
            (initial demo_page)) as Hr.
  { exists demo_page, []. reflexivity. }
  assert (Forall in_session demo_session) as Hs
    by (unfold demo_session, demo_frames; simpl; repeat constructor).
  assert (gameOver
            (run demo_width demo_height demo_measureText demo_pow
               demo_session
               (startGame demo_width demo_measureText ["cat"; "car"]%string
                  5 "en-US" 0 [1 # 2; 1 # 4]%Q (initial demo_page)))
          = true) as Hg by (vm_compute; reflexivity).
  exact (finished_game_solved_every_word demo_width demo_height
           demo_measureText demo_pow _ _ _ _ _ _ _ Hr Hs Hg).
Defined.

Lemma startGame_plays_the_wordbook_witness :
  ["cat"; "car"]%string ≠ []
  ∧ running (startGame demo_width demo_measureText ["cat"; "car"]%string 5
               "en-US" 0 [1 # 2; 1 # 4]%Q (initial demo_page)) = true.
Proof.
  assert (["cat"; "car"]%string ≠ []) as H by discriminate.
  split; [exact H|].
  exact (proj1 (startGame_plays_the_wordbook demo_width demo_measureText
                  ["cat"; "car"]%string 5 "en-US" 0 [1 # 2; 1 # 4]%Q
                  (initial demo_page) H)).
Defined.

Lemma active_words_capped_witness :
  (length (activeWords demo_two_words) <= 8)%nat.
Proof.
  assert (reachable demo_width demo_height demo_measureText demo_pow
            demo_two_words) as Hr.
  { exists demo_page, (demo_start :: demo_frames). reflexivity. }
  exact (proj2 (active_words_capped demo_width demo_height demo_measureText
                  demo_pow demo_two_words Hr)).
Defined.

Lemma game_over_means_done_witness :
  gameOver demo_finished = true
  ∧ running demo_finished = false.
Proof.
  assert (reachable demo_width demo_height demo_measureText demo_pow
            demo_finished) as Hr.
  { exists demo_page, (demo_start :: demo_session). reflexivity. }
  assert (gameOver demo_finished = true) as Hg by (vm_compute; reflexivity).
  split; [exact Hg|].
  exact (proj1 (game_over_means_done demo_width demo_height demo_measureText
                  demo_pow demo_finished Hr Hg)).
Defined.

Lemma score_covers_combo_witness :
  0 <= combo demo_finished.
Proof.
  assert (reachable demo_width demo_height demo_measureText demo_pow
            demo_finished) as Hr.
  { exists demo_page, (demo_start :: demo_session). reflexivity. }
  exact (proj1 (score_covers_combo demo_width demo_height demo_measureText
                  demo_pow demo_finished Hr)).
Defined.

Lemma typed_text_has_target_witness :
  inputBuffer demo_typing = EmptyString ↔ targetWordId demo_typing = None.
Proof.
  assert (reachable demo_width demo_height demo_measureText demo_pow
            demo_typing) as Hr.
  { exists demo_page, (demo_start :: demo_frames ++ [KeyDown "c"]).
    reflexivity. }
  exact (proj1 (typed_text_has_target demo_width demo_height
                  demo_measureText demo_pow demo_typing Hr)).
Defined.

Lemma hud_stays_in_sync_witness :
  hud_ok demo_almost
  ∧ score demo_almost = 0
  ∧ score (apply demo_width demo_height demo_measureText demo_pow
             (KeyDown "t") demo_almost) = 1
  ∧ hud_ok (apply demo_width demo_height demo_measureText demo_pow
              (KeyDown "t") demo_almost).
Proof.
  assert (hud_ok demo_almost) as H by (split; vm_compute; reflexivity).
  split; [exact H|].
  split; [vm_compute; reflexivity|].
  split; [vm_compute; reflexivity|].
  exact (hud_stays_in_sync demo_width demo_height demo_measureText demo_pow
           (KeyDown "t") demo_almost (or_introl H)).
Defined.

Lemma drawWord_never_mismatched_witness :
  demo_cat ∈ activeWords demo_typing
  ∧ Forall (λ call, fillStyle call ≠ "#d95d39"%string)
      (drawWord demo_measureText demo_cat demo_typing).
Proof.
  assert (reachable demo_width demo_height demo_measureText demo_pow
            demo_typing) as Hr.
  { exists demo_page, (demo_start :: demo_frames ++ [KeyDown "c"]).
    reflexivity. }
  assert (demo_cat ∈ activeWords demo_typing) as Hw.
  { eapply (list_elem_of_lookup_2 _ 0%nat). vm_compute. reflexivity. }
  split; [exact Hw|].
  exact (proj1 (drawWord_never_mismatched demo_width demo_height
                  demo_measureText demo_pow demo_typing demo_cat Hr Hw)).
Defined.

Lemma backspace_undoes_extension_witness :
  keydown "Backspace" (keydown "c" demo_two_words)
  = set_targetWordId
      (if String.eqb (inputBuffer demo_two_words) EmptyString then None
       else option_map Word.id
              (chooseTarget (inputBuffer demo_two_words) demo_two_words))
      demo_two_words.
Proof.
  assert (running demo_two_words = true) as H1 by (vm_compute; reflexivity).
  assert (frozen demo_two_words = false) as H2 by (vm_compute; reflexivity).
  assert (gameOver demo_two_words = false) as H3
    by (vm_compute; reflexivity).
  assert (isLetterKey "c" = true) as H4 by (vm_compute; reflexivity).
  assert (chooseTarget (inputBuffer demo_two_words ++ toLowerCase "c")
            demo_two_words = Some demo_cat) as H5
    by (vm_compute; reflexivity).
  assert ((inputBuffer demo_two_words ++ toLowerCase "c")%string
          ≠ Word.text demo_cat) as H6
    by (intros H; vm_compute in H; discriminate H).
  exact (backspace_undoes_extension demo_two_words "c" demo_cat
           H1 H2 H3 H4 H5 H6).
Defined.

Lemma one_spawn_per_frame_witness :
  (spawnTimer demo_two_words < 1)%Q.
Proof.
  assert (reachable demo_width demo_height demo_measureText demo_pow
            demo_two_words) as Hr.
  { exists demo_page, (demo_start :: demo_frames). reflexivity. }
  assert ((1 # 10) <= 1)%Q as Hd by (by compute).
  exact (proj1 (one_spawn_per_frame demo_width demo_height demo_measureText
                  demo_pow demo_two_words (1 # 10) [] Hr Hd)).
Defined.


Lemma frame_survivors_above_ground_witness :
  demo_cat_moved
  ∈ activeWords (updateWorld demo_width demo_height demo_measureText
                   demo_pow (1 # 10) [] demo_two_words)
  ∧ (Word.y demo_cat_moved < groundY demo_height)%Q.
Proof.
  assert (demo_cat_moved
          ∈ activeWords (updateWorld demo_width demo_height demo_measureText
                           demo_pow (1 # 10) [] demo_two_words)) as H.
  { eapply (list_elem_of_lookup_2 _ 0%nat). vm_compute. reflexivity. }
  split; [exact H|].
  exact (proj1 (frame_survivors_above_ground demo_width demo_height
                  demo_measureText demo_pow (1 # 10) [] demo_two_words
                  demo_cat_moved H)).
Defined.

(** * Further properties of the settings endpoints *)

Lemma Contains_char (t : string) (c : ascii) :
  Server.Contains t (String c EmptyString) = false →
  c ∉ list_ascii_of_string t.
Proof.
  induction t as [|a t IH]; simpl; [intros _; apply not_elem_of_nil|].
  intros H. apply orb_false_iff in H as [H1 H2].
  apply not_elem_of_cons. split; [|by apply IH].
  intros ->. destruct (ascii_dec a a); [|done]. by destruct t.
Qed.

(** X15.  When [handleSettingsWordbook] answers with the settings, the
    request was a PUT whose wordbook, trimmed, is not empty and holds no
    slash and no backslash; that name is answered, and the bytes written to
    the settings file are those [writeConfig] prints for a configuration
    with that name, the accent answered (the one read from the file,
    "en-US" when there was none), a host and a port. *)
Theorem handleSettingsWordbook_stores_safe_name
    (srv : Server.server) (r : Server.Request) (d d' : Server.Disk)
    (v : Server.settingsResponse.t) :
  Server.handleSettingsWordbook srv r d = (Server.WriteJSON v, d') →
  Server.Method r = "PUT"%string
  ∧ (∃ w, Server.Body r = Some w
       ∧ Server.settingsResponse.Wordbook v = Server.TrimSpace w)
  ∧ Server.settingsResponse.Wordbook v ≠ EmptyString
  ∧ (∀ c, c ∈ list_ascii_of_string (Server.settingsResponse.Wordbook v) →
       c ≠ "/"%char ∧ c ≠ ascii_of_nat 92)
  ∧ ∃ old cfg,
      Server.loadConfigOptional d = Server.Ok old
      ∧ Server.writable d = true
      ∧ d' = Server.mkDisk (Server.Text (Server.content cfg)) true
               (Server.failure d)
      ∧ Server.appConfig.Wordbook cfg = Server.settingsResponse.Wordbook v
      ∧ Server.appConfig.Accent cfg = Server.settingsResponse.Accent v
      ∧ Server.appConfig.Accent cfg ≠ EmptyString
      ∧ (Server.appConfig.Accent old ≠ EmptyString →
         Server.appConfig.Accent cfg = Server.appConfig.Accent old)
      ∧ (Server.appConfig.Accent old = EmptyString →
         Server.appConfig.Accent cfg = "en-US"%string)
      ∧ Server.appConfig.Host cfg ≠ EmptyString
      ∧ Server.appConfig.Port cfg ≠ 0.
Proof.
  unfold Server.handleSettingsWordbook.
  destruct (Server.Method r =? "PUT")%string eqn:Hm; simpl; [|done].
  apply String.eqb_eq in Hm.
  destruct (Server.Body r) as [w|]; [|done].
  destruct (Server.TrimSpace w =? EmptyString)%string eqn:He; simpl; [done|].
  destruct (Server.Contains (Server.TrimSpace w) "/") eqn:Hs; simpl; [done|].
  destruct (Server.Contains (Server.TrimSpace w) Server.backslash) eqn:Hb;
    simpl; [done|].
  destruct (Server.loadConfigOptional d) as [old|] eqn:Hl; [|done].
  unfold Server.writeConfig.
  destruct (Server.writable d) eqn:Hw;
    [|by destruct (Server.failure d)].
  cbn [Server.appConfig.Accent Server.appConfig.Wordbook].
  intros [= <- <-]. cbn [Server.settingsResponse.Wordbook].
  apply String.eqb_neq in He.
  split_and!; try done.
  - by exists w.
  - intros c Hc. split; intros ->.
    + by apply (Contains_char _ _ Hs).
    + by apply (Contains_char _ _ Hb).
  - eexists old, _. split_and!; try reflexivity; simpl.
    + destruct (Server.appConfig.Accent old =? EmptyString)%string eqn:Ha;
        [done|]. by apply String.eqb_neq.
    + intros Ha. apply String.eqb_neq in Ha. by rewrite Ha.
    + by intros ->.
    + destruct (Server.appConfig.Host old =? EmptyString)%string eqn:Hh;
        [done|]. by apply String.eqb_neq.
    + destruct (Server.appConfig.Port old =? 0) eqn:Hp; [done|].
      by apply Z.eqb_neq.
Qed.

(** X16.  A refusal of [handleSettingsWordbook] leaves the settings file as
    it was, unless it is the refusal of a failed write: then the file is as
    it was or holds the first bytes of the new configuration.  The answer
    is 405 exactly for a method other than PUT, 400 only for a body that
    does not decode or a name that is empty or holds a slash or a
    backslash, and 500 only when the file cannot be read or written. *)
Theorem handleSettingsWordbook_refusals
    (srv : Server.server) (r : Server.Request) (d d' : Server.Disk)
    (msg : string) (code : Z) :
  Server.handleSettingsWordbook srv r d = (Server.HttpError msg code, d') →
  (code = 405 ∨ code = 400 ∨ code = 500)
  ∧ (code = 405 ↔ Server.Method r ≠ "PUT"%string)
  ∧ (code = 400 →
     Server.Body r = None
     ∨ ∃ w, Server.Body r = Some w
         ∧ (Server.TrimSpace w = EmptyString
            ∨ Server.Contains (Server.TrimSpace w) "/" = true
            ∨ Server.Contains (Server.TrimSpace w) Server.backslash = true))
  ∧ (code = 500 →
     Server.loadConfigOptional d = Server.Err ∨ Server.writable d = false)
  ∧ (code ≠ 500 ∨ Server.loadConfigOptional d = Server.Err
     ∨ Server.failure d = Server.Untouched → d' = d)
  ∧ (d' = d
     ∨ ∃ w old cfg n,
         Server.Body r = Some w
         ∧ Server.loadConfigOptional d = Server.Ok old
         ∧ Server.writable d = false
         ∧ Server.failure d = Server.Truncated n
         ∧ code = 500
         ∧ Server.appConfig.Wordbook cfg = Server.TrimSpace w
         ∧ d' = Server.mkDisk
                  (Server.Text (String.substring 0 n (Server.content cfg)))
                  false (Server.failure d)).
Proof.
  unfold Server.handleSettingsWordbook.
  destruct (Server.Method r =? "PUT")%string eqn:Hm; simpl.
  2:{ apply String.eqb_neq in Hm. intros [= <- <- <-].
      split_and!; try done; by auto. }
  apply String.eqb_eq in Hm.
  assert (∀ c : Z, c ≠ 405 → c = 405 ↔ Server.Method r ≠ "PUT"%string)
    as H405 by (intros c Hc; split; [done | by rewrite Hm]).
  destruct (Server.Body r) as [w|].
  2:{ intros [= <- <- <-]. split_and!; try done; by auto. }
  destruct (Server.TrimSpace w =? EmptyString)%string eqn:He; simpl.
  { apply String.eqb_eq in He. intros [= <- <- <-].
    split_and!; try done; by eauto 6. }
  destruct (Server.Contains (Server.TrimSpace w) "/") eqn:Hs; simpl.
  { intros [= <- <- <-]. split_and!; try done; by eauto 6. }
  destruct (Server.Contains (Server.TrimSpace w) Server.backslash) eqn:Hb;
    simpl.
  { intros [= <- <- <-]. split_and!; try done; by eauto 6. }
  destruct (Server.loadConfigOptional d) as [old|] eqn:Hl.
  2:{ intros [= <- <- <-]. split_and!; try done; by auto. }
  match goal with
  | |- context [Server.writeConfig ?c d] =>
      assert (Server.appConfig.Wordbook c = Server.TrimSpace w) as Hwb
        by reflexivity;
      generalize dependent c; intros cfg Hwb
  end.
  unfold Server.writeConfig.
  destruct (Server.writable d) eqn:Hw; [done|].
  destruct (Server.failure d) as [|n] eqn:Hf.
  { intros [= <- <- <-]. split_and!; try done; by auto. }
  intros [= <- <- <-]. split_and!; try done; try by auto.
  - by intros [? | [? | ?]].
  - right. by eexists w, old, cfg, n.
Qed.

(** X17.  No settings answer carries an empty accent, whichever of the
    three handlers gives it: [handleSettings] falls back to "en-US",
    [handleSettingsAccent] stores one of its two accents and
    [handleSettingsWordbook] fills in "en-US" where the file has none. *)
Theorem settings_accent_never_empty
    (srv : Server.server) (r : Server.Request) (d : Server.Disk)
    (v : Server.settingsResponse.t) :
  Server.handleSettings srv r d = Server.WriteJSON v
  ∨ (Server.handleSettingsAccent srv r d).1 = Server.WriteJSON v
  ∨ (Server.handleSettingsWordbook srv r d).1 = Server.WriteJSON v →
  Server.settingsResponse.Accent v ≠ EmptyString.
Proof.
  intros [H | [H | H]].
  - unfold Server.handleSettings in H.
    destruct (negb _); [done|].
    destruct (Server.loadConfigOptional d) as [cfg|]; [|done].
    injection H as <-. simpl.
    destruct (Server.TrimSpace (Server.appConfig.Accent cfg) =? EmptyString)%string
      eqn:Ha; [done|]. by apply String.eqb_neq.
  - unfold Server.handleSettingsAccent in H.
    destruct (negb _); [done|].
    destruct (Server.Body r) as [a|]; [|done].
    destruct (Server.TrimSpace a =? "en-US")%string eqn:H1;
      destruct (Server.TrimSpace a =? "en-GB")%string eqn:H2;
      simpl in H; try done;
      (destruct (Server.loadConfigOptional d) as [cfg|]; [|done]);
      unfold Server.writeConfig in H;
      (destruct (Server.writable d); [|by destruct (Server.failure d)]);
      simpl in H; injection H as <-; simpl;
      apply String.eqb_eq in H1 || apply String.eqb_eq in H2;
      by (rewrite H1 || rewrite H2).
  - unfold Server.handleSettingsWordbook in H.
    destruct (negb _); [done|].
    destruct (Server.Body r) as [w|]; [|done].
    destruct (_ || _); [done|].
    destruct (Server.loadConfigOptional d) as [cfg|]; [|done].
    unfold Server.writeConfig in H.
    destruct (Server.writable d); [|by destruct (Server.failure d)].
    simpl in H. injection H as <-. simpl.
    destruct (Server.appConfig.Accent cfg =? EmptyString)%string eqn:Ha;
      [done|]. by apply String.eqb_neq.
Qed.

(** The guard of [handleSettingsWordbook] lets a line feed through: the
    name is written as it is, and the file then reads back with a shorter
    name and with the accent of the second line. *)
Example wordbook_line_feed_rewrites_accent :
  let name := ("a" ++ String Server.lineFeed "WORDS_RAIN_ACCENT=xx")%string in
  let answer :=
    Server.handleSettingsWordbook (Server.mkServer "books" "config.env")
      (Server.mkRequest "PUT" (Some name))
      (Server.mkDisk Server.Absent true Server.Untouched) in
  answer.1 = Server.WriteJSON (Server.settingsResponse.mk "en-US" name)
  ∧ Server.loadConfigOptional answer.2
    = Server.Ok (Server.appConfig.mk "127.0.0.1" 8080 "books" true "xx" "a").
Proof. split; vm_compute; reflexivity. Qed.

Lemma handleSettingsWordbook_stores_safe_name_witness :
  Server.handleSettingsWordbook (Server.mkServer "books" "config.env")
    (Server.mkRequest "PUT" (Some " animals "%string))
    (Server.mkDisk Server.Absent true Server.Untouched)
  = (Server.WriteJSON (Server.settingsResponse.mk "en-US" "animals"),
     Server.mkDisk
       (Server.Holds
          (Server.appConfig.mk "127.0.0.1" 8080 "books" true "en-US"
             "animals"))
       true Server.Untouched)
  ∧ Server.Method (Server.mkRequest "PUT" (Some " animals "%string))
    = "PUT"%string.
Proof.
  assert (Server.handleSettingsWordbook
            (Server.mkServer "books" "config.env")
            (Server.mkRequest "PUT" (Some " animals "%string))
            (Server.mkDisk Server.Absent true Server.Untouched)
          = (Server.WriteJSON (Server.settingsResponse.mk "en-US" "animals"),
             Server.mkDisk
               (Server.Holds
                  (Server.appConfig.mk "127.0.0.1" 8080 "books" true "en-US"
                     "animals"))
               true Server.Untouched)) as H by (vm_compute; reflexivity).
  split; [exact H|].
  exact (proj1 (handleSettingsWordbook_stores_safe_name _ _ _ _ _ H)).
Defined.

Lemma handleSettingsWordbook_refusals_witness :
  Server.handleSettingsWordbook (Server.mkServer "books" "config.env")
    (Server.mkRequest "PUT" (Some "animals"%string))
    (Server.mkDisk Server.Absent false (Server.Truncated 40))
  = (Server.HttpError "failed to write settings" 500,
     Server.mkDisk
       (Server.Text
          (String.substring 0 40
             (Server.content
                (Server.appConfig.mk "127.0.0.1" 8080 "books" true "en-US"
                   "animals"))))
       false (Server.Truncated 40))
  ∧ ((500 : Z) = 405 ∨ (500 : Z) = 400 ∨ (500 : Z) = 500).
Proof.
  assert (Server.handleSettingsWordbook
            (Server.mkServer "books" "config.env")
            (Server.mkRequest "PUT" (Some "animals"%string))
            (Server.mkDisk Server.Absent false (Server.Truncated 40))
          = (Server.HttpError "failed to write settings" 500,
             Server.mkDisk
               (Server.Text
                  (String.substring 0 40
                     (Server.content
                        (Server.appConfig.mk "127.0.0.1" 8080 "books" true
                           "en-US" "animals"))))
               false (Server.Truncated 40))) as H
    by (vm_compute; reflexivity).
  split; [exact H|].
  exact (proj1 (handleSettingsWordbook_refusals _ _ _ _ _ _ H)).
Defined.

Lemma settings_accent_never_empty_witness :
  Server.handleSettings (Server.mkServer "books" "config.env")
    (Server.mkRequest "GET" None)
    (Server.mkDisk Server.Absent true Server.Untouched)
  = Server.WriteJSON (Server.settingsResponse.mk "en-US" EmptyString)
  ∧ Server.settingsResponse.Accent
      (Server.settingsResponse.mk "en-US" EmptyString)
    ≠ EmptyString.
Proof.
  assert (Server.handleSettings (Server.mkServer "books" "config.env")
            (Server.mkRequest "GET" None)
            (Server.mkDisk Server.Absent true Server.Untouched)
          = Server.WriteJSON (Server.settingsResponse.mk "en-US" EmptyString))
    as H by (vm_compute; reflexivity).
  split; [exact H|].
  exact (settings_accent_never_empty _ _ _ _ (or_introl H)).
Defined.
